(** * UOTA training script: the assignment engine, the feature queue and
      the outlier-weighted loss of [main_uota.py]

    The script works on torch tensors of floats.  Tensor entries are
    modelled in exact arithmetic: a finite entry is a real number, and
    the three special values that a division by zero (or an argument such
    as [inf] or [nan]) can produce are kept as they are in IEEE
    arithmetic.  Rounding, overflow and the sign of zero are outside the
    model.  Integers of the script ([int] arguments, epochs) are [Z],
    sizes and positions are [nat]. *)

From Stdlib Require Import Reals Lra Lia ZArith List Bool Arith.
Import ListNotations.

Local Open Scope R_scope.

(** ** Tensor entries *)

Inductive num : Type :=
| Fin (x : R)
| PInf
| NInf
| NaN.

Definition isinf (a : num) : bool :=
  match a with PInf | NInf => true | _ => false end.

Definition isnan (a : num) : bool :=
  match a with NaN => true | _ => false end.

Definition isfinite (a : num) : bool :=
  match a with Fin _ => true | _ => false end.

(** [a == 0] on one entry. *)
Definition eq_zero (a : num) : bool :=
  match a with
  | Fin x => if Req_dec_T x 0 then true else false
  | _ => false
  end.

(** The sign of a nonzero real picks the infinity. *)
Definition inf_of_sign (x : R) : num :=
  if Rlt_dec 0 x then PInf else NInf.

Definition nneg (a : num) : num :=
  match a with
  | Fin x => Fin (- x)
  | PInf => NInf
  | NInf => PInf
  | NaN => NaN
  end.

Definition nadd (a b : num) : num :=
  match a, b with
  | NaN, _ | _, NaN => NaN
  | Fin x, Fin y => Fin (x + y)
  | PInf, NInf | NInf, PInf => NaN
  | PInf, _ | _, PInf => PInf
  | NInf, _ | _, NInf => NInf
  end.

Definition nsub (a b : num) : num := nadd a (nneg b).

Definition nmul (a b : num) : num :=
  match a, b with
  | NaN, _ | _, NaN => NaN
  | Fin x, Fin y => Fin (x * y)
  | Fin x, PInf | PInf, Fin x =>
      if Req_dec_T x 0 then NaN else inf_of_sign x
  | Fin x, NInf | NInf, Fin x =>
      if Req_dec_T x 0 then NaN else inf_of_sign (- x)
  | PInf, PInf | NInf, NInf => PInf
  | PInf, NInf | NInf, PInf => NInf
  end.

(** Division; a zero divisor is taken as [+0]. *)
Definition ndiv (a b : num) : num :=
  match a, b with
  | NaN, _ | _, NaN => NaN
  | Fin x, Fin y =>
      if Req_dec_T y 0
      then (if Req_dec_T x 0 then NaN else inf_of_sign x)
      else Fin (x / y)
  | Fin _, (PInf | NInf) => Fin 0
  | (PInf | NInf), (PInf | NInf) => NaN
  | PInf, Fin y => if Rlt_dec y 0 then NInf else PInf
  | NInf, Fin y => if Rlt_dec y 0 then PInf else NInf
  end.

(** [torch.exp] in exact arithmetic: on a finite argument the real
    exponential, which is never zero and never infinite.  On floats the
    result is [+inf] above the range of the format and [0] below it (for
    float32 from about 88.7 upwards and from about -103.9 downwards), so a
    statement that is to hold of the entries that lines 339 and 345
    produce on floats takes what it needs of them as a hypothesis. *)
Definition nexp (a : num) : num :=
  match a with
  | Fin x => Fin (exp x)
  | PInf => PInf
  | NInf => Fin 0
  | NaN => NaN
  end.

Definition nlog (a : num) : num :=
  match a with
  | Fin x =>
      if Req_dec_T x 0 then NInf
      else if Rlt_dec 0 x then Fin (ln x) else NaN
  | PInf => PInf
  | NInf | NaN => NaN
  end.

(** The larger of two entries as [torch.max] reduces them: a NaN wins. *)
Definition nmax (a b : num) : num :=
  match a, b with
  | NaN, _ | _, NaN => NaN
  | PInf, _ | _, PInf => PInf
  | NInf, c | c, NInf => c
  | Fin x, Fin y => Fin (Rmax x y)
  end.

(** An integer of the script used as a tensor entry. *)
Definition of_Z (z : Z) : num := Fin (IZR z).
Definition of_nat (n : nat) : num := Fin (INR n).

(** ** Tensors *)

Definition vec : Type := list num.
Definition mat : Type := list vec.

(** A tensor of rank 1, of rank 2, or of any other rank (its entries in
    storage order). *)
Inductive tensor : Type :=
| T1 (v : vec)
| T2 (m : mat)
| TOther (flat : vec).

Definition entries (t : tensor) : vec :=
  match t with
  | T1 v => v
  | T2 m => concat m
  | TOther f => f
  end.

Definition tmap (f : num -> num) (t : tensor) : tensor :=
  match t with
  | T1 v => T1 (map f v)
  | T2 m => T2 (map (map f) m)
  | TOther fl => TOther (map f fl)
  end.

(** The ranks for which [shoot_infs] has a branch. *)
Definition rank12 (t : tensor) : bool :=
  match t with
  | T1 _ | T2 _ => true
  | TOther _ => false
  end.

(** [torch.sum(t)]. *)
Definition nsum (v : vec) : num := fold_right nadd (Fin 0) v.

(** [torch.max(t)]: an error on a tensor with no entry. *)
Definition torch_max (v : vec) : option num :=
  match v with
  | [] => None
  | x :: l => Some (fold_left nmax l x)
  end.

(** ** [shoot_infs] *)

(** [inp_tensor[ind] = v] for every index [ind] of the mask. *)
Definition put_where (mask : list bool) (v : num) (xs : vec) : vec :=
  map (fun bx : bool * num => if fst bx then v else snd bx) (combine mask xs).

Definition put_where2 (mask : list (list bool)) (v : num) (m : mat) : mat :=
  map (fun br : list bool * vec => put_where (fst br) v (snd br))
      (combine mask m).

(** What the first loop leaves of one entry: an infinite entry is zero. *)
Definition zero_inf (x : num) : num := if isinf x then Fin 0 else x.

(** The branch [len(ind) == 1]. *)
Definition shoot_infs1 (inp_tensor : vec) : vec :=
  let mask_inf := map isinf inp_tensor in
  if existsb (fun b : bool => b) mask_inf then
    let zeroed := put_where mask_inf (Fin 0) inp_tensor in
    match torch_max zeroed with
    | Some m => put_where mask_inf m zeroed
    | None => zeroed
    end
  else inp_tensor.

(** The branch [len(ind) == 2]. *)
Definition shoot_infs2 (inp_tensor : mat) : mat :=
  let mask_inf := map (map isinf) inp_tensor in
  if existsb (existsb (fun b : bool => b)) mask_inf then
    let zeroed := put_where2 mask_inf (Fin 0) inp_tensor in
    match torch_max (concat zeroed) with
    | Some m => put_where2 mask_inf m zeroed
    | None => zeroed
    end
  else inp_tensor.

(** For an index of any other length neither branch of the two loops
    fires, and the tensor comes back as it was. *)
Definition shoot_infs (inp_tensor : tensor) : tensor :=
  match inp_tensor with
  | T1 v => T1 (shoot_infs1 v)
  | T2 m => T2 (shoot_infs2 m)
  | TOther f => TOther f
  end.

(** ** Tensor operations used by the script *)

Definition shape0 (Q : mat) : nat := length Q.
Definition shape1 (Q : mat) : nat := length (hd [] Q).

Definition column (j : nat) (Q : mat) : vec :=
  map (fun row : vec => nth j row (Fin 0)) Q.

(** [Q.t()] *)
Definition transpose (Q : mat) : mat :=
  map (fun j : nat => column j Q) (seq 0 (shape1 Q)).

(** [torch.sum(Q)], [torch.sum(Q, dim=1)] and [torch.sum(Q, dim=0)]. *)
Definition sum_all (Q : mat) : num := nsum (concat Q).
Definition sum_dim1 (Q : mat) : vec := map nsum Q.
Definition sum_dim0 (Q : mat) : vec := map nsum (transpose Q).

(** An entrywise operation on two tensors of one shape. *)
Definition vmap2 (f : num -> num -> num) (a b : vec) : vec :=
  map (fun p : num * num => f (fst p) (snd p)) (combine a b).

(** [torch.ones(n) / d] *)
Definition ones_div (n : nat) (d : num) : vec := repeat (ndiv (Fin 1) d) n.

(** [Q / s] and [Q - s] for a scalar [s]. *)
Definition div_scalar (Q : mat) (s : num) : mat :=
  map (map (fun q : num => ndiv q s)) Q.
Definition sub_scalar (Q : mat) (s : num) : mat :=
  map (map (fun q : num => nsub q s)) Q.

(** [Q *= u.unsqueeze(1)]: row [k] is multiplied by [u[k]]. *)
Definition scale_rows (u : vec) (Q : mat) : mat :=
  map (fun p : num * vec => map (fun q : num => nmul q (fst p)) (snd p))
      (combine u Q).

(** [Q *= v.unsqueeze(0)]: column [j] is multiplied by [v[j]]. *)
Definition scale_cols (v : vec) (Q : mat) : mat :=
  map (fun row : vec => vmap2 nmul row v) Q.

(** [Q / v] with [v] of shape [1 x N]. *)
Definition div_cols (Q : mat) (v : vec) : mat :=
  map (fun row : vec => vmap2 ndiv row v) Q.

(** [t[-n:]]; Python reads [-0] as [0], so [n = 0] keeps everything. *)
Definition slice_last {A : Type} (n : nat) (l : list A) : list A :=
  match n with
  | O => l
  | S _ => skipn (length l - n) l
  end.

(** [t[a*n : (a+1)*n]] *)
Definition chunk {A : Type} (n a : nat) (l : list A) : list A :=
  firstn n (skipn (a * n) l).

(** ** Collective reductions

    The workers run the same statements in lockstep, so a run of the
    engine is modelled on the list of the workers' local tensors, one per
    rank.  [dist.all_reduce] leaves at every worker the sum (or the
    maximum) of what the workers hold. *)

Definition all_reduce_sum (xs : list num) : num := nsum xs.
Definition all_reduce_sum_vec (us : list vec) : vec := sum_dim0 us.
Definition all_reduce_max (xs : list num) : option num := torch_max xs.

Fixpoint all_some {A : Type} (l : list (option A)) : option (list A) :=
  match l with
  | [] => Some []
  | None :: _ => None
  | Some a :: l' =>
      match all_some l' with
      | Some r => Some (a :: r)
      | None => None
      end
  end.

(** ** Command-line arguments read by the modelled code *)

Record arguments : Type := {
  crops_for_assign : list nat;
  nmb_crops : list Z;
  temperature : num;
  epsilon : num;
  improve_numerical_stability : bool;
  sinkhorn_iterations : Z;
  feat_dim : Z;
  queue_length : Z;
  epoch_queue_starts : Z;
  epochs : Z;
  batch_size : Z;
  world_size : Z;
  epoch_uota_starts : Z
}.

(** ** [distributed_sinkhorn] *)

(** Lines 399-402: sanitize, then divide by the global sum. *)
Definition sinkhorn_normalize (Qs : list mat) : list mat :=
  let Qs1 := map shoot_infs2 Qs in
  let sum_Q := all_reduce_sum (map sum_all Qs1) in
  map (fun Q : mat => div_scalar Q sum_Q) Qs1.

(** Lines 403-404: the marginals [r] and [c] of one worker. *)
Definition marginal_r (Q : mat) : vec :=
  ones_div (shape0 Q) (of_nat (shape0 Q)).
Definition marginal_c (ws : Z) (Q : mat) : vec :=
  ones_div (shape1 Q) (of_Z (ws * Z.of_nat (shape1 Q))).

(** The factors that multiply [Q] in one pass of the loop. *)
Definition row_factors (r u : vec) : vec := shoot_infs1 (vmap2 ndiv r u).
Definition col_factors (c : vec) (Q : mat) : vec := vmap2 ndiv c (sum_dim0 Q).

(** Lines 406-411 at one worker, [u] being the reduced row sums. *)
Definition sinkhorn_local (u : vec) (rcQ : (vec * vec) * mat) : mat :=
  let '((r, c), Q) := rcQ in
  let Q1 := scale_rows (row_factors r u) Q in
  scale_cols (col_factors c Q1) Q1.

Definition sinkhorn_iter (rcs : list (vec * vec)) (Qs : list mat) : list mat :=
  let u := all_reduce_sum_vec (map sum_dim1 Qs) in
  map (sinkhorn_local u) (combine rcs Qs).

Fixpoint sinkhorn_loop (rcs : list (vec * vec)) (Qs : list mat) (n : nat)
  : list mat :=
  match n with
  | O => Qs
  | S k => sinkhorn_loop rcs (sinkhorn_iter rcs Qs) k
  end.

(** The state of [Q] at every worker when the loop is left, before the
    [return] statement. *)
Definition sinkhorn_before_return (ws : Z) (Qs : list mat) (nmb_iters : Z)
  : list mat :=
  let Qs0 := sinkhorn_normalize Qs in
  let rcs := map (fun Q : mat => (marginal_r Q, marginal_c ws Q)) Qs0 in
  sinkhorn_loop rcs Qs0 (Z.to_nat nmb_iters).

(** Line 412. *)
Definition sinkhorn_return (Q : mat) : mat :=
  transpose (div_cols Q (sum_dim0 Q)).

Definition distributed_sinkhorn (ws : Z) (Qs : list mat) (nmb_iters : Z)
  : list mat :=
  map sinkhorn_return (sinkhorn_before_return ws Qs nmb_iters).

(** ** Lines 334-340 of [train]: from scores to assignments *)

Definition stabilize (qs : list mat) : option (list mat) :=
  match all_some (map (fun q : mat => torch_max (concat q)) qs) with
  | Some Ms =>
      match all_reduce_max Ms with
      | Some M => Some (map (fun q : mat => sub_scalar q M) qs)
      | None => None
      end
  | None => None
  end.

Definition scores_to_Q (args : arguments) (outs : list mat)
  : option (list mat) :=
  let qs := map (fun out : mat => div_scalar out (epsilon args)) outs in
  match (if improve_numerical_stability args then stabilize qs else Some qs)
  with
  | Some qs' => Some (map (fun q : mat => transpose (map (map nexp) q)) qs')
  | None => None
  end.

Definition get_assignments (args : arguments) (bs : nat) (outs : list mat)
  : option (list mat) :=
  match scores_to_Q args outs with
  | Some Qs =>
      Some (map (slice_last bs)
                (distributed_sinkhorn (world_size args) Qs
                                      (sinkhorn_iterations args)))
  | None => None
  end.

(** ** The feature queue (lines 322-332 of [train])

    The queue is a tensor of shape [groups x capacity x feat_dim], kept
    here as one buffer of rows per crop group.  An index or a shape that
    torch refuses is [None]. *)

Definition queue_t : Type := list mat.

(** [torch.mm(A, W.t())] *)
Definition mm_t (A W : mat) : mat :=
  map (fun a : vec => map (fun w : vec => nsum (vmap2 nmul a w)) W) A.

(** [not torch.all(queue[i, -1, :] == 0)]; a buffer without rows has no
    row [-1]. *)
Definition last_row_nonzero (buf : mat) : option bool :=
  match buf with
  | [] => None
  | _ :: _ => Some (negb (forallb eq_zero (last buf [])))
  end.

(** The right-hand side [src] of an assignment to a slice of [n] rows of
    [w] entries, as torch broadcasts it: a dimension of size 1 is repeated,
    any other mismatch of the two shapes is refused. *)
Definition broadcast_cols (w : nat) (src : mat) : option mat :=
  if forallb (fun row : vec => Nat.eqb (length row) w) src then Some src
  else if forallb (fun row : vec => Nat.eqb (length row) 1) src
       then Some (map (fun row : vec => repeat (hd (Fin 0) row) w) src)
       else None.

Definition broadcast_rows (n w : nat) (src : mat) : option mat :=
  match broadcast_cols w src with
  | Some rows =>
      if Nat.eqb (length rows) n then Some rows
      else match rows with
           | [row] => Some (repeat row n)
           | _ => None
           end
  | None => None
  end.

(** [buf[:-bs]]: Python reads [-0] as [0]. *)
Definition rows_but_last (bs : nat) (buf : mat) : mat :=
  match bs with
  | O => []
  | S _ => firstn (length buf - bs) buf
  end.

(** [buf[bs:] = src] and [buf[:bs] = src], the rows of [buf] having [w]
    entries. *)
Definition assign_from (bs w : nat) (buf src : mat) : option mat :=
  match broadcast_rows (length (skipn bs buf)) w src with
  | Some rows => Some (firstn bs buf ++ rows)
  | None => None
  end.

Definition assign_upto (bs w : nat) (buf src : mat) : option mat :=
  match broadcast_rows (length (firstn bs buf)) w src with
  | Some rows => Some (rows ++ skipn bs buf)
  | None => None
  end.

(** Lines 331-332: fill the queue.  The width of the buffer is that of
    its rows; a pass never gets here with a buffer without rows, since
    every call of [train] starts with the flag unset and line 324 then
    raises on [queue[i, -1, :]]. *)
Definition fill_queue (bs : nat) (buf new_rows : mat) : option mat :=
  match buf with
  | [] => None
  | row :: _ =>
      let w := length row in
      match assign_from bs w buf (rows_but_last bs buf) with
      | Some shifted => assign_upto bs w shifted new_rows
      | None => None
      end
  end.

(** The buffer of one group over successive iterations: lines 331-332
    run once per batch, in order. *)
Fixpoint fill_many (bs : nat) (buf : mat) (batches : list mat) : option mat :=
  match batches with
  | [] => Some buf
  | b :: rest =>
      match fill_queue bs buf b with
      | Some buf' => fill_many bs buf' rest
      | None => None
      end
  end.

Fixpoint set_nth {A : Type} (i : nat) (a : A) (l : list A) : list A :=
  match l, i with
  | [], _ => []
  | _ :: l', O => a :: l'
  | x :: l', S i' => x :: set_nth i' a l'
  end.

(** What the network hands to one iteration of [train]: the batch size
    [bs = inputs[0].size(0)], the three results of [model(inputs)] and the
    normalized prototype weights. *)
Record step_data : Type := {
  bs : nat;
  embedding : mat;
  output : mat;
  sample_weight : vec;
  prototypes : mat
}.

(** The part of the state of [train] that the queue code reads and
    writes. *)
Record queue_state : Type := {
  use_the_queue : bool;
  queue : option queue_t
}.

(** What one pass of the loop over [crops_for_assign] leaves to be seen:
    whether the queue was treated as warm, and the scores [out] that go on
    to the assignment. *)
Record crop_trace : Type := {
  used_queue : bool;
  out_scores : mat
}.

(** The latch as the code reads it: the flag is set and there is a queue. *)
Definition latched (st : queue_state) : bool :=
  use_the_queue st && match queue st with Some _ => true | None => false end.

(** The passes of one call of [train] in the order they ran, each with its
    answer to "is the queue warm". *)
Definition warm_flags (trss : list (list crop_trace)) : list bool :=
  map used_queue (concat trss).

(** Lines 320-332 for the pair [(i, crop_id)]. *)
Definition queue_step (d : step_data) (st : queue_state) (ic : nat * nat)
  : option (queue_state * crop_trace) :=
  let '(i, crop_id) := ic in
  let out := chunk (bs d) crop_id (output d) in
  match queue st with
  | None =>
      Some (st, {| used_queue := false; out_scores := out |})
  | Some qu =>
      match nth_error qu i with
      | None => None
      | Some buf =>
          match (if use_the_queue st then Some true
                 else last_row_nonzero buf) with
          | None => None
          | Some warm =>
              let out' := if warm then mm_t buf (prototypes d) ++ out
                          else out in
              match fill_queue (bs d) buf
                               (chunk (bs d) crop_id (embedding d)) with
              | None => None
              | Some buf' =>
                  Some ({| use_the_queue := warm;
                           queue := Some (set_nth i buf' qu) |},
                        {| used_queue := warm; out_scores := out' |})
              end
          end
      end
  end.

(** [enumerate(l)] *)
Definition enumerate {A : Type} (l : list A) : list (nat * A) :=
  combine (seq 0 (length l)) l.

(** The loop of line 318 within one iteration. *)
Fixpoint queue_crops (d : step_data) (st : queue_state)
         (ics : list (nat * nat))
  : option (queue_state * list crop_trace) :=
  match ics with
  | [] => Some (st, [])
  | ic :: rest =>
      match queue_step d st ic with
      | None => None
      | Some (st1, tr) =>
          match queue_crops d st1 rest with
          | None => None
          | Some (st2, trs) => Some (st2, tr :: trs)
          end
      end
  end.

(** The loop of line 296 over the batches of one epoch. *)
Fixpoint queue_iters (args : arguments) (st : queue_state)
         (batches : list step_data)
  : option (queue_state * list (list crop_trace)) :=
  match batches with
  | [] => Some (st, [])
  | d :: rest =>
      match queue_crops d st (enumerate (crops_for_assign args)) with
      | None => None
      | Some (st1, trs) =>
          match queue_iters args st1 rest with
          | None => None
          | Some (st2, trss) => Some (st2, trs :: trss)
          end
      end
  end.

(** [train], as far as the queue goes: [use_the_queue] starts at [False]
    (line 293) and the queue is handed back (line 394). *)
Definition train (args : arguments) (batches : list step_data)
           (qu : option queue_t)
  : option (list (list crop_trace) * option queue_t) :=
  match queue_iters args {| use_the_queue := false; queue := qu |} batches with
  | None => None
  | Some (st, trss) => Some (trss, queue st)
  end.

(** ** The queue in [main] (lines 224-260) *)

(** Line 230; a zero divisor is Python's [ZeroDivisionError]. *)
Definition truncate_queue_length (ql bsz ws : Z) : option Z :=
  if Z.eqb (bsz * ws) 0 then None
  else Some (ql - ql mod (bsz * ws))%Z.

(** [torch.zeros(g, cap, dim)] *)
Definition zeros (g : nat) (cap dim : Z) : option queue_t :=
  if (cap <? 0)%Z || (dim <? 0)%Z then None
  else Some (repeat (repeat (repeat (Fin 0) (Z.to_nat dim)) (Z.to_nat cap)) g).

(** Lines 244-249, [ql] being the truncated length. *)
Definition is_none {A : Type} (o : option A) : bool :=
  match o with None => true | Some _ => false end.

Definition start_queue (args : arguments) (ql epoch : Z)
           (qu : option queue_t) : option (option queue_t) :=
  if (0 <? ql)%Z && (epoch_queue_starts args <=? epoch)%Z && is_none qu then
    if Z.eqb (world_size args) 0 then None
    else match zeros (length (crops_for_assign args))
                     (ql / world_size args)%Z (feat_dim args) with
         | Some z => Some (Some z)
         | None => None
         end
  else Some qu.

(** One epoch as [main] sees it: the queue handed to [train] and what
    [train] did with it. *)
Record epoch_trace : Type := {
  epoch_no : Z;
  queue_in : option queue_t;
  steps : list (list crop_trace)
}.

(** The loop of line 234 from [epoch] on, [n] epochs being left;
    [data e] is what the loader and the network deliver in epoch [e]. *)
Fixpoint main_epochs (args : arguments) (ql : Z)
         (data : Z -> list step_data) (n : nat) (epoch : Z)
         (qu : option queue_t) : option (list epoch_trace) :=
  match n with
  | O => Some []
  | S k =>
      match start_queue args ql epoch qu with
      | None => None
      | Some qu1 =>
          match train args (data epoch) qu1 with
          | None => None
          | Some (trss, qu2) =>
              match main_epochs args ql data k (epoch + 1)%Z qu2 with
              | None => None
              | Some rest =>
                  Some ({| epoch_no := epoch; queue_in := qu1;
                           steps := trss |} :: rest)
              end
          end
      end
  end.

(** [main] from line 224 on: [queue_file] is the content of the file
    [queue<rank>.pth] if it exists, [start_epoch] the restored epoch. *)
Definition main (args : arguments) (queue_file : option queue_t)
           (start_epoch : Z) (data : Z -> list step_data)
  : option (list epoch_trace) :=
  let qu := queue_file in
  match truncate_queue_length (queue_length args) (batch_size args)
                              (world_size args) with
  | None => None
  | Some ql =>
      main_epochs args ql data (Z.to_nat (epochs args - start_epoch))
                  start_epoch qu
  end.

(** ** The loss (lines 343-353 of [train]) *)

(** [nn.Softmax(dim=1)] on one row. *)
Definition softmax_row (row : vec) : vec :=
  let e := map nexp row in
  map (fun x : num => ndiv x (nsum e)) e.

Definition softmax (m : mat) : mat := map softmax_row m.

(** [t.mean()] of a rank-1 tensor. *)
Definition mean (v : vec) : num := ndiv (nsum v) (of_nat (length v)).

(** [torch.sum(q * torch.log(p), dim=1)] *)
Definition ce_rows (q p : mat) : vec :=
  map (fun qp : vec * vec => nsum (vmap2 nmul (fst qp) (map nlog (snd qp))))
      (combine q p).

(** [np.delete(np.arange(total), crop_id)]; an index out of bounds is an
    [IndexError]. *)
Definition other_crops (total : Z) (crop_id : nat) : option (list nat) :=
  let n := Z.to_nat total in
  if Nat.ltb crop_id n
  then Some (filter (fun v : nat => negb (Nat.eqb v crop_id)) (seq 0 n))
  else None.

Definition total_crops (args : arguments) : Z := fold_right Z.add 0%Z (nmb_crops args).

(** The two forms of the term that one crop [v] takes off [subloss]. *)
Definition weighted_term (q p : mat) (w : vec) : num :=
  mean (vmap2 nmul (ce_rows q p) w).
Definition unweighted_term (q p : mat) : num :=
  mean (ce_rows q p).

(** Line 345: the predicted distribution of crop [v]. *)
Definition predicted (args : arguments) (d : step_data) (v : nat) : mat :=
  softmax (div_scalar (chunk (bs d) v (output d)) (temperature args)).

(** Lines 345-351: the body of the loop over the other crops. *)
Definition subloss_step (args : arguments) (epoch : Z) (d : step_data)
           (q : mat) (subloss : num) (v : nat) : num :=
  let p := predicted args d v in
  if (epoch_uota_starts args <? epoch + 1)%Z then
    let w := chunk (bs d) v (sample_weight d) in
    nsub subloss (weighted_term q p w)
  else
    nsub subloss (unweighted_term q p).

(** Lines 343-352 for one crop of [crops_for_assign] whose assignment is
    [q]: what is added to [loss]. *)
Definition crop_loss (args : arguments) (epoch : Z) (d : step_data)
           (crop_id : nat) (q : mat) : option num :=
  match other_crops (total_crops args) crop_id with
  | None => None
  | Some vs =>
      let subloss := fold_left (subloss_step args epoch d q) vs (Fin 0) in
      Some (ndiv subloss (of_Z (total_crops args - 1)))
  end.

Fixpoint sum_crop_losses (args : arguments) (epoch : Z) (d : step_data)
         (cqs : list (nat * mat)) (loss : num) : option num :=
  match cqs with
  | [] => Some loss
  | (crop_id, q) :: rest =>
      match crop_loss args epoch d crop_id q with
      | None => None
      | Some l => sum_crop_losses args epoch d rest (nadd loss l)
      end
  end.

(** The loss of one iteration, [qs] being the assignments of the crops of
    [crops_for_assign] in their order.  With no such crop, line 353
    divides the integer [0] by [0]. *)
Definition loss_of (args : arguments) (epoch : Z) (d : step_data)
           (qs : list mat) : option num :=
  match crops_for_assign args with
  | [] => None
  | _ :: _ =>
      match sum_crop_losses args epoch d
                            (combine (crops_for_assign args) qs) (Fin 0) with
      | None => None
      | Some l => Some (ndiv l (of_nat (length (crops_for_assign args))))
      end
  end.

(** ** The learning-rate schedule (lines 191-195, 252-257 and 301-303)

    Learning rates are reals; [loader_len] is [len(train_loader)], the
    number of batches of an epoch. *)

Record optim_arguments : Type := {
  base_lr : R;
  final_lr : R;
  start_warmup : R;
  warmup_epochs : Z
}.

(** [np.linspace(start, stop, num)]: [num] points from [start] to [stop],
    a [ValueError] for a negative [num]. *)
Definition linspace (start stop : R) (num : Z) : option (list R) :=
  if (num <? 0)%Z then None
  else Some (match Z.to_nat num with
             | O => []
             | S O => [start]
             | S (S m) =>
                 map (fun i : nat =>
                        start + INR i * ((stop - start) / INR (S m)))
                     (seq 0 (S (S m)))
             end).

(** Lines 192-194 (and 253-255 with [base] doubled): the cosine part over
    [steps = len(train_loader) * (epochs - warmup_epochs)] iterations. *)
Definition cosine_lr_schedule (base final : R) (steps : Z) : list R :=
  map (fun t : nat =>
         final + 0.5 * (base - final) * (1 + cos (PI * INR t / IZR steps)))
      (seq 0 (Z.to_nat steps)).

(** Line 191. *)
Definition warmup_lr_schedule (o : optim_arguments) (loader_len : Z)
  : option (list R) :=
  linspace (start_warmup o) (base_lr o) (loader_len * warmup_epochs o).

(** Lines 195 and 257: the warm-up part followed by the cosine part for
    the base rate [base]. *)
Definition lr_schedule (o : optim_arguments) (args : arguments)
           (loader_len : Z) (base : R) : option (list R) :=
  match warmup_lr_schedule o loader_len with
  | None => None
  | Some warm =>
      Some (warm ++ cosine_lr_schedule
                      base (final_lr o)
                      (loader_len * (epochs args - warmup_epochs o)))
  end.

(** [lr_schedule[iteration]] as Python indexes: a negative index counts
    from the end, an index outside the array is an [IndexError]. *)
Definition lr_lookup (sched : list R) (iteration : Z) : option R :=
  if (iteration <? 0)%Z then
    if (iteration <? - Z.of_nat (length sched))%Z then None
    else nth_error sched (Z.to_nat (Z.of_nat (length sched) + iteration))
  else nth_error sched (Z.to_nat iteration).

(** Lines 301-303: the learning rate of iteration [it] of [epoch]. *)
Definition lr_of_iteration (sched : list R) (loader_len epoch : Z) (it : nat)
  : option R :=
  lr_lookup sched (epoch * loader_len + Z.of_nat it).

(** The loop of line 234 as far as the schedule goes: the schedule that
    [train] gets in every epoch, [doubled] being the schedule of lines
    253-257. *)
Fixpoint lr_epochs (args : arguments) (doubled : list R) (n : nat)
         (epoch : Z) (sched : list R) : list (Z * list R) :=
  match n with
  | O => []
  | S k =>
      let sched' := if Z.eqb epoch (epoch_uota_starts args) then doubled
                    else sched in
      (epoch, sched') :: lr_epochs args doubled k (epoch + 1)%Z sched'
  end.

Definition main_lr (o : optim_arguments) (args : arguments)
           (loader_len start_epoch : Z) : option (list (Z * list R)) :=
  match lr_schedule o args loader_len (base_lr o),
        lr_schedule o args loader_len (base_lr o * 2) with
  | Some sched, Some doubled =>
      Some (lr_epochs args doubled (Z.to_nat (epochs args - start_epoch))
                      start_epoch sched)
  | _, _ => None
  end.

(** ** Notions used in the statements *)

(** Real scores as a tensor. *)
Definition lift (A : list (list R)) : mat := map (map Fin) A.

(** A finite entry above zero, a finite entry not below zero, and the
    value of a finite entry. *)
Definition posfin (a : num) : Prop :=
  match a with Fin x => 0 < x | _ => False end.
Definition nnfin (a : num) : Prop :=
  match a with Fin x => 0 <= x | _ => False end.
Definition val (a : num) : R :=
  match a with Fin x => x | _ => 0 end.

(** The sum of the values of the entries. *)
Definition rsum (v : vec) : R := fold_right (fun a s => val a + s) 0 v.

(** A matrix of [K] rows of [N] entries, and one whose entries are all
    finite and above zero. *)
Definition rect (K N : nat) (Q : mat) : Prop :=
  length Q = K /\ Forall (fun row : vec => length row = N) Q.
Definition posmat (K N : nat) (Q : mat) : Prop :=
  rect K N Q /\ Forall (Forall posfin) Q.

(** The scores of one worker: at least one sample and one prototype, a
    score for every pair. *)
Definition scores_shape (A : list (list R)) : Prop :=
  A <> [] /\
  exists K : nat, (1 <= K)%nat /\ Forall (fun row => length row = K) A.

(** Every entry of every worker's matrix multiplied by [s]. *)
Definition scaled (s : R) (Qs : list mat) : list mat :=
  map (map (map (fun b : num => nmul b (Fin s)))) Qs.

(** The sum of the rows of a matrix, entry by entry. *)
Definition vsum (N : nat) (Q : mat) : vec :=
  fold_right (vmap2 nadd) (repeat (Fin 0) N) Q.

(** [W] workers between two passes of the loop, each with a positive
    [K x N] matrix. *)
Definition workers_ok (K N W : nat) (Qs : list mat) : Prop :=
  length Qs = W /\ Forall (posmat K N) Qs.

(** The marginals of lines 403-404 for [K] prototypes, [N] samples and a
    world size [W]. *)
Definition uniform_r (K : nat) : vec := ones_div K (of_nat K).
Definition uniform_c (W N : nat) : vec :=
  ones_div N (of_Z (Z.of_nat W * Z.of_nat N)).

(** An entry as an exponential leaves it when it did not underflow: finite
    and above zero, or [+inf] where it overflowed. *)
Definition pos_or_inf (a : num) : Prop := posfin a \/ a = PInf.

(** A probability that is not zero, and a finite entry that is not above
    zero. *)
Definition unitfin (a : num) : Prop :=
  match a with Fin x => 0 < x <= 1 | _ => False end.
Definition npfin (a : num) : Prop :=
  match a with Fin x => x <= 0 | _ => False end.

(** The arguments with the stability mode switched. *)
Definition with_stability (b : bool) (args : arguments) : arguments :=
  {| crops_for_assign := crops_for_assign args;
     nmb_crops := nmb_crops args;
     temperature := temperature args;
     epsilon := epsilon args;
     improve_numerical_stability := b;
     sinkhorn_iterations := sinkhorn_iterations args;
     feat_dim := feat_dim args;
     queue_length := queue_length args;
     epoch_queue_starts := epoch_queue_starts args;
     epochs := epochs args;
     batch_size := batch_size args;
     world_size := world_size args;
     epoch_uota_starts := epoch_uota_starts args |}.

(** ** Small concrete runs, for the examples below *)

(** One batch of one sample and two crops whose embeddings all have the
    single coordinate [x], scored against the single prototype [1]. *)
Definition demo_batch (x : R) : step_data :=
  {| bs := 1;
     embedding := [[Fin x]; [Fin x]];
     output := [[Fin x]; [Fin x]];
     sample_weight := [Fin 1; Fin 1];
     prototypes := [[Fin 1]] |}.

(** Two epochs on one worker, a queue of one row from epoch 0 on. *)
Definition demo_args : arguments :=
  {| crops_for_assign := [0%nat];
     nmb_crops := [2%Z];
     temperature := Fin (1 / 10);
     epsilon := Fin (1 / 20);
     improve_numerical_stability := false;
     sinkhorn_iterations := 3;
     feat_dim := 1;
     queue_length := 1;
     epoch_queue_starts := 0;
     epochs := 2;
     batch_size := 1;
     world_size := 1;
     epoch_uota_starts := 100 |}.

(** Epoch 0 sees a nonzero and then an all-zero batch, epoch 1 a nonzero
    one. *)
Definition demo_data (epoch : Z) : list step_data :=
  if Z.eqb epoch 0 then [demo_batch 1; demo_batch 0] else [demo_batch 1].

(** Four samples, three prototypes, one worker, [epsilon = 0.1], three
    passes, in either stability mode; all scores zero. *)
Definition scenario_args (stability : bool) : arguments :=
  {| crops_for_assign := [0%nat; 1%nat];
     nmb_crops := [2%Z];
     temperature := Fin (1 / 10);
     epsilon := Fin (1 / 10);
     improve_numerical_stability := stability;
     sinkhorn_iterations := 3;
     feat_dim := 128;
     queue_length := 0;
     epoch_queue_starts := 15;
     epochs := 100;
     batch_size := 4;
     world_size := 1;
     epoch_uota_starts := 100 |}.

Definition zero_scores : list (list R) :=
  [[0; 0; 0]; [0; 0; 0]; [0; 0; 0]; [0; 0; 0]].

Definition constant_matrix (rows cols : nat) (x : R) : mat :=
  repeat (repeat (Fin x) cols) rows.

(** One epoch, with a queue that would only start at epoch 15. *)
Definition late_queue_args : arguments :=
  {| crops_for_assign := [0%nat];
     nmb_crops := [2%Z];
     temperature := Fin (1 / 10);
     epsilon := Fin (1 / 20);
     improve_numerical_stability := false;
     sinkhorn_iterations := 3;
     feat_dim := 1;
     queue_length := 1;
     epoch_queue_starts := 15;
     epochs := 1;
     batch_size := 1;
     world_size := 1;
     epoch_uota_starts := 100 |}.

(** The same batch with other sample weights. *)
Definition with_weights (d : step_data) (w : vec) : step_data :=
  {| bs := bs d;
     embedding := embedding d;
     output := output d;
     sample_weight := w;
     prototypes := prototypes d |}.

(** Two samples, two crops and two prototypes, all scores zero; the
    weights of the two samples of a crop are 1/2 and 3/2. *)
Definition loss_demo_batch : step_data :=
  {| bs := 2;
     embedding := [[Fin 1]; [Fin 1]; [Fin 1]; [Fin 1]];
     output := [[Fin 0; Fin 0]; [Fin 0; Fin 0]; [Fin 0; Fin 0]; [Fin 0; Fin 0]];
     sample_weight := [Fin (1 / 2); Fin (3 / 2); Fin (1 / 2); Fin (3 / 2)];
     prototypes := [[Fin 1]; [Fin 1]] |}.

(** The uniform assignment of these two samples to the two prototypes. *)
Definition loss_demo_q : mat :=
  [[Fin (1 / 2); Fin (1 / 2)]; [Fin (1 / 2); Fin (1 / 2)]].

(** The weighting starts after epoch 5. *)
Definition loss_demo_args : arguments :=
  {| crops_for_assign := [0%nat];
     nmb_crops := [2%Z];
     temperature := Fin (1 / 10);
     epsilon := Fin (1 / 20);
     improve_numerical_stability := false;
     sinkhorn_iterations := 3;
     feat_dim := 1;
     queue_length := 0;
     epoch_queue_starts := 15;
     epochs := 10;
     batch_size := 2;
     world_size := 1;
     epoch_uota_starts := 5 |}.

(** * Properties *)

(** ** Entries *)

Lemma nadd_0_r (a : num) : nadd a (Fin 0) = a.
Proof. destruct a; simpl; trivial. f_equal. lra. Qed.

Lemma nadd_0_l (a : num) : nadd (Fin 0) a = a.
Proof. destruct a; simpl; trivial. f_equal. lra. Qed.

Lemma ndiv_fin (x y : R) : y <> 0 -> ndiv (Fin x) (Fin y) = Fin (x / y).
Proof. intros Hy. simpl. destruct (Req_dec_T y 0); [contradiction | reflexivity]. Qed.

Lemma ndiv_zero_pos (x : R) : 0 < x -> ndiv (Fin x) (Fin 0) = PInf.
Proof.
  intros Hx. simpl. destruct (Req_dec_T 0 0) as [_ | H]; [| contradiction].
  destruct (Req_dec_T x 0); [lra |].
  unfold inf_of_sign. destruct (Rlt_dec 0 x); [reflexivity | contradiction].
Qed.

Lemma nmul_1_r (a : num) : nmul a (Fin 1) = a.
Proof.
  destruct a; simpl.
  - f_equal. lra.
  - destruct (Req_dec_T 1 0); [lra |]. unfold inf_of_sign.
    destruct (Rlt_dec 0 1); [reflexivity | lra].
  - destruct (Req_dec_T 1 0); [lra |]. unfold inf_of_sign.
    destruct (Rlt_dec 0 _); [lra | reflexivity].
  - reflexivity.
Qed.

Lemma eq_zero_fin0 : eq_zero (Fin 0) = true.
Proof. simpl. destruct (Req_dec_T 0 0); [reflexivity | contradiction]. Qed.

Lemma eq_zero_fin (x : R) : x <> 0 -> eq_zero (Fin x) = false.
Proof. intros H. simpl. destruct (Req_dec_T x 0); [contradiction | reflexivity]. Qed.

(** ** [shoot_infs] *)

(** The replacement of the infinite entries by [a], the others going
    through [f]. *)
Lemma put_where_map (g : num -> bool) (f : num -> num) (a : num) (v : vec) :
  put_where (map g v) a (map f v) = map (fun x => if g x then a else f x) v.
Proof.
  unfold put_where. induction v as [| x v IH]; simpl; [reflexivity |].
  now rewrite IH.
Qed.

Lemma put_where_id (g : num -> bool) (a : num) (v : vec) :
  put_where (map g v) a v = map (fun x => if g x then a else x) v.
Proof.
  rewrite <- (map_id v) at 2. rewrite put_where_map. reflexivity.
Qed.

Lemma put_where2_map (g : num -> bool) (f : num -> num) (a : num) (m : mat) :
  put_where2 (map (map g) m) a (map (map f) m)
  = map (map (fun x => if g x then a else f x)) m.
Proof.
  unfold put_where2. induction m as [| r m IH]; simpl; [reflexivity |].
  now rewrite IH, put_where_map.
Qed.

Lemma put_where2_id (g : num -> bool) (a : num) (m : mat) :
  put_where2 (map (map g) m) a m = map (map (fun x => if g x then a else x)) m.
Proof.
  replace m with (map (map (fun x : num => x)) m) at 2.
  - apply put_where2_map.
  - rewrite <- (map_id m) at 2. apply map_ext. intros r. apply map_id.
Qed.

Lemma existsb_mask (g : num -> bool) (v : vec) :
  existsb (fun b : bool => b) (map g v) = existsb g v.
Proof. induction v as [| x v IH]; simpl; [reflexivity | now rewrite IH]. Qed.

Lemma existsb_mask2 (g : num -> bool) (m : mat) :
  existsb (existsb (fun b : bool => b)) (map (map g) m) = existsb g (concat m).
Proof.
  induction m as [| r m IH]; simpl; [reflexivity |].
  now rewrite existsb_app, IH, existsb_mask.
Qed.

Lemma existsb_false_forall {A : Type} (g : A -> bool) (l : list A) :
  existsb g l = false <-> forall x, In x l -> g x = false.
Proof.
  induction l as [| a l IH]; simpl.
  - split; [intros _ x [] | reflexivity].
  - rewrite orb_false_iff, IH. split.
    + intros [Ha Hl] x [<- | Hx]; auto.
    + intros H. split; auto.
Qed.

Lemma map_if_unchanged (g : num -> bool) (a : num) (v : vec) :
  (forall x, In x v -> g x = false) ->
  map (fun x => if g x then a else x) v = v.
Proof.
  intros H. rewrite <- (map_id v) at 2. apply map_ext_in.
  intros x Hx. now rewrite (H x Hx).
Qed.

Lemma shoot_infs1_eq (v : vec) :
  shoot_infs1 v =
  if existsb isinf v then
    match torch_max (map zero_inf v) with
    | Some m => map (fun x => if isinf x then m else x) v
    | None => map zero_inf v
    end
  else v.
Proof.
  unfold shoot_infs1. cbv zeta. rewrite existsb_mask, put_where_id.
  destruct (existsb isinf v); [| reflexivity].
  fold zero_inf. destruct (torch_max (map zero_inf v)); [| reflexivity].
  rewrite put_where_map. apply map_ext. intros x. now destruct x.
Qed.

Lemma concat_map_map {A B : Type} (f : A -> B) (m : list (list A)) :
  concat (map (map f) m) = map f (concat m).
Proof. now rewrite concat_map. Qed.

Lemma shoot_infs2_eq (m : mat) :
  shoot_infs2 m =
  if existsb isinf (concat m) then
    match torch_max (map zero_inf (concat m)) with
    | Some a => map (map (fun x => if isinf x then a else x)) m
    | None => map (map zero_inf) m
    end
  else m.
Proof.
  unfold shoot_infs2. cbv zeta. rewrite existsb_mask2, put_where2_id.
  destruct (existsb isinf (concat m)); [| reflexivity].
  fold zero_inf. rewrite concat_map_map.
  destruct (torch_max (map zero_inf (concat m))); [| reflexivity].
  rewrite put_where2_map. apply map_ext. intros r. apply map_ext.
  intros x. now destruct x.
Qed.

Lemma entries_tmap (f : num -> num) (t : tensor) :
  entries (tmap f t) = map f (entries t).
Proof. destruct t; simpl; trivial. apply concat_map_map. Qed.

(** On finite entries [torch.max] is the largest of them. *)
Lemma fold_nmax_fin (l : vec) (a : R) :
  forallb isfinite l = true ->
  exists b, fold_left nmax l (Fin a) = Fin b /\ a <= b /\
            (forall y, In (Fin y) l -> y <= b) /\
            (b = a \/ In (Fin b) l).
Proof.
  revert a. induction l as [| x l IH]; intros a Hl; simpl in *.
  - exists a. repeat split; [lra | intros y [] | now left].
  - apply andb_prop in Hl as [Hx Hl]. destruct x as [x | | |]; try discriminate.
    destruct (IH (Rmax a x) Hl) as (b & Hb & Hab & Hub & Hin).
    exists b. simpl. split; [exact Hb |].
    pose proof (Rmax_l a x). pose proof (Rmax_r a x).
    split; [lra |]. split.
    + intros y [Hy | Hy]; [injection Hy as <-; lra | auto].
    + destruct Hin as [-> | Hin]; [| right; now right].
      unfold Rmax. destruct (Rle_dec a x); [right; now left | now left].
Qed.

Lemma torch_max_fin (l : vec) :
  l <> [] -> forallb isfinite l = true ->
  exists b, torch_max l = Some (Fin b) /\ In (Fin b) l /\
            (forall y, In (Fin y) l -> y <= b).
Proof.
  intros Hne Hl. destruct l as [| x l]; [contradiction |].
  simpl in Hl. apply andb_prop in Hl as [Hx Hl].
  destruct x as [a | | |]; try discriminate.
  destruct (fold_nmax_fin l a Hl) as (b & Hb & Hab & Hub & Hin).
  exists b. simpl. split; [now rewrite Hb |]. split.
  - destruct Hin as [-> | Hin]; [now left | now right].
  - intros y [Hy | Hy]; [injection Hy as <-; lra | auto].
Qed.

Lemma zero_inf_finite (l : vec) :
  existsb isnan l = false -> forallb isfinite (map zero_inf l) = true.
Proof.
  induction l as [| x l IH]; simpl; [reflexivity |].
  intros H. apply orb_false_iff in H as [Hx Hl].
  rewrite (IH Hl). now destruct x.
Qed.

Lemma replace_inf_finite (l : vec) (b : R) :
  existsb isnan l = false ->
  forallb isfinite (map (fun x => if isinf x then Fin b else x) l) = true.
Proof.
  induction l as [| x l IH]; simpl; [reflexivity |].
  intros H. apply orb_false_iff in H as [Hx Hl].
  rewrite (IH Hl). now destruct x.
Qed.

Lemma no_inf_no_nan_finite (l : vec) :
  existsb isinf l = false -> existsb isnan l = false ->
  forallb isfinite l = true.
Proof.
  induction l as [| x l IH]; simpl; [reflexivity |].
  intros H1 H2. apply orb_false_iff in H1 as [Hx1 Hl1].
  apply orb_false_iff in H2 as [Hx2 Hl2].
  rewrite (IH Hl1 Hl2). now destruct x.
Qed.

Lemma shoot_infs_eq (t : tensor) :
  rank12 t = true ->
  shoot_infs t =
  if existsb isinf (entries t) then
    match torch_max (map zero_inf (entries t)) with
    | Some m => tmap (fun x => if isinf x then m else x) t
    | None => tmap zero_inf t
    end
  else t.
Proof.
  destruct t as [v | m | f]; simpl; intros H; try discriminate.
  - rewrite shoot_infs1_eq. destruct (existsb isinf v); [| reflexivity].
    now destruct (torch_max (map zero_inf v)).
  - rewrite shoot_infs2_eq. destruct (existsb isinf (concat m)); [| reflexivity].
    now destruct (torch_max (map zero_inf (concat m))).
Qed.

(** C4, as the code has it.  For a tensor of rank 1 or 2: without an
    infinite entry it is returned unchanged; with one, every [+inf] and
    [-inf] is replaced by the maximum [m] of the tensor taken after these
    entries were set to zero, and nothing else changes (a NaN stays); and
    if the tensor holds no NaN, [m] is the largest entry of the zeroed
    tensor and the result has finite entries only. *)
Theorem shoot_infs_replaces_infinities (t : tensor) (Hrank : rank12 t = true) :
  (existsb isinf (entries t) = false -> shoot_infs t = t) /\
  (existsb isinf (entries t) = true ->
   exists m, torch_max (map zero_inf (entries t)) = Some m /\
             shoot_infs t = tmap (fun x => if isinf x then m else x) t) /\
  (existsb isnan (entries t) = false ->
   forallb isfinite (entries (shoot_infs t)) = true /\
   forall m, torch_max (map zero_inf (entries t)) = Some m ->
             In m (map zero_inf (entries t)) /\
             exists b, m = Fin b /\
                       forall y, In (Fin y) (map zero_inf (entries t)) -> y <= b).
Proof.
  rewrite (shoot_infs_eq t Hrank). split; [| split].
  - intros ->. reflexivity.
  - intros Hinf. rewrite Hinf.
    destruct (entries t) as [| x l] eqn:E; [discriminate |].
    simpl. eexists. split; reflexivity.
  - intros Hnan.
    pose proof (zero_inf_finite _ Hnan) as Hz. split.
    + destruct (existsb isinf (entries t)) eqn:Hinf.
      * destruct (entries t) as [| x l] eqn:E; [discriminate |].
        destruct (torch_max_fin (map zero_inf (x :: l))) as (b & Hb & _);
          [discriminate | exact Hz |].
        rewrite Hb, entries_tmap, E. now apply replace_inf_finite.
      * now apply no_inf_no_nan_finite.
    + intros m Hm.
      destruct (entries t) as [| x l] eqn:E; [discriminate |].
      destruct (torch_max_fin (map zero_inf (x :: l))) as (b & Hb & Hin & Hub);
        [discriminate | exact Hz |].
      rewrite Hb in Hm. injection Hm as <-. split; [exact Hin |].
      exists b. split; [reflexivity | exact Hub].
Qed.

Lemma shoot_infs_replaces_infinities_witness :
  exists m,
    torch_max (map zero_inf (entries (T1 [Fin 1; PInf; Fin 3; NInf]))) = Some m /\
    shoot_infs (T1 [Fin 1; PInf; Fin 3; NInf])
    = tmap (fun x => if isinf x then m else x) (T1 [Fin 1; PInf; Fin 3; NInf]).
Proof.
  apply (proj1 (proj2
    (shoot_infs_replaces_infinities (T1 [Fin 1; PInf; Fin 3; NInf]) eq_refl))).
  reflexivity.
Defined.

(** C4 as stated fails on a NaN: [torch.isinf] is false on it, so it is
    not an index of [ind_inf] and the tensor comes back with its NaN. *)
Lemma shoot_infs_keeps_nan :
  rank12 (T1 [NaN]) = true /\
  shoot_infs (T1 [NaN]) = T1 [NaN] /\
  forallb isfinite (entries (shoot_infs (T1 [NaN]))) = false.
Proof. repeat split. Qed.

(** ** The queue length *)

(** C9.  With a positive [batch_size * world_size], line 230 leaves the
    largest multiple of it that is not above the configured length; a
    length of 10 with a batch size of 4 on one worker becomes 8. *)
Theorem queue_length_truncated (ql bsz ws : Z) (Hpos : (0 < bsz * ws)%Z) :
  (exists ql',
      truncate_queue_length ql bsz ws = Some ql' /\
      (bsz * ws | ql')%Z /\ (ql' <= ql)%Z /\
      (forall k, (bsz * ws | k)%Z -> (k <= ql)%Z -> (k <= ql')%Z)) /\
  truncate_queue_length 10 4 1 = Some 8%Z.
Proof.
  split; [| reflexivity].
  unfold truncate_queue_length.
  destruct (Z.eqb_spec (bsz * ws) 0) as [E | _]; [lia |].
  set (m := (bsz * ws)%Z) in *.
  exists (ql - ql mod m)%Z. split; [reflexivity |].
  pose proof (Z.mod_pos_bound ql m Hpos) as Hb.
  pose proof (Z.div_mod ql m ltac:(lia)) as Hd.
  split; [| split].
  - exists (ql / m)%Z. lia.
  - lia.
  - intros k [c Hc] Hk. subst k.
    assert (c <= ql / m)%Z by (apply Z.div_le_lower_bound; lia).
    nia.
Qed.

Lemma queue_length_truncated_witness :
  exists ql',
    truncate_queue_length 10 4 1 = Some ql' /\
    (4 * 1 | ql')%Z /\ (ql' <= 10)%Z /\
    (forall k, (4 * 1 | k)%Z -> (k <= 10)%Z -> (k <= ql')%Z).
Proof.
  apply (proj1 (queue_length_truncated 10 4 1 ltac:(lia))).
Defined.

(** ** Filling the queue *)

Lemma broadcast_cols_same (w : nat) (src : mat) :
  Forall (fun row : vec => length row = w) src ->
  broadcast_cols w src = Some src.
Proof.
  intros H. unfold broadcast_cols.
  replace (forallb _ src) with true; [reflexivity |].
  symmetry. apply forallb_forall. intros row Hrow.
  rewrite Forall_forall in H. apply Nat.eqb_eq. now apply H.
Qed.

Lemma broadcast_rows_same (n w : nat) (src : mat) :
  length src = n -> Forall (fun row : vec => length row = w) src ->
  broadcast_rows n w src = Some src.
Proof.
  intros Hn Hw. unfold broadcast_rows.
  rewrite (broadcast_cols_same w src Hw), Hn, Nat.eqb_refl. reflexivity.
Qed.

Lemma Forall_firstn {A : Type} (P : A -> Prop) (n : nat) (l : list A) :
  Forall P l -> Forall P (firstn n l).
Proof.
  intros H. rewrite <- (firstn_skipn n l) in H.
  now apply Forall_app in H as [H _].
Qed.

Lemma Forall_skipn {A : Type} (P : A -> Prop) (n : nat) (l : list A) :
  Forall P l -> Forall P (skipn n l).
Proof.
  intros H. rewrite <- (firstn_skipn n l) in H.
  now apply Forall_app in H as [_ H].
Qed.

Lemma fill_queue_shift (bs w : nat) (buf b : mat) :
  (0 < bs)%nat -> (bs <= length buf)%nat ->
  Forall (fun row : vec => length row = w) buf ->
  length b = bs -> Forall (fun row : vec => length row = w) b ->
  fill_queue bs buf b = Some (b ++ firstn (length buf - bs) buf).
Proof.
  intros Hbs Hle Hbuf Hb Hbw. unfold fill_queue.
  destruct buf as [| row0 rest] eqn:Ebuf; [simpl in Hle; lia |].
  assert (Hw0 : length row0 = w) by (now inversion Hbuf).
  rewrite <- Ebuf in *. clear Ebuf rest. cbv zeta. rewrite Hw0.
  unfold assign_from, rows_but_last.
  destruct bs as [| n]; [lia |]. set (bs := S n) in *.
  rewrite broadcast_rows_same;
    [| rewrite length_skipn, length_firstn; lia
     | now apply Forall_firstn].
  unfold assign_upto.
  assert (Hf : firstn bs (firstn bs buf ++ firstn (length buf - bs) buf)
               = firstn bs buf).
  { rewrite firstn_app, length_firstn, Nat.min_l by lia.
    rewrite Nat.sub_diag, firstn_O, app_nil_r, firstn_firstn.
    now rewrite Nat.min_id. }
  assert (Hs : skipn bs (firstn bs buf ++ firstn (length buf - bs) buf)
               = firstn (length buf - bs) buf).
  { rewrite skipn_app, length_firstn, Nat.min_l by lia.
    rewrite Nat.sub_diag. simpl skipn at 2.
    rewrite skipn_all2; [reflexivity |]. rewrite length_firstn. lia. }
  rewrite Hf, Hs.
  rewrite broadcast_rows_same;
    [reflexivity | rewrite length_firstn; lia | exact Hbw].
Qed.

Lemma fill_many_shift (bs w : nat) (batches : list mat) :
  (0 < bs)%nat ->
  Forall (fun b : mat =>
            length b = bs /\ Forall (fun row : vec => length row = w) b)
         batches ->
  forall buf : mat,
    Forall (fun row : vec => length row = w) buf ->
    (length batches * bs <= length buf)%nat ->
    fill_many bs buf batches
    = Some (concat (rev batches)
            ++ firstn (length buf - length batches * bs) buf).
Proof.
  intros Hbs Hall.
  induction Hall as [| b rest [Hb Hbw] Hrest IH]; intros buf Hbuf Hle.
  - simpl. now rewrite Nat.sub_0_r, firstn_all.
  - simpl in Hle. simpl fill_many.
    rewrite (fill_queue_shift bs w) by (try assumption; nia).
    assert (Hlen : length (b ++ firstn (length buf - bs) buf) = length buf).
    { rewrite length_app, length_firstn, Nat.min_l by lia. nia. }
    rewrite IH;
      [| apply Forall_app; split; [exact Hbw | now apply Forall_firstn]
       | rewrite Hlen; nia].
    rewrite Hlen. f_equal.
    simpl rev. rewrite concat_app. simpl concat. rewrite app_nil_r.
    rewrite <- app_assoc. f_equal.
    rewrite firstn_app, Hb.
    rewrite (firstn_all2 (n := length buf - length rest * bs) b) by nia.
    f_equal. rewrite firstn_firstn. f_equal. simpl. nia.
Qed.

Lemma broadcast_cols_refused (w : nat) (src : mat) (row : vec) :
  In row src -> length row <> w -> length row <> 1%nat ->
  broadcast_cols w src = None.
Proof.
  intros Hin Hw H1. unfold broadcast_cols.
  assert (Hf : forall k : nat,
             length row <> k ->
             forallb (fun r : vec => Nat.eqb (length r) k) src = false).
  { intros k Hk. destruct (forallb _ src) eqn:E; [| reflexivity].
    rewrite forallb_forall in E. apply E, Nat.eqb_eq in Hin. contradiction. }
  now rewrite (Hf w Hw), (Hf 1%nat H1).
Qed.

(** C8.  A buffer of [k] batches ([k >= 1]) of [bs] rows of [w] entries
    takes a batch of [bs] rows of [w] entries at its front, keeps its
    first [capacity - bs] rows behind it and loses its last [bs] rows;
    after the batches [b1, ..., bn] with [n <= k] the buffer starts with
    [bn, ..., b1] and ends with what is left of its first content.  A
    batch with a row of another width than [w] and 1 is refused. *)
Theorem queue_push_fifo (bs k w : nat) (buf b : mat) (batches : list mat)
        (Hbs : (0 < bs)%nat) (Hk : (0 < k)%nat)
        (Hcap : rect (k * bs) w buf)
        (Hb : rect bs w b)
        (Hall : Forall (rect bs w) batches)
        (Hn : (length batches <= k)%nat) :
  fill_queue bs buf b = Some (b ++ firstn (length buf - bs) buf) /\
  rect (k * bs) w (b ++ firstn (length buf - bs) buf) /\
  fill_many bs buf batches
  = Some (concat (rev batches)
          ++ firstn (length buf - length batches * bs) buf) /\
  (forall (b' : mat) (row : vec),
      In row b' -> length row <> w -> length row <> 1%nat ->
      fill_queue bs buf b' = None).
Proof.
  destruct Hcap as [Hcap Hbufw]. destruct Hb as [Hb Hbw].
  split; [| split; [| split]].
  - apply (fill_queue_shift bs w); try assumption. nia.
  - split.
    + rewrite length_app, length_firstn, Nat.min_l by lia. nia.
    + apply Forall_app. split; [exact Hbw | now apply Forall_firstn].
  - apply (fill_many_shift bs w); try assumption. nia.
  - intros b' row Hin Hw H1. unfold fill_queue.
    destruct buf as [| row0 rest] eqn:Ebuf; [reflexivity |].
    assert (Hw0 : length row0 = w) by (now inversion Hbufw).
    rewrite <- Ebuf in *. cbv zeta. rewrite Hw0.
    destruct (assign_from bs w buf (rows_but_last bs buf)); [| reflexivity].
    unfold assign_upto, broadcast_rows.
    now rewrite (broadcast_cols_refused w b' row Hin Hw H1).
Qed.

Lemma queue_push_fifo_witness :
  fill_queue 1 [[Fin 0; Fin 0]; [Fin 0; Fin 0]; [Fin 0; Fin 0]]
             [[Fin 3; Fin 4]]
  = Some [[Fin 3; Fin 4]; [Fin 0; Fin 0]; [Fin 0; Fin 0]] /\
  fill_many 1 [[Fin 0; Fin 0]; [Fin 0; Fin 0]; [Fin 0; Fin 0]]
            [[[Fin 1; Fin 5]]; [[Fin 2; Fin 6]]]
  = Some [[Fin 2; Fin 6]; [Fin 1; Fin 5]; [Fin 0; Fin 0]] /\
  fill_queue 1 [[Fin 0; Fin 0]; [Fin 0; Fin 0]; [Fin 0; Fin 0]]
             [[Fin 7; Fin 8; Fin 9]]
  = None.
Proof.
  pose proof (queue_push_fifo
                1 3 2 [[Fin 0; Fin 0]; [Fin 0; Fin 0]; [Fin 0; Fin 0]]
                [[Fin 3; Fin 4]]
                [[[Fin 1; Fin 5]]; [[Fin 2; Fin 6]]]
                ltac:(lia) ltac:(lia)
                ltac:(split; [reflexivity | repeat constructor])
                ltac:(split; [reflexivity | repeat constructor])
                ltac:(repeat constructor) ltac:(simpl; lia))
    as (H1 & _ & H2 & H3).
  split; [exact H1 | split; [exact H2 |]].
  apply (H3 _ [Fin 7; Fin 8; Fin 9]); [now left | simpl; lia | simpl; lia].
Defined.

(** ** The warm latch within one call of [train] *)

Lemma queue_step_latch (d : step_data) (st st' : queue_state)
      (ic : nat * nat) (tr : crop_trace) :
  queue_step d st ic = Some (st', tr) ->
  used_queue tr = latched st' /\ (latched st = true -> latched st' = true).
Proof.
  unfold queue_step, latched. destruct ic as [i c].
  destruct st as [use [qu |]]; simpl.
  - destruct (nth_error qu i) as [buf |]; [| discriminate].
    destruct use; simpl.
    + destruct (fill_queue _ buf _); [| discriminate].
      intros H. injection H as <- <-. simpl. auto.
    + destruct (last_row_nonzero buf) as [warm |]; [| discriminate].
      destruct (fill_queue _ buf _); [| discriminate].
      intros H. injection H as <- <-. simpl.
      rewrite andb_true_r. split; [reflexivity | discriminate].
  - intros H. injection H as <- <-. simpl.
    rewrite andb_false_r. split; [reflexivity | discriminate].
Qed.

(** A list of answers that never goes back from warm to cold. *)
Lemma latch_append (a1 b1 a2 b2 : nat) :
  (b1 <> 0%nat -> a2 = 0%nat) ->
  exists a b,
    (repeat false a1 ++ repeat true b1) ++ (repeat false a2 ++ repeat true b2)
    = repeat false a ++ repeat true b /\
    (a1 = 0%nat -> a2 = 0%nat -> a = 0%nat) /\
    (b = 0%nat -> b1 = 0%nat /\ b2 = 0%nat).
Proof.
  intros H. destruct b1 as [| b1].
  - exists (a1 + a2)%nat, b2. simpl. rewrite app_nil_r, app_assoc, repeat_app.
    repeat split; lia.
  - rewrite (H ltac:(discriminate)). exists a1, (S b1 + b2)%nat.
    simpl repeat at 3. simpl app at 3. rewrite <- app_assoc, <- repeat_app.
    repeat split; lia.
Qed.

Lemma queue_crops_latch (d : step_data) (ics : list (nat * nat)) :
  forall (st st' : queue_state) (trs : list crop_trace),
    queue_crops d st ics = Some (st', trs) ->
    exists a b,
      map used_queue trs = repeat false a ++ repeat true b /\
      (latched st = true -> a = 0%nat) /\
      (b <> 0%nat -> latched st' = true) /\
      (latched st = true -> latched st' = true).
Proof.
  induction ics as [| ic rest IH]; intros st st' trs H; simpl in H.
  - injection H as <- <-. exists 0%nat, 0%nat. simpl.
    repeat split; auto; try (intros Hb; now contradiction Hb).
  - destruct (queue_step d st ic) as [[st1 tr] |] eqn:E; [| discriminate].
    destruct (queue_crops d st1 rest) as [[st2 trs2] |] eqn:E2; [| discriminate].
    injection H as <- <-.
    destruct (queue_step_latch _ _ _ _ _ E) as [Hu Hk].
    destruct (IH _ _ _ E2) as (a & b & Hf & Ha & Hb & Hkeep).
    simpl. rewrite Hf, Hu. destruct (latched st1) eqn:L.
    + rewrite (Ha eq_refl). exists 0%nat, (S b). simpl.
      repeat split; auto.
    + exists (S a), b. simpl.
      repeat split; auto; intros Hs; discriminate (Hk Hs).
Qed.

Lemma queue_iters_latch (args : arguments) (batches : list step_data) :
  forall (st st' : queue_state) (trss : list (list crop_trace)),
    queue_iters args st batches = Some (st', trss) ->
    exists a b,
      warm_flags trss = repeat false a ++ repeat true b /\
      (latched st = true -> a = 0%nat) /\
      (b <> 0%nat -> latched st' = true) /\
      (latched st = true -> latched st' = true).
Proof.
  unfold warm_flags.
  induction batches as [| d rest IH]; intros st st' trss H; simpl in H.
  - injection H as <- <-. exists 0%nat, 0%nat. simpl.
    repeat split; auto; try (intros Hb; now contradiction Hb).
  - destruct (queue_crops d st _) as [[st1 trs] |] eqn:E; [| discriminate].
    destruct (queue_iters args st1 rest) as [[st2 trss2] |] eqn:E2;
      [| discriminate].
    injection H as <- <-.
    destruct (queue_crops_latch _ _ _ _ _ E) as (a1 & b1 & Hf1 & Ha1 & Hb1 & Hk1).
    destruct (IH _ _ _ E2) as (a2 & b2 & Hf2 & Ha2 & Hb2 & Hk2).
    simpl concat. rewrite map_app, Hf1, Hf2.
    destruct (latch_append a1 b1 a2 b2) as (a & b & Hab & Hz & Hbz); [auto |].
    exists a, b. split; [exact Hab |]. repeat split.
    + intros Hs. apply Hz; auto.
    + intros Hb. destruct (Nat.eq_dec b2 0) as [-> | Hb2']; [| auto].
      apply Hk2. apply Hb1. intros ->.
      destruct (Nat.eq_dec b 0) as [-> | Hne]; [contradiction |].
      clear - Hab Hne. rewrite !app_nil_r, <- repeat_app in Hab.
      destruct b; [contradiction |].
      assert (In true (repeat false (a1 + a2))) as Hin.
      { rewrite Hab. apply in_or_app. right. now left. }
      apply repeat_spec in Hin. discriminate.
    + auto.
Qed.

(** The first pass of a call of [train] decides by the buffer alone. *)
Lemma train_first_pass (args : arguments) (d : step_data)
      (rest : list step_data) (qu : queue_t) (c : nat) (cs : list nat)
      (trss : list (list crop_trace)) (qu' : option queue_t) :
  crops_for_assign args = c :: cs ->
  train args (d :: rest) (Some qu) = Some (trss, qu') ->
  exists buf tr trs trss',
    nth_error qu 0 = Some buf /\ trss = (tr :: trs) :: trss' /\
    last_row_nonzero buf = Some (used_queue tr).
Proof.
  intros Hc H. unfold train in H. cbn [queue_iters] in H.
  rewrite Hc in H. cbn [enumerate length seq combine queue_crops] in H.
  destruct (queue_step d _ (0%nat, c)) as [[st1 tr] |] eqn:E; [| discriminate].
  destruct (queue_crops d st1 _) as [[st2 trs] |]; [| discriminate].
  destruct (queue_iters args st2 rest) as [[st3 trss3] |]; [| discriminate].
  injection H as <- <-.
  unfold queue_step in E. cbn [queue use_the_queue] in E.
  destruct (nth_error qu 0) as [buf |]; [| discriminate].
  destruct (last_row_nonzero buf) as [warm |] eqn:Hw; [| discriminate].
  destruct (fill_queue _ buf _); [| discriminate].
  injection E as <- <-.
  exists buf. eexists. exists trs, trss3. repeat split. exact Hw.
Qed.

(** Decides the comparisons of real constants that a concrete run meets. *)
Ltac r_decide :=
  repeat match goal with
         | |- context [Req_dec_T ?a ?b] =>
             destruct (Req_dec_T a b); [try (exfalso; lra) | try (exfalso; lra)]
         | |- context [Rlt_dec ?a ?b] =>
             destruct (Rlt_dec a b); [try (exfalso; lra) | try (exfalso; lra)]
         end.

(** Runs the model on concrete data, the reals left as they are. *)
Ltac run_concrete :=
  cbv - [Rplus Rmult Rminus Rdiv Rinv Ropp IZR INR Req_dec_T Rlt_dec Rle_dec
         exp ln Rmax].

Lemma nth_repeat_flags (a b j : nat) :
  nth j (repeat false a ++ repeat true b) false = true <->
  (a <= j < a + b)%nat.
Proof.
  destruct (Nat.lt_ge_cases j a) as [Hlt | Hge].
  - rewrite app_nth1 by (now rewrite repeat_length).
    rewrite nth_repeat. split; [discriminate | lia].
  - rewrite app_nth2 by (now rewrite repeat_length).
    rewrite repeat_length.
    destruct (Nat.lt_ge_cases (j - a) b) as [Hlt | Hge'].
    + rewrite nth_repeat_lt by exact Hlt. split; [lia | reflexivity].
    + rewrite nth_overflow by (now rewrite repeat_length).
      split; [discriminate | lia].
Qed.

(** C3, as the code has it.  Within one call of [train], that is within
    one epoch, a pass that treats the queue as warm is followed by warm
    passes only, whatever the later batches hold.  The flag is local to
    [train] and starts at [False] in every epoch: the first pass of an
    epoch is warm exactly when the last row of its buffer has a nonzero
    entry. *)
Theorem warm_latch_within_epoch (args : arguments) (batches : list step_data)
        (qu qu' : option queue_t) (trss : list (list crop_trace))
        (Hrun : train args batches qu = Some (trss, qu')) :
  (forall j k : nat,
      (j <= k < length (warm_flags trss))%nat ->
      nth j (warm_flags trss) false = true ->
      nth k (warm_flags trss) false = true) /\
  (forall d rest q c cs,
      batches = d :: rest -> qu = Some q -> crops_for_assign args = c :: cs ->
      exists buf tr trs trss',
        nth_error q 0 = Some buf /\ trss = (tr :: trs) :: trss' /\
        last_row_nonzero buf = Some (used_queue tr)).
Proof.
  split.
  - unfold train in Hrun.
    destruct (queue_iters args _ batches) as [[st tr] |] eqn:E; [| discriminate].
    injection Hrun as <- <-.
    destruct (queue_iters_latch _ _ _ _ _ E) as (a & b & Hf & _).
    rewrite Hf. intros j k Hjk Hj.
    rewrite length_app, !repeat_length in Hjk.
    apply nth_repeat_flags in Hj. apply nth_repeat_flags. lia.
  - intros d rest q c cs -> -> Hc. eapply train_first_pass; eauto.
Qed.

Lemma warm_latch_within_epoch_witness :
  exists trss qu',
    train demo_args (demo_data 0) (Some [[[Fin 0]]]) = Some (trss, qu') /\
    warm_flags trss = [false; true] /\
    (forall j k : nat,
        (j <= k < length (warm_flags trss))%nat ->
        nth j (warm_flags trss) false = true ->
        nth k (warm_flags trss) false = true).
Proof.
  assert (Hrun : train demo_args (demo_data 0) (Some [[[Fin 0]]])
                 = Some ([[{| used_queue := false; out_scores := [[Fin 1]] |}];
                          [{| used_queue := true;
                              out_scores := [[Fin (1 * 1 + 0)]; [Fin 0]] |}]],
                         Some [[[Fin 0]]])).
  { unfold train, demo_data, demo_args, demo_batch. cbn.
    r_decide. cbn. r_decide. reflexivity. }
  eexists. eexists. split; [exact Hrun |]. split; [reflexivity |].
  exact (proj1 (warm_latch_within_epoch _ _ _ _ _ Hrun)).
Defined.

(** C3 as stated fails across epochs.  On one worker with a queue of one
    row, the second batch of epoch 0 finds the last row nonzero and sets
    the latch; that batch is all-zero and fills the row with zeros; the
    first pass of epoch 1 starts from [use_the_queue = False], finds the
    row all-zero and treats the queue as cold. *)
Lemma warm_latch_reset_at_epoch_start :
  exists tr0 tr1,
    main demo_args None 0 demo_data = Some [tr0; tr1] /\
    epoch_no tr0 = 0%Z /\ warm_flags (steps tr0) = [false; true] /\
    epoch_no tr1 = 1%Z /\ warm_flags (steps tr1) = [false].
Proof.
  eexists. eexists.
  run_concrete. r_decide. run_concrete. r_decide. run_concrete. r_decide.
  repeat split.
Qed.

(** ** The queue in [main] *)

Lemma queue_step_keeps_queue (d : step_data) (st st' : queue_state)
      (ic : nat * nat) (tr : crop_trace) :
  queue_step d st ic = Some (st', tr) ->
  queue st <> None -> queue st' <> None.
Proof.
  unfold queue_step. destruct ic as [i c].
  destruct st as [use [qu |]]; simpl; [| intros _ H; now contradiction H].
  destruct (nth_error qu i) as [buf |]; [| discriminate].
  destruct (if use then Some true else last_row_nonzero buf); [| discriminate].
  destruct (fill_queue _ buf _); [| discriminate].
  intros H _. injection H as <- <-. discriminate.
Qed.

Lemma queue_crops_keeps_queue (d : step_data) (ics : list (nat * nat)) :
  forall (st st' : queue_state) (trs : list crop_trace),
    queue_crops d st ics = Some (st', trs) ->
    queue st <> None -> queue st' <> None.
Proof.
  induction ics as [| ic rest IH]; intros st st' trs H Hq; simpl in H.
  - now injection H as <- <-.
  - destruct (queue_step d st ic) as [[st1 tr] |] eqn:E; [| discriminate].
    destruct (queue_crops d st1 rest) as [[st2 trs2] |] eqn:E2; [| discriminate].
    injection H as <- <-.
    eapply IH; [exact E2 |]. eapply queue_step_keeps_queue; eauto.
Qed.

Lemma queue_iters_keeps_queue (args : arguments) (batches : list step_data) :
  forall (st st' : queue_state) (trss : list (list crop_trace)),
    queue_iters args st batches = Some (st', trss) ->
    queue st <> None -> queue st' <> None.
Proof.
  induction batches as [| d rest IH]; intros st st' trss H Hq; simpl in H.
  - now injection H as <- <-.
  - destruct (queue_crops d st _) as [[st1 trs] |] eqn:E; [| discriminate].
    destruct (queue_iters args st1 rest) as [[st2 trss2] |] eqn:E2;
      [| discriminate].
    injection H as <- <-.
    eapply IH; [exact E2 |]. eapply queue_crops_keeps_queue; eauto.
Qed.

Lemma start_queue_loaded (args : arguments) (ql epoch : Z) (q : queue_t) :
  start_queue args ql epoch (Some q) = Some (Some q).
Proof. unfold start_queue. simpl is_none. now rewrite andb_false_r. Qed.

Lemma main_epochs_keep_queue (args : arguments) (ql : Z)
      (data : Z -> list step_data) (n : nat) :
  forall (epoch : Z) (q : queue_t) (trs : list epoch_trace),
    main_epochs args ql data n epoch (Some q) = Some trs ->
    Forall (fun t : epoch_trace => queue_in t <> None) trs.
Proof.
  induction n as [| k IH]; intros epoch q trs H; cbn [main_epochs] in H.
  - injection H as <-. constructor.
  - rewrite start_queue_loaded in H.
    destruct (train args (data epoch) (Some q)) as [[trss qu2] |] eqn:E;
      [| discriminate].
    destruct (main_epochs args ql data k (epoch + 1)%Z qu2) as [rest |] eqn:E2;
      [| discriminate].
    injection H as <-. constructor; [discriminate |].
    unfold train in E.
    destruct (queue_iters args _ (data epoch)) as [[st trss'] |] eqn:E3;
      [| discriminate].
    injection E as <- <-.
    assert (Hq : queue st <> None).
    { eapply queue_iters_keeps_queue; [exact E3 | discriminate]. }
    destruct (queue st) as [q2 |]; [| now contradiction Hq].
    eapply IH; exact E2.
Qed.

Lemma zeros_all_zero (g : nat) (cap dim : Z) (z : queue_t) :
  zeros g cap dim = Some z ->
  Forall (Forall (Forall (fun x : num => x = Fin 0))) z.
Proof.
  unfold zeros. destruct ((cap <? 0)%Z || (dim <? 0)%Z); [discriminate |].
  intros H. injection H as <-.
  repeat (apply Forall_forall; intros ? ->%repeat_spec). reflexivity.
Qed.

(** C10.  A queue read from the file of this rank goes through lines
    244-249 untouched at every epoch, so [train] gets it in the first epoch
    of the run and in every later one, whatever [epoch_queue_starts] is, and
    the first pass uses it as soon as its last row has a nonzero entry.
    Without a file there is no queue before [epoch_queue_starts], and the
    queue that is then made is all-zero. *)
Theorem loaded_queue_skips_activation_epoch
        (args : arguments) (q : queue_t) (start_epoch : Z)
        (data : Z -> list step_data) (tr : epoch_trace)
        (rest : list epoch_trace)
        (Hrun : main args (Some q) start_epoch data = Some (tr :: rest)) :
  (forall ql epoch, start_queue args ql epoch (Some q) = Some (Some q)) /\
  (forall ql epoch,
      (epoch < epoch_queue_starts args)%Z ->
      start_queue args ql epoch None = Some None) /\
  (forall ql epoch z,
      start_queue args ql epoch None = Some (Some z) ->
      (0 < ql)%Z /\ (epoch_queue_starts args <= epoch)%Z /\
      Forall (Forall (Forall (fun x : num => x = Fin 0))) z) /\
  epoch_no tr = start_epoch /\ queue_in tr = Some q /\
  Forall (fun t : epoch_trace => queue_in t <> None) (tr :: rest) /\
  (forall d ds c cs,
      data start_epoch = d :: ds -> crops_for_assign args = c :: cs ->
      exists buf t ts tss,
        nth_error q 0 = Some buf /\ steps tr = (t :: ts) :: tss /\
        last_row_nonzero buf = Some (used_queue t)).
Proof.
  split; [intros ql epoch; apply start_queue_loaded |]. split; [| split].
  - intros ql epoch He. unfold start_queue.
    destruct (Z.leb_spec (epoch_queue_starts args) epoch); [lia |].
    now rewrite andb_false_r.
  - intros ql epoch z. unfold start_queue.
    destruct (Z.ltb_spec 0 ql); [| discriminate].
    destruct (Z.leb_spec (epoch_queue_starts args) epoch); [| discriminate].
    simpl. destruct (Z.eqb (world_size args) 0); [discriminate |].
    destruct (zeros _ _ _) as [z' |] eqn:E; [| discriminate].
    intros Hz. injection Hz as <-.
    repeat split; try assumption. eapply zeros_all_zero; eauto.
  - unfold main in Hrun.
    destruct (truncate_queue_length _ _ _) as [ql |]; [| discriminate].
    pose proof (main_epochs_keep_queue _ _ _ _ _ _ _ Hrun) as Hall.
    destruct (Z.to_nat (epochs args - start_epoch)) as [| k];
      [discriminate |].
    cbn [main_epochs] in Hrun. rewrite start_queue_loaded in Hrun.
    destruct (train args (data start_epoch) (Some q)) as [[trss qu2] |] eqn:E;
      [| discriminate].
    destruct (main_epochs args ql data k _ qu2) as [rest' |]; [| discriminate].
    injection Hrun as <- <-. simpl.
    repeat split; try assumption.
    intros d ds c cs Hd Hc. rewrite Hd in E.
    destruct (train_first_pass _ _ _ _ _ _ _ _ Hc E)
      as (buf & t & ts & tss & H1 & H2 & H3).
    exists buf, t, ts, tss. auto.
Qed.

Lemma loaded_queue_skips_activation_epoch_witness :
  exists tr,
    main late_queue_args (Some [[[Fin 5]]]) 0 (fun _ => [demo_batch 1])
    = Some [tr] /\
    (0 < epoch_queue_starts late_queue_args)%Z /\
    epoch_no tr = 0%Z /\ queue_in tr = Some [[[Fin 5]]] /\
    warm_flags (steps tr) = [true].
Proof.
  assert (Hrun : main late_queue_args (Some [[[Fin 5]]]) 0
                      (fun _ => [demo_batch 1])
                 = Some [{| epoch_no := 0; queue_in := Some [[[Fin 5]]];
                            steps := [[{| used_queue := true;
                                          out_scores := [[Fin (5 * 1 + 0)];
                                                         [Fin 1]] |}]] |}]).
  { run_concrete. r_decide. reflexivity. }
  eexists. split; [exact Hrun |].
  destruct (loaded_queue_skips_activation_epoch _ _ _ _ _ _ Hrun)
    as (_ & _ & _ & He & Hq & _).
  split; [reflexivity |]. split; [exact He |]. split; [exact Hq |].
  reflexivity.
Defined.

(** ** The factors of one pass of the loop *)

(** Runs the engine on concrete tensors, deciding the comparisons on the
    way. *)
Ltac pos_to_nat :=
  repeat match goal with
         | |- context [Pos.to_nat ?p] =>
             let n := eval compute in (Pos.to_nat p) in
             change (Pos.to_nat p) with n
         end.

Ltac run_num :=
  repeat (progress (cbn; pos_to_nat;
                    unfold inf_of_sign, row_factors, col_factors, shoot_infs1,
                      shoot_infs2, vmap2, sum_dim0, sum_dim1, sum_all,
                      scale_rows, scale_cols, div_cols, div_scalar;
                    r_decide)).

(** Two concrete tensors are equal when their entries are. *)
Ltac entries_eq :=
  repeat match goal with
         | |- Fin _ = Fin _ => apply (f_equal Fin); lra
         | |- cons _ _ = cons _ _ => f_equal
         | |- Some _ = Some _ => f_equal
         end;
  try reflexivity.

Lemma nmax_not_inf (a b : num) :
  isinf a = false -> isinf b = false -> isinf (nmax a b) = false.
Proof. destruct a, b; simpl; trivial. Qed.

Lemma fold_nmax_not_inf (l : vec) :
  forall a, isinf a = false -> existsb isinf l = false ->
            isinf (fold_left nmax l a) = false.
Proof.
  induction l as [| x l IH]; intros a Ha Hl; simpl in *; [exact Ha |].
  apply orb_false_iff in Hl as [Hx Hl]. apply IH; [| exact Hl].
  now apply nmax_not_inf.
Qed.

Lemma zero_inf_not_inf (l : vec) : existsb isinf (map zero_inf l) = false.
Proof.
  induction l as [| x l IH]; simpl; [reflexivity |].
  rewrite IH. now destruct x.
Qed.

Lemma shoot_infs1_not_inf (v : vec) : existsb isinf (shoot_infs1 v) = false.
Proof.
  rewrite shoot_infs1_eq. destruct (existsb isinf v) eqn:E; [| exact E].
  pose proof (zero_inf_not_inf v) as Hz.
  destruct (map zero_inf v) as [| x l] eqn:Ez.
  - destruct v; [discriminate E | discriminate Ez].
  - simpl torch_max. simpl in Hz. apply orb_false_iff in Hz as [Hx Hl].
    pose proof (fold_nmax_not_inf l x Hx Hl) as Hm.
    clear - Hm. induction v as [| y v IH]; simpl; [reflexivity |].
    rewrite IH. destruct y; simpl; trivial; now rewrite Hm.
Qed.

Lemma vmap2_nth_error (f : num -> num -> num) (a b : vec) (j : nat) (x y : num) :
  nth_error a j = Some x -> nth_error b j = Some y ->
  nth_error (vmap2 f a b) j = Some (f x y).
Proof.
  unfold vmap2. revert b j. induction a as [| a0 a IH]; intros b j Ha Hb.
  - destruct j; discriminate.
  - destruct b as [| b0 b]; [destruct j; discriminate |].
    destruct j as [| j]; simpl in *.
    + injection Ha as <-. injection Hb as <-. reflexivity.
    + now apply IH.
Qed.

(** C5, as the code has it.  In a pass of the loop the factors that scale
    the rows are [r / u] after [shoot_infs], and none of them is infinite;
    the factors that scale the columns are [c / colSums] as the division
    leaves them, and a column sum that is exactly zero under a positive
    [c] gives the factor [+inf]. *)
Theorem row_factors_sanitized_col_factors_not
        (r u c : vec) (Q : mat) :
  sinkhorn_local u ((r, c), Q)
  = scale_cols (col_factors c (scale_rows (row_factors r u) Q))
               (scale_rows (row_factors r u) Q) /\
  existsb isinf (row_factors r u) = false /\
  (forall (Q1 : mat) (j : nat) (x : R),
      nth_error c j = Some (Fin x) -> 0 < x ->
      nth_error (sum_dim0 Q1) j = Some (Fin 0) ->
      nth_error (col_factors c Q1) j = Some PInf).
Proof.
  split; [reflexivity |]. split; [apply shoot_infs1_not_inf |].
  intros Q1 j x Hc Hx Hs. unfold col_factors.
  rewrite (vmap2_nth_error ndiv _ _ j _ _ Hc Hs).
  now rewrite ndiv_zero_pos.
Qed.

Lemma row_factors_sanitized_col_factors_not_witness :
  existsb isinf (row_factors [Fin 1] [Fin 0]) = false /\
  nth_error (col_factors [Fin (1 / 2); Fin (1 / 2)] [[Fin 1; Fin 0]]) 1
  = Some PInf.
Proof.
  pose proof (row_factors_sanitized_col_factors_not
                [Fin 1] [Fin 0] [Fin (1 / 2); Fin (1 / 2)] [[Fin 1; Fin 0]])
    as (_ & Hrow & Hcol).
  split; [exact Hrow |].
  apply (Hcol [[Fin 1; Fin 0]] 1%nat (1 / 2)); [reflexivity | lra |].
  cbn. entries_eq.
Defined.

(** C5 as stated fails for the columns.  One worker, one prototype and two
    samples, the second with the entry 0: in the first pass the second
    column sums to zero, its factor is [c / 0 = +inf], it is multiplied
    into [Q] as it is and leaves a NaN there. *)
Lemma col_factors_keep_infinity :
  exists Q0 Q1,
    sinkhorn_normalize [[[Fin 1; Fin 0]]] = [Q0] /\
    Q1 = scale_rows (row_factors (marginal_r Q0) (sum_dim1 Q0)) Q0 /\
    nth_error (sum_dim0 Q1) 1 = Some (Fin 0) /\
    col_factors (marginal_c 1 Q0) Q1 = [Fin (1 / 2); PInf] /\
    sinkhorn_before_return 1 [[[Fin 1; Fin 0]]] 1 = [[[Fin (1 / 2); NaN]]].
Proof.
  exists [[Fin 1; Fin 0]], [[Fin 1; Fin 0]].
  assert (Hn : sinkhorn_normalize [[[Fin 1; Fin 0]]] = [[[Fin 1; Fin 0]]]).
  { unfold sinkhorn_normalize. run_num. entries_eq. }
  split; [exact Hn |]. split.
  { unfold row_factors. run_num. entries_eq. }
  split.
  { run_num. entries_eq. }
  split.
  { unfold col_factors. run_num. entries_eq. }
  unfold sinkhorn_before_return. rewrite Hn.
  run_num. entries_eq.
Qed.

(** ** The loss on either side of [epoch_uota_starts] *)

Lemma fold_left_ext_in {A B : Type} (f g : A -> B -> A) (l : list B) :
  (forall a b, In b l -> f a b = g a b) ->
  forall a, fold_left f l a = fold_left g l a.
Proof.
  induction l as [| b l IH]; intros H a; simpl; [reflexivity |].
  rewrite (H a b (or_introl eq_refl)). apply IH.
  intros a' b' Hb'. apply H. now right.
Qed.

Lemma firstn_repeat {A : Type} (x : A) (n m : nat) :
  firstn n (repeat x m) = repeat x (Nat.min n m).
Proof.
  revert m. induction n as [| n IH]; intros [| m]; simpl; trivial.
  now rewrite IH.
Qed.

Lemma skipn_repeat {A : Type} (x : A) (n m : nat) :
  skipn n (repeat x m) = repeat x (m - n).
Proof.
  revert m. induction n as [| n IH]; intros [| m]; simpl; trivial.
Qed.

Lemma chunk_repeat {A : Type} (x : A) (b v t : nat) :
  (v < t)%nat -> chunk b v (repeat x (b * t)) = repeat x b.
Proof.
  intros H. unfold chunk. rewrite skipn_repeat, firstn_repeat.
  f_equal. nia.
Qed.

Lemma vmap2_nmul_ones (l : vec) (n : nat) :
  (length l <= n)%nat -> vmap2 nmul l (repeat (Fin 1) n) = l.
Proof.
  unfold vmap2. revert n. induction l as [| a l IH]; intros n H; [reflexivity |].
  destruct n as [| n]; simpl in *; [lia |].
  rewrite nmul_1_r. f_equal. apply IH. lia.
Qed.

Lemma length_chunk_le {A : Type} (b v : nat) (l : list A) :
  (length (chunk b v l) <= b)%nat.
Proof. unfold chunk. rewrite length_firstn. lia. Qed.

Lemma length_ce_rows_le (q p : mat) : (length (ce_rows q p) <= length p)%nat.
Proof.
  unfold ce_rows. rewrite length_map, length_combine. lia.
Qed.

Lemma length_predicted_le (args : arguments) (d : step_data) (v : nat) :
  (length (predicted args d v) <= bs d)%nat.
Proof.
  unfold predicted, softmax, div_scalar. rewrite !length_map.
  apply length_chunk_le.
Qed.

Lemma other_crops_lt (total : Z) (c : nat) (vs : list nat) :
  other_crops total c = Some vs ->
  forall v, In v vs -> (v < Z.to_nat total)%nat.
Proof.
  unfold other_crops. destruct (Nat.ltb c (Z.to_nat total)); [| discriminate].
  intros H v Hv. injection H as <-.
  apply filter_In in Hv as [Hv _]. apply in_seq in Hv. lia.
Qed.

Lemma subloss_step_before (args : arguments) (epoch : Z) (d : step_data)
      (q : mat) (s : num) (v : nat) :
  (epoch + 1 <= epoch_uota_starts args)%Z ->
  subloss_step args epoch d q s v
  = nsub s (unweighted_term q (predicted args d v)).
Proof.
  intros H. unfold subloss_step. cbv zeta.
  destruct (Z.ltb_spec (epoch_uota_starts args) (epoch + 1)); [lia | reflexivity].
Qed.

Lemma subloss_step_after (args : arguments) (epoch : Z) (d : step_data)
      (q : mat) (s : num) (v : nat) :
  (epoch_uota_starts args < epoch + 1)%Z ->
  subloss_step args epoch d q s v
  = nsub s (weighted_term q (predicted args d v)
                          (chunk (bs d) v (sample_weight d))).
Proof.
  intros H. unfold subloss_step. cbv zeta.
  destruct (Z.ltb_spec (epoch_uota_starts args) (epoch + 1)); [reflexivity | lia].
Qed.

Lemma sum_crop_losses_ext (args : arguments) (e e' : Z) (d d' : step_data)
      (cqs : list (nat * mat)) :
  (forall c q, crop_loss args e d c q = crop_loss args e' d' c q) ->
  forall l, sum_crop_losses args e d cqs l = sum_crop_losses args e' d' cqs l.
Proof.
  intros H. induction cqs as [| [c q] rest IH]; intros l; simpl; [reflexivity |].
  rewrite H. destruct (crop_loss args e' d' c q); [apply IH | reflexivity].
Qed.

Lemma loss_of_ext (args : arguments) (e e' : Z) (d d' : step_data)
      (qs : list mat) :
  (forall c q, crop_loss args e d c q = crop_loss args e' d' c q) ->
  loss_of args e d qs = loss_of args e' d' qs.
Proof.
  intros H. unfold loss_of. destruct (crops_for_assign args); [reflexivity |].
  now rewrite (sum_crop_losses_ext args e e' d d' _ H).
Qed.

(** C6, as the code has it.  With [e0 + 1 = epoch_uota_starts] every term
    of the loss is the plain mean of the per-sample sums
    [sum(q * log p)], and the sample weights have no part in the loss;
    with [e1 + 1 = epoch_uota_starts + 1] every term is the mean of these
    sums each multiplied by the weight of its sample.  On the same
    assignments and predictions the two losses are equal when every weight
    is 1. *)
Theorem loss_switches_after_uota_epoch
        (args : arguments) (e0 e1 : Z) (d : step_data) (qs : list mat)
        (H0 : (e0 + 1 = epoch_uota_starts args)%Z)
        (H1 : (e1 + 1 = epoch_uota_starts args + 1)%Z) :
  (forall q s v,
      subloss_step args e0 d q s v
      = nsub s (mean (ce_rows q (predicted args d v)))) /\
  (forall w, loss_of args e0 (with_weights d w) qs = loss_of args e0 d qs) /\
  (forall q s v,
      subloss_step args e1 d q s v
      = nsub s (mean (vmap2 nmul (ce_rows q (predicted args d v))
                            (chunk (bs d) v (sample_weight d))))) /\
  (sample_weight d
   = repeat (Fin 1) (bs d * Z.to_nat (total_crops args)) ->
   loss_of args e1 d qs = loss_of args e0 d qs).
Proof.
  split; [| split; [| split]].
  - intros q s v. apply subloss_step_before. lia.
  - intros w. apply loss_of_ext. intros c q. unfold crop_loss.
    destruct (other_crops _ c) as [vs |]; [| reflexivity].
    do 2 f_equal. apply fold_left_ext_in. intros s v _.
    rewrite !subloss_step_before by lia. reflexivity.
  - intros q s v. apply subloss_step_after. lia.
  - intros Hw. apply loss_of_ext. intros c q. unfold crop_loss.
    destruct (other_crops _ c) as [vs |] eqn:Ev; [| reflexivity].
    do 2 f_equal. apply fold_left_ext_in. intros s v Hv.
    rewrite (subloss_step_after args e1), (subloss_step_before args e0)
      by lia.
    unfold weighted_term, unweighted_term. rewrite Hw.
    rewrite chunk_repeat by (eapply other_crops_lt; eauto).
    rewrite vmap2_nmul_ones; [reflexivity |].
    etransitivity; [apply length_ce_rows_le | apply length_predicted_le].
Qed.

Lemma loss_switches_after_uota_epoch_witness :
  (forall q s v,
      subloss_step loss_demo_args 4 loss_demo_batch q s v
      = nsub s (mean (ce_rows q (predicted loss_demo_args loss_demo_batch v)))) /\
  (forall q s v,
      subloss_step loss_demo_args 5 loss_demo_batch q s v
      = nsub s (mean (vmap2 nmul
                            (ce_rows q (predicted loss_demo_args loss_demo_batch v))
                            (chunk 2 v (sample_weight loss_demo_batch))))).
Proof.
  pose proof (loss_switches_after_uota_epoch
                loss_demo_args 4 5 loss_demo_batch [loss_demo_q]
                eq_refl eq_refl) as (Hu & _ & Hw & _).
  split; [exact Hu | exact Hw].
Defined.

Lemma loss_demo_predicted :
  predicted loss_demo_args loss_demo_batch 1 = loss_demo_q.
Proof.
  assert (E : exp (0 / (1 / 10)) = 1).
  { replace (0 / (1 / 10)) with 0 by lra. apply exp_0. }
  unfold predicted, softmax, softmax_row, loss_demo_q. cbn. r_decide. cbn.
  rewrite !E. run_num. entries_eq.
Qed.

Lemma ln_half : ln (1 / 2) = - ln 2.
Proof. replace (1 / 2) with (/ 2) by lra. apply ln_Rinv. lra. Qed.

(** C6 as stated fails in its last part.  Two samples with the same
    assignment and the same prediction and the weights 1/2 and 3/2: the
    weights are not uniform, and the loss is [ln 2] in the epoch with
    [epoch + 1 = epoch_uota_starts] and in the next one. *)
Lemma weighted_loss_equal_with_nonuniform_weights :
  sample_weight loss_demo_batch
  = [Fin (1 / 2); Fin (3 / 2); Fin (1 / 2); Fin (3 / 2)] /\
  (4 + 1 = epoch_uota_starts loss_demo_args)%Z /\
  (5 + 1 = epoch_uota_starts loss_demo_args + 1)%Z /\
  loss_of loss_demo_args 4 loss_demo_batch [loss_demo_q] = Some (Fin (ln 2)) /\
  loss_of loss_demo_args 5 loss_demo_batch [loss_demo_q] = Some (Fin (ln 2)).
Proof.
  pose proof loss_demo_predicted as P. pose proof ln_half as L.
  assert (C4 : crop_loss loss_demo_args 4 loss_demo_batch 0 loss_demo_q
               = Some (Fin (ln 2))).
  { unfold crop_loss, other_crops, total_crops.
    cbn -[predicted subloss_step]. pos_to_nat. unfold subloss_step.
    cbn -[predicted]. rewrite P. unfold unweighted_term, mean, ce_rows.
    run_num. entries_eq. }
  assert (C5 : crop_loss loss_demo_args 5 loss_demo_batch 0 loss_demo_q
               = Some (Fin (ln 2))).
  { unfold crop_loss, other_crops, total_crops.
    cbn -[predicted subloss_step]. pos_to_nat. unfold subloss_step.
    cbn -[predicted]. rewrite P. unfold weighted_term, mean, ce_rows.
    run_num. entries_eq. }
  repeat split.
  - unfold loss_of. cbn -[crop_loss]. rewrite C4. run_num. entries_eq.
  - unfold loss_of. cbn -[crop_loss]. rewrite C5. run_num. entries_eq.
Qed.

(** ** Finite entries above zero *)

Lemma posfin_inv (a : num) : posfin a -> exists x, a = Fin x /\ 0 < x.
Proof. destruct a; simpl; try contradiction. eauto. Qed.

Lemma nnfin_inv (a : num) : nnfin a -> exists x, a = Fin x /\ 0 <= x.
Proof. destruct a; simpl; try contradiction. eauto. Qed.

Lemma posfin_nnfin (a : num) : posfin a -> nnfin a.
Proof. destruct a; simpl; trivial. lra. Qed.

Lemma posfin_not_inf (a : num) : posfin a -> isinf a = false.
Proof. destruct a; simpl; trivial; contradiction. Qed.

Lemma nmul_pos (a b : num) : posfin a -> posfin b -> posfin (nmul a b).
Proof.
  intros (x & -> & Hx)%posfin_inv (y & -> & Hy)%posfin_inv. simpl.
  now apply Rmult_lt_0_compat.
Qed.

Lemma ndiv_pos (a b : num) : posfin a -> posfin b -> posfin (ndiv a b).
Proof.
  intros (x & -> & Hx)%posfin_inv (y & -> & Hy)%posfin_inv.
  rewrite ndiv_fin by lra. simpl. now apply Rdiv_lt_0_compat.
Qed.

Lemma nadd_pos_nn (a b : num) : posfin a -> nnfin b -> posfin (nadd a b).
Proof.
  intros (x & -> & Hx)%posfin_inv (y & -> & Hy)%nnfin_inv. simpl. lra.
Qed.

Create HintDb posfin.
#[local] Hint Resolve nmul_pos ndiv_pos nadd_pos_nn posfin_nnfin : posfin.

Lemma nadd_comm (a b : num) : nadd a b = nadd b a.
Proof. destruct a, b; simpl; trivial. f_equal. lra. Qed.

Lemma nadd_assoc (a b c : num) : nadd a (nadd b c) = nadd (nadd a b) c.
Proof. destruct a, b, c; simpl; trivial. f_equal. lra. Qed.

(** ** Sums *)

Lemma nsum_app (l1 l2 : vec) : nsum (l1 ++ l2) = nadd (nsum l1) (nsum l2).
Proof.
  unfold nsum. induction l1 as [| a l1 IH]; cbn [app fold_right].
  - now rewrite nadd_0_l.
  - now rewrite IH, nadd_assoc.
Qed.

Lemma nsum_zeros (n : nat) : nsum (repeat (Fin 0) n) = Fin 0.
Proof.
  unfold nsum. induction n as [| n IH]; simpl; [reflexivity |].
  rewrite IH. simpl. f_equal. lra.
Qed.

Lemma nsum_vadd (a : vec) :
  forall b, length a = length b ->
            nsum (vmap2 nadd a b) = nadd (nsum a) (nsum b).
Proof.
  unfold nsum, vmap2. induction a as [| x a IH]; intros [| y b] H;
    try discriminate; cbn [combine map fold_right fst snd].
  - now rewrite nadd_0_l.
  - injection H as H. rewrite (IH b H).
    rewrite !nadd_assoc. f_equal.
    rewrite <- !nadd_assoc. f_equal. apply nadd_comm.
Qed.

Lemma nsum_posfin (l : vec) :
  Forall posfin l -> nsum l = Fin (rsum l) /\ 0 <= rsum l /\
                     (l <> [] -> 0 < rsum l).
Proof.
  unfold nsum, rsum. induction 1 as [| a l Ha Hl IH]; simpl.
  - repeat split; [lra | intros H; now contradiction H].
  - destruct IH as (E & Hn & _). rewrite E.
    apply posfin_inv in Ha as (x & -> & Hx). simpl.
    repeat split; lra.
Qed.

Lemma nsum_pos (l : vec) : Forall posfin l -> l <> [] -> posfin (nsum l).
Proof.
  intros H Hne. destruct (nsum_posfin l H) as (E & _ & Hp).
  rewrite E. simpl. auto.
Qed.

Lemma rsum_ge_entry (l : vec) (b : num) :
  Forall posfin l -> In b l -> val b <= rsum l.
Proof.
  unfold rsum. induction 1 as [| a l Ha Hl IH]; intros Hin; simpl;
    [contradiction |].
  destruct (nsum_posfin l Hl) as (_ & Hn & _). unfold rsum in Hn.
  apply posfin_inv in Ha as (x & -> & Hx). simpl.
  destruct Hin as [<- | Hin]; simpl; [lra |].
  specialize (IH Hin). lra.
Qed.

Lemma nsum_repeat_fin (x : R) (n : nat) :
  nsum (repeat (Fin x) n) = Fin (INR n * x).
Proof.
  unfold nsum. induction n as [| n IH].
  - simpl. f_equal. lra.
  - cbn [repeat fold_right]. rewrite IH, S_INR. simpl. f_equal. lra.
Qed.

(** ** Column sums as the sum of the rows *)

Lemma length_vmap2 (f : num -> num -> num) (a b : vec) :
  length (vmap2 f a b) = Nat.min (length a) (length b).
Proof. unfold vmap2. now rewrite length_map, length_combine. Qed.

Lemma length_vsum (N : nat) (Q : mat) :
  Forall (fun row : vec => length row = N) Q -> length (vsum N Q) = N.
Proof.
  unfold vsum. induction 1 as [| row Q Hr HQ IH]; simpl.
  - apply repeat_length.
  - rewrite length_vmap2, IH, Hr. apply Nat.min_id.
Qed.

Lemma nsum_vsum (N : nat) (Q : mat) :
  Forall (fun row : vec => length row = N) Q -> nsum (vsum N Q) = sum_all Q.
Proof.
  unfold sum_all. induction 1 as [| row Q Hr HQ IH].
  - simpl. apply nsum_zeros.
  - cbn [vsum fold_right concat]. fold (vsum N Q).
    rewrite nsum_vadd by (now rewrite length_vsum).
    now rewrite IH, nsum_app.
Qed.

Lemma nth_map_seq {A : Type} (f : nat -> A) (N j : nat) (d : A) :
  (j < N)%nat -> nth j (map f (seq 0 N)) d = f j.
Proof.
  intros H. rewrite (nth_indep _ d (f 0%nat)) by (now rewrite length_map, length_seq).
  rewrite map_nth, seq_nth by exact H. reflexivity.
Qed.

Lemma map_seq_nth2 (g : num -> num -> num) (d d' : num) (a : vec) :
  forall b, length a = length b ->
            map (fun j => g (nth j a d) (nth j b d')) (seq 0 (length a))
            = vmap2 g a b.
Proof.
  unfold vmap2. induction a as [| x a IH]; intros [| y b] H;
    try discriminate; [reflexivity |].
  injection H as H. cbn [length seq map combine fst snd nth]. f_equal.
  rewrite <- seq_shift, map_map. now apply IH.
Qed.

Lemma map_seq_const {A : Type} (x : A) (N s : nat) :
  map (fun _ => x) (seq s N) = repeat x N.
Proof.
  revert s. induction N as [| N IH]; intros s; simpl; [reflexivity |].
  now rewrite IH.
Qed.

Lemma column_sums_vsum (N : nat) (Q : mat) :
  Forall (fun row : vec => length row = N) Q ->
  map (fun j => nsum (column j Q)) (seq 0 N) = vsum N Q.
Proof.
  induction 1 as [| row Q Hr HQ IH].
  - simpl. apply map_seq_const.
  - cbn [vsum fold_right]. fold (vsum N Q). rewrite <- IH.
    rewrite <- (map_seq_nth2 nadd (Fin 0) (Fin 0))
      by (now rewrite length_map, length_seq).
    rewrite Hr. apply map_ext_in. intros j Hj. apply in_seq in Hj.
    rewrite nth_map_seq by lia. reflexivity.
Qed.

Lemma sum_dim0_vsum (N : nat) (row : vec) (Q : mat) :
  Forall (fun r : vec => length r = N) (row :: Q) ->
  sum_dim0 (row :: Q) = vsum N (row :: Q).
Proof.
  intros H. rewrite <- (column_sums_vsum N _ H).
  unfold sum_dim0, transpose, shape1. rewrite map_map.
  inversion H as [| ? ? Hr _]; subst. reflexivity.
Qed.

Lemma vmap2_nadd_zeros (u : vec) : vmap2 nadd u (repeat (Fin 0) (length u)) = u.
Proof.
  unfold vmap2. induction u as [| x u IH]; [reflexivity |].
  cbn [length repeat combine map fst snd]. now rewrite nadd_0_r, IH.
Qed.

(** With one worker a sum-reduce gives back what the worker holds. *)
Lemma all_reduce_sum_vec_single (u : vec) : all_reduce_sum_vec [u] = u.
Proof.
  unfold all_reduce_sum_vec.
  rewrite (sum_dim0_vsum (length u)) by (repeat constructor).
  simpl. apply vmap2_nadd_zeros.
Qed.

Lemma all_reduce_sum_single (x : num) : all_reduce_sum [x] = x.
Proof. unfold all_reduce_sum, nsum. simpl fold_right. apply nadd_0_r. Qed.

(** ** One pass of the loop on a matrix of positive entries *)

Lemma Forall_vmap2 (P1 P2 P3 : num -> Prop) (f : num -> num -> num) :
  (forall a b, P1 a -> P2 b -> P3 (f a b)) ->
  forall a b, Forall P1 a -> Forall P2 b -> Forall P3 (vmap2 f a b).
Proof.
  intros Hf a b Ha. revert b. unfold vmap2.
  induction Ha as [| x a Hx Ha IH]; intros b Hb; [constructor |].
  destruct Hb as [| y b Hy Hb]; [constructor |].
  cbn [combine map fst snd]. constructor; auto.
Qed.

Lemma posfin_no_inf (v : vec) : Forall posfin v -> existsb isinf v = false.
Proof.
  induction 1 as [| a v Ha Hv IH]; simpl; [reflexivity |].
  now rewrite (posfin_not_inf a Ha), IH.
Qed.

Lemma shoot_infs1_posfin (v : vec) : Forall posfin v -> shoot_infs1 v = v.
Proof.
  intros H. rewrite shoot_infs1_eq. now rewrite (posfin_no_inf v H).
Qed.

Lemma Forall_concat {A : Type} (P : A -> Prop) (m : list (list A)) :
  Forall (Forall P) m -> Forall P (concat m).
Proof.
  induction 1 as [| r m Hr Hm IH]; simpl; [constructor |].
  apply Forall_app. now split.
Qed.

Lemma shoot_infs2_posfin (Q : mat) :
  Forall (Forall posfin) Q -> shoot_infs2 Q = Q.
Proof.
  intros H. rewrite shoot_infs2_eq.
  now rewrite (posfin_no_inf _ (Forall_concat _ _ H)).
Qed.

Lemma posmat_scale_rows (K N : nat) (u : vec) (Q : mat) :
  posmat K N Q -> length u = K -> Forall posfin u ->
  posmat K N (scale_rows u Q).
Proof.
  intros [[HK Hlen] Hpos] Hu Hup. subst K. unfold scale_rows.
  revert u Hu Hup. induction Q as [| row Q IH]; intros [| x u] Hu Hup;
    try discriminate.
  - repeat split; constructor.
  - injection Hu as Hu.
    inversion Hlen as [| ? ? Hr Hlen']; subst.
    inversion Hpos as [| ? ? Hp Hpos']; subst.
    inversion Hup as [| ? ? Hx Hup']; subst.
    destruct (IH Hlen' Hpos' u Hu Hup') as [[IK Il] Ip].
    cbn [combine map fst snd]. repeat split.
    + simpl. now rewrite IK.
    + constructor; [now rewrite length_map | exact Il].
    + constructor; [| exact Ip].
      apply Forall_map. eapply Forall_impl; [| exact Hp].
      intros a Ha. auto with posfin.
Qed.

Lemma posmat_scale_cols (K N : nat) (f : vec) (Q : mat) :
  posmat K N Q -> length f = N -> Forall posfin f ->
  posmat K N (scale_cols f Q).
Proof.
  intros [[HK Hlen] Hpos] Hf Hfp. unfold scale_cols. repeat split.
  - now rewrite length_map.
  - apply Forall_map. eapply Forall_impl; [| exact Hlen].
    intros row Hr. cbv beta. rewrite length_vmap2, Hr, Hf. apply Nat.min_id.
  - apply Forall_map. eapply Forall_impl; [| exact Hpos].
    intros row Hr. cbv beta.
    exact (Forall_vmap2 posfin posfin posfin nmul nmul_pos row f Hr Hfp).
Qed.

Lemma vsum_nnfin (N : nat) (Q : mat) :
  Forall (Forall posfin) Q -> Forall nnfin (vsum N Q).
Proof.
  unfold vsum. induction 1 as [| row Q Hr HQ IH]; simpl.
  - apply Forall_forall. intros a ->%repeat_spec. simpl. lra.
  - apply (Forall_vmap2 posfin nnfin nnfin nadd); [| exact Hr | exact IH].
    intros a b Ha Hb. auto with posfin.
Qed.

Lemma vsum_posfin (N : nat) (row : vec) (Q : mat) :
  Forall (Forall posfin) (row :: Q) -> Forall posfin (vsum N (row :: Q)).
Proof.
  intros H. inversion H as [| ? ? Hr HQ]; subst.
  cbn [vsum fold_right]. fold (vsum N Q).
  exact (Forall_vmap2 posfin nnfin posfin nadd nadd_pos_nn _ _ Hr
                      (vsum_nnfin N Q HQ)).
Qed.

Lemma vmap2_distr (f : vec) :
  forall a b : vec,
    length a = length f -> length b = length f ->
    Forall posfin a -> Forall nnfin b -> Forall posfin f ->
    vmap2 nadd (vmap2 nmul a f) (vmap2 nmul b f)
    = vmap2 nmul (vmap2 nadd a b) f.
Proof.
  unfold vmap2. induction f as [| z f IH]; intros [| x a] [| y b] Ha Hb Hpa Hpb Hpf;
    try discriminate; [reflexivity |].
  injection Ha as Ha. injection Hb as Hb.
  inversion Hpa as [| ? ? Hx Hpa']; subst.
  inversion Hpb as [| ? ? Hy Hpb']; subst.
  inversion Hpf as [| ? ? Hz Hpf']; subst.
  cbn [combine map fst snd]. rewrite (IH a b Ha Hb Hpa' Hpb' Hpf'). f_equal.
  apply posfin_inv in Hx as (x' & -> & _).
  apply nnfin_inv in Hy as (y' & -> & _).
  apply posfin_inv in Hz as (z' & -> & _).
  simpl. f_equal. lra.
Qed.

Lemma vmap2_nmul_zeros (f : vec) :
  Forall posfin f ->
  vmap2 nmul (repeat (Fin 0) (length f)) f = repeat (Fin 0) (length f).
Proof.
  unfold vmap2. induction 1 as [| z f Hz Hf IH]; [reflexivity |].
  cbn [length repeat combine map fst snd]. rewrite IH. f_equal.
  apply posfin_inv in Hz as (z' & -> & _). simpl. f_equal. lra.
Qed.

Lemma vsum_scale_cols (N : nat) (f : vec) (Q : mat) :
  Forall (fun row : vec => length row = N) Q -> Forall (Forall posfin) Q ->
  length f = N -> Forall posfin f ->
  vsum N (scale_cols f Q) = vmap2 nmul (vsum N Q) f.
Proof.
  intros Hlen Hpos Hf Hfp. subst N. unfold scale_cols.
  induction Q as [| row Q IH].
  - simpl. now rewrite vmap2_nmul_zeros.
  - inversion Hlen as [| ? ? Hr Hlen']; subst.
    inversion Hpos as [| ? ? Hp Hpos']; subst.
    cbn [map vsum fold_right]. fold (vsum (length f) Q).
    fold (vsum (length f) (map (fun row : vec => vmap2 nmul row f) Q)).
    rewrite (IH Hlen' Hpos').
    apply vmap2_distr; auto.
    + now apply length_vsum.
    + now apply vsum_nnfin.
Qed.

Lemma vmap2_mul_div (s : vec) :
  forall c : vec,
    length s = length c -> Forall posfin s -> Forall posfin c ->
    vmap2 nmul s (vmap2 ndiv c s) = c.
Proof.
  unfold vmap2. induction s as [| x s IH]; intros [| y c] H Hs Hc;
    try discriminate; [reflexivity |].
  injection H as H.
  inversion Hs as [| ? ? Hx Hs']; subst.
  inversion Hc as [| ? ? Hy Hc']; subst.
  cbn [combine map fst snd]. rewrite (IH c H Hs' Hc'). f_equal.
  apply posfin_inv in Hx as (x' & -> & Hx).
  apply posfin_inv in Hy as (y' & -> & Hy).
  rewrite ndiv_fin by lra. simpl. f_equal. field. lra.
Qed.

Lemma nsum_div_scalar (l : vec) (S : R) :
  Forall posfin l -> S <> 0 ->
  nsum (map (fun q : num => ndiv q (Fin S)) l) = Fin (rsum l / S).
Proof.
  intros Hl HS. unfold nsum, rsum. induction Hl as [| a l Ha Hl IH].
  - simpl. f_equal. lra.
  - cbn [map fold_right]. rewrite IH.
    apply posfin_inv in Ha as (x & -> & Hx).
    rewrite ndiv_fin by exact HS. simpl. f_equal. field. exact HS.
Qed.

Lemma ones_div_pos (n : nat) (x : R) :
  0 < x -> length (ones_div n (Fin x)) = n /\
           Forall posfin (ones_div n (Fin x)) /\
           nsum (ones_div n (Fin x)) = Fin (INR n * (1 / x)).
Proof.
  intros Hx. unfold ones_div. rewrite ndiv_fin by lra.
  split; [apply repeat_length |]. split; [| apply nsum_repeat_fin].
  apply Forall_forall. intros a ->%repeat_spec. simpl.
  apply Rdiv_lt_0_compat; lra.
Qed.

Lemma sinkhorn_iter_single (r c : vec) (Q : mat) :
  sinkhorn_iter [(r, c)] [Q] = [sinkhorn_local (sum_dim1 Q) ((r, c), Q)].
Proof.
  unfold sinkhorn_iter. cbn [map combine].
  now rewrite all_reduce_sum_vec_single.
Qed.

(** ** The engine on one worker *)

Section OneWorker.

(** [K] prototypes and [N] samples, at least one of each. *)
Variables K N : nat.
Hypothesis HK : (1 <= K)%nat.
Hypothesis HN : (1 <= N)%nat.

Lemma posmat_concat_nonempty (Q : mat) : posmat K N Q -> concat Q <> [].
Proof.
  intros [[HlenQ Hlen] _].
  destruct Q as [| row Q]; [simpl in HlenQ; lia |].
  inversion Hlen as [| ? ? Hr _]; subst.
  destruct row; [simpl in HN; lia | discriminate].
Qed.

Lemma posmat_shape (Q : mat) :
  posmat K N Q -> shape0 Q = K /\ shape1 Q = N.
Proof.
  intros [[HlenQ Hlen] _]. split; [exact HlenQ |].
  destruct Q as [| row Q]; [simpl in HlenQ; lia |].
  inversion Hlen as [| ? ? Hr _]; subst. reflexivity.
Qed.

Lemma posmat_div_scalar (Q : mat) (S : R) :
  posmat K N Q -> 0 < S -> posmat K N (div_scalar Q (Fin S)).
Proof.
  intros [[HlenQ Hlen] Hpos] HS. unfold div_scalar. repeat split.
  - now rewrite length_map.
  - apply Forall_map. eapply Forall_impl; [| exact Hlen].
    intros row Hr. cbv beta. now rewrite length_map.
  - apply Forall_map. eapply Forall_impl; [| exact Hpos].
    intros row Hr. cbv beta. apply Forall_map.
    eapply Forall_impl; [| exact Hr].
    intros a Ha. cbv beta. auto with posfin.
Qed.

(** Lines 399-402 leave a matrix of sum 1. *)
Lemma sinkhorn_normalize_single (Q : mat) :
  posmat K N Q ->
  exists Q0, sinkhorn_normalize [Q] = [Q0] /\ posmat K N Q0 /\
             sum_all Q0 = Fin 1.
Proof.
  intros HQ. pose proof HQ as [_ Hpos].
  pose proof (Forall_concat _ _ Hpos) as Hc.
  destruct (nsum_posfin _ Hc) as (E & _ & Hp).
  specialize (Hp (posmat_concat_nonempty Q HQ)).
  exists (div_scalar Q (Fin (rsum (concat Q)))).
  unfold sinkhorn_normalize. cbn [map].
  rewrite shoot_infs2_posfin by exact Hpos.
  rewrite all_reduce_sum_single. unfold sum_all at 1. rewrite E.
  split; [reflexivity |]. split; [now apply posmat_div_scalar |].
  unfold sum_all, div_scalar. rewrite concat_map_map.
  rewrite nsum_div_scalar by (trivial; lra). f_equal. field. lra.
Qed.

(** Lines 403-404: the marginals are positive and [c] sums to 1. *)
Lemma marginals_single (Q : mat) :
  posmat K N Q ->
  (length (marginal_r Q) = K /\ Forall posfin (marginal_r Q)) /\
  (length (marginal_c 1 Q) = N /\ Forall posfin (marginal_c 1 Q) /\
   nsum (marginal_c 1 Q) = Fin 1).
Proof.
  intros HQ. destruct (posmat_shape Q HQ) as [H0 H1].
  unfold marginal_r, marginal_c, of_nat, of_Z. rewrite H0, H1.
  assert (HKr : 0 < INR K) by (apply lt_0_INR; lia).
  assert (HNr : 0 < INR N) by (apply lt_0_INR; lia).
  rewrite Z.mul_1_l, <- INR_IZR_INZ.
  destruct (ones_div_pos K (INR K) HKr) as (A1 & A2 & _).
  destruct (ones_div_pos N (INR N) HNr) as (B1 & B2 & B3).
  repeat split; trivial. rewrite B3. f_equal. field. lra.
Qed.

(** The marginals of the loop: positive, of the right lengths. *)
Variables r c : vec.
Hypothesis Hr : length r = K.
Hypothesis Hrp : Forall posfin r.
Hypothesis Hc : length c = N.
Hypothesis Hcp : Forall posfin c.

(** Lines 406-411 keep the entries positive and leave the column sums
    equal to [c]. *)
Lemma sinkhorn_local_posmat (Q : mat) :
  posmat K N Q ->
  posmat K N (sinkhorn_local (sum_dim1 Q) ((r, c), Q)) /\
  sum_dim0 (sinkhorn_local (sum_dim1 Q) ((r, c), Q)) = c.
Proof.
  intros HQ. unfold sinkhorn_local.
  destruct HQ as [[HlenQ Hrows] Hpos].
  assert (Hu : Forall posfin (sum_dim1 Q)).
  { unfold sum_dim1. apply Forall_map.
    apply Forall_forall. intros row Hin.
    apply nsum_pos.
    - eapply Forall_forall in Hpos; eauto.
    - eapply Forall_forall in Hrows; eauto. cbv beta in Hrows.
      destruct row; [simpl in Hrows; lia | discriminate]. }
  assert (Hf : Forall posfin (row_factors r (sum_dim1 Q))).
  { unfold row_factors.
    rewrite shoot_infs1_posfin;
      exact (Forall_vmap2 posfin posfin posfin ndiv ndiv_pos _ _ Hrp Hu). }
  assert (Hfl : length (row_factors r (sum_dim1 Q)) = K).
  { unfold row_factors.
    rewrite shoot_infs1_posfin
      by exact (Forall_vmap2 posfin posfin posfin ndiv ndiv_pos _ _ Hrp Hu).
    unfold sum_dim1. rewrite length_vmap2, length_map, Hr, HlenQ.
    apply Nat.min_id. }
  pose proof (posmat_scale_rows K N _ Q (conj (conj HlenQ Hrows) Hpos) Hfl Hf)
    as HQ1.
  set (Q1 := scale_rows (row_factors r (sum_dim1 Q)) Q) in *.
  destruct HQ1 as [[HlenQ1 Hrows1] Hpos1].
  destruct Q1 as [| row1 Q1'] eqn:EQ1; [simpl in HlenQ1; lia |].
  rewrite <- EQ1 in *.
  assert (Hs : sum_dim0 Q1 = vsum N Q1).
  { rewrite EQ1. apply sum_dim0_vsum. now rewrite <- EQ1. }
  assert (Hsp : Forall posfin (vsum N Q1)).
  { rewrite EQ1. apply vsum_posfin. now rewrite <- EQ1. }
  assert (Hsl : length (vsum N Q1) = N) by now apply length_vsum.
  assert (Hg : Forall posfin (col_factors c Q1)).
  { unfold col_factors. rewrite Hs.
    exact (Forall_vmap2 posfin posfin posfin ndiv ndiv_pos _ _ Hcp Hsp). }
  assert (Hgl : length (col_factors c Q1) = N).
  { unfold col_factors. rewrite Hs, length_vmap2, Hc, Hsl. apply Nat.min_id. }
  pose proof (posmat_scale_cols K N _ Q1 (conj (conj HlenQ1 Hrows1) Hpos1)
                                Hgl Hg) as HQ2.
  split; [exact HQ2 |].
  destruct HQ2 as [[HlenQ2 Hrows2] Hpos2].
  destruct (scale_cols (col_factors c Q1) Q1) as [| row2 Q2'] eqn:EQ2;
    [simpl in HlenQ2; lia |].
  rewrite (sum_dim0_vsum N) by exact Hrows2.
  rewrite <- EQ2, vsum_scale_cols by assumption.
  unfold col_factors. rewrite Hs. apply vmap2_mul_div; auto. lia.
Qed.

Hypothesis Hc1 : nsum c = Fin 1.

(** The invariant of the loop: positive entries that sum to 1. *)
Lemma sinkhorn_loop_single (n : nat) :
  forall Q : mat,
    posmat K N Q -> sum_all Q = Fin 1 ->
    exists P, sinkhorn_loop [(r, c)] [Q] n = [P] /\ posmat K N P /\
              sum_all P = Fin 1.
Proof.
  induction n as [| n IH]; intros Q HQ HS.
  - exists Q. auto.
  - cbn [sinkhorn_loop]. rewrite sinkhorn_iter_single.
    destruct (sinkhorn_local_posmat Q HQ) as [HQ' Hcols].
    apply IH; [exact HQ' |].
    pose proof HQ' as [[HlenQ' Hrows'] _].
    rewrite <- (nsum_vsum N) by exact Hrows'.
    destruct (sinkhorn_local (sum_dim1 Q) (r, c, Q)) as [| row Q'] eqn:E;
      [simpl in HlenQ'; lia |].
    rewrite <- (sum_dim0_vsum N) by exact Hrows'.
    now rewrite Hcols.
Qed.

End OneWorker.

Lemma sinkhorn_before_return_single (K N : nat) (Q : mat) (nmb_iters : Z) :
  (1 <= K)%nat -> (1 <= N)%nat -> posmat K N Q ->
  exists P, sinkhorn_before_return 1 [Q] nmb_iters = [P] /\ posmat K N P /\
            sum_all P = Fin 1.
Proof.
  intros HK HN HQ.
  destruct (sinkhorn_normalize_single K N HK HN Q HQ) as (Q0 & E & HQ0 & HS).
  unfold sinkhorn_before_return. rewrite E. cbn [map].
  destruct (marginals_single K N HK HN Q0 HQ0)
    as [[Hr Hrp] (Hc & Hcp & Hc1)].
  now apply (sinkhorn_loop_single K N HK HN).
Qed.

(** ** From real scores to the matrix [Q] *)

Lemma div_scalar_lift (A : list (list R)) (e : R) :
  e <> 0 ->
  div_scalar (lift A) (Fin e) = lift (map (map (fun x => x / e)) A).
Proof.
  intros He. unfold div_scalar, lift. rewrite !map_map.
  apply map_ext. intros row. rewrite !map_map. apply map_ext.
  intros x. now apply ndiv_fin.
Qed.

Lemma sub_scalar_lift (A : list (list R)) (m : R) :
  sub_scalar (lift A) (Fin m) = lift (map (map (fun x => x + - m)) A).
Proof.
  unfold sub_scalar, lift. rewrite !map_map.
  apply map_ext. intros row. rewrite !map_map. reflexivity.
Qed.

Lemma nexp_lift (A : list (list R)) :
  map (map nexp) (lift A) = lift (map (map exp) A).
Proof.
  unfold lift. rewrite !map_map.
  apply map_ext. intros row. rewrite !map_map. reflexivity.
Qed.

Lemma concat_lift (A : list (list R)) : concat (lift A) = map Fin (concat A).
Proof. unfold lift. apply concat_map_map. Qed.

Lemma forallb_isfinite_fin (l : list R) : forallb isfinite (map Fin l) = true.
Proof. induction l as [| x l IH]; simpl; [reflexivity | exact IH]. Qed.

Lemma torch_max_lift (A : list (list R)) :
  concat A <> [] -> exists m, torch_max (concat (lift A)) = Some (Fin m).
Proof.
  intros H. rewrite concat_lift.
  destruct (torch_max_fin (map Fin (concat A))) as (b & Hb & _).
  - destruct (concat A); [now contradiction H | discriminate].
  - apply forallb_isfinite_fin.
  - eauto.
Qed.

Lemma scores_shape_concat (A : list (list R)) :
  scores_shape A -> concat A <> [].
Proof.
  intros [Hne (K & HK & Hrows)].
  destruct A as [| row A]; [now contradiction Hne |].
  inversion Hrows as [| ? ? Hr _]; subst.
  destruct row; [simpl in HK; lia | discriminate].
Qed.

Lemma all_some_max (As : list (list (list R))) :
  Forall scores_shape As ->
  exists ms : list R,
    all_some (map (fun q : mat => torch_max (concat q)) (map lift As))
    = Some (map Fin ms) /\ length ms = length As.
Proof.
  induction 1 as [| A As HA HAs IH].
  - exists []. split; reflexivity.
  - destruct IH as (ms & E & Hl).
    destruct (torch_max_lift A (scores_shape_concat A HA)) as (m & Hm).
    exists (m :: ms). cbn [map all_some]. rewrite Hm, E.
    split; [reflexivity | simpl; now rewrite Hl].
Qed.

Lemma stabilize_lift (As : list (list (list R))) :
  As <> [] -> Forall scores_shape As ->
  exists m : R,
    stabilize (map lift As)
    = Some (map (fun A => lift (map (map (fun x => x + - m)) A)) As).
Proof.
  intros Hne HAs. destruct (all_some_max As HAs) as (ms & E & Hl).
  unfold stabilize. rewrite E. unfold all_reduce_max.
  destruct (torch_max_fin (map Fin ms)) as (m & Hm & _).
  - destruct ms; [destruct As; [now contradiction Hne | discriminate] |
                  discriminate].
  - apply forallb_isfinite_fin.
  - exists m. rewrite Hm. f_equal. rewrite map_map.
    apply map_ext. intros A. apply sub_scalar_lift.
Qed.

Lemma scores_to_Q_lift (args : arguments) (As : list (list (list R))) (e : R) :
  epsilon args = Fin e -> e <> 0 -> As <> [] -> Forall scores_shape As ->
  exists m : R,
    scores_to_Q args (map lift As)
    = Some (map (fun A =>
                   transpose (lift (map (map (fun x => exp (x / e + - m))) A)))
                As) /\
    (improve_numerical_stability args = false -> m = 0).
Proof.
  intros Heps He Hne HAs. unfold scores_to_Q. rewrite Heps.
  assert (Hq : map (fun out : mat => div_scalar out (Fin e)) (map lift As)
               = map lift (map (map (map (fun x => x / e))) As)).
  { rewrite !map_map. apply map_ext. intros A. now apply div_scalar_lift. }
  rewrite Hq. destruct (improve_numerical_stability args).
  - destruct (stabilize_lift (map (map (map (fun x => x / e))) As)) as (m & E).
    + destruct As; [now contradiction Hne | discriminate].
    + apply Forall_map. eapply Forall_impl; [| exact HAs].
      intros A [HA (K & HK & Hrows)]. split.
      * destruct A; [now contradiction HA | discriminate].
      * exists K. split; [exact HK |]. apply Forall_map.
        eapply Forall_impl; [| exact Hrows].
        intros row Hr. cbv beta. now rewrite length_map.
    + exists m. rewrite E. split; [| discriminate]. f_equal.
      rewrite !map_map. apply map_ext. intros A.
      rewrite nexp_lift. do 2 f_equal. rewrite !map_map.
      apply map_ext. intros row. rewrite !map_map. reflexivity.
  - exists 0. split; [| reflexivity]. f_equal.
    rewrite !map_map. apply map_ext. intros A.
    rewrite nexp_lift. do 2 f_equal. rewrite !map_map.
    apply map_ext. intros row. rewrite !map_map.
    apply map_ext. intros x. f_equal. lra.
Qed.

Lemma nth_lift_row (f : R -> R) (row : list R) (j : nat) :
  (j < length row)%nat ->
  nth j (map Fin (map f row)) (Fin 0) = Fin (f (nth j row 0)).
Proof.
  intros H. rewrite map_map.
  rewrite (nth_indep _ (Fin 0) (Fin (f 0)))
    by (now rewrite length_map).
  apply (map_nth (fun x => Fin (f x))).
Qed.

Lemma transpose_lift_posmat (f : R -> R) (A : list (list R)) (N K : nat) :
  (forall x, 0 < f x) -> (1 <= N)%nat -> length A = N ->
  Forall (fun row => length row = K) A ->
  posmat K N (transpose (lift (map (map f) A))).
Proof.
  intros Hf HN Hlen Hrows. unfold transpose, lift.
  assert (Hs : shape1 (map (map Fin) (map (map f) A)) = K).
  { destruct A as [| row A]; [simpl in Hlen; lia |].
    inversion Hrows as [| ? ? Hr _]; subst.
    unfold shape1. simpl. now rewrite !length_map. }
  rewrite Hs. repeat split.
  - now rewrite length_map, length_seq.
  - apply Forall_map. apply Forall_forall. intros j _. unfold column.
    now rewrite !length_map.
  - apply Forall_map. apply Forall_forall. intros j Hj. apply in_seq in Hj.
    unfold column. rewrite !map_map. apply Forall_map.
    eapply Forall_impl; [| exact Hrows].
    intros row Hr. cbv beta in Hr |- *.
    rewrite nth_lift_row by lia. simpl. apply Hf.
Qed.

Lemma shoot_infs2_overflow (K N : nat) (Q : mat) :
  rect K N Q -> Forall (Forall pos_or_inf) Q -> Exists (Exists posfin) Q ->
  exists b,
    0 < b /\ In (Fin b) (concat Q) /\
    (forall y, In (Fin y) (concat Q) -> y <= b) /\
    shoot_infs2 Q = map (map (fun x => if isinf x then Fin b else x)) Q /\
    posmat K N (shoot_infs2 Q).
Proof.
  intros [HlenQ Hrows] Hent Hex.
  pose proof (Forall_concat _ _ Hent) as Hl.
  assert (Hnan : existsb isnan (concat Q) = false).
  { apply existsb_false_forall. intros x Hx.
    rewrite Forall_forall in Hl. destruct (Hl x Hx) as [Hp | ->];
      [now destruct x | reflexivity]. }
  assert (Hsome : exists x, In (Fin x) (concat Q) /\ 0 < x).
  { apply Exists_exists in Hex as (row & Hrow & Hex).
    apply Exists_exists in Hex as (a & Ha & Hp).
    apply posfin_inv in Hp as (x & -> & Hx). exists x. split; [| exact Hx].
    apply in_concat. eauto. }
  destruct Hsome as (x0 & Hx0 & Hx0pos).
  assert (Hne : map zero_inf (concat Q) <> [])
    by (destruct (concat Q); [contradiction | discriminate]).
  destruct (torch_max_fin _ Hne (zero_inf_finite _ Hnan))
    as (b & Emax & Hin & Hub).
  assert (Hb : 0 < b).
  { specialize (Hub x0). apply Rlt_le_trans with x0; [exact Hx0pos |].
    apply Hub. apply in_map_iff. exists (Fin x0). now split. }
  assert (Hshoot : shoot_infs2 Q
                   = map (map (fun x => if isinf x then Fin b else x)) Q).
  { rewrite shoot_infs2_eq, Emax.
    destruct (existsb isinf (concat Q)) eqn:Einf; [reflexivity |].
    rewrite existsb_false_forall in Einf.
    rewrite <- (map_id Q) at 1. apply map_ext_in. intros row Hrow.
    symmetry. apply map_if_unchanged. intros x Hx. apply Einf.
    apply in_concat. eauto. }
  exists b. split; [exact Hb |]. split; [| split; [| split]].
  - apply in_map_iff in Hin as (a & Ea & Ha).
    rewrite Forall_forall in Hl. destruct (Hl a Ha) as [Hp | ->].
    + apply posfin_inv in Hp as (x & -> & _). simpl in Ea. now rewrite <- Ea.
    + simpl in Ea. injection Ea as Ea. lra.
  - intros y Hy. apply Hub. apply in_map_iff. exists (Fin y). now split.
  - exact Hshoot.
  - rewrite Hshoot. repeat split.
    + now rewrite length_map.
    + apply Forall_map. eapply Forall_impl; [| exact Hrows].
      intros row Hr. cbv beta. now rewrite length_map.
    + apply Forall_map. eapply Forall_impl; [| exact Hent].
      intros row Hr. cbv beta. apply Forall_map.
      eapply Forall_impl; [| exact Hr].
      intros a [Hp | ->]; cbv beta; [| exact Hb].
      now rewrite (posfin_not_inf a Hp).
Qed.




(** ** The all-zero scenario *)

Lemma normalize_constant (t : R) :
  0 < t ->
  sinkhorn_normalize [constant_matrix 3 4 t] = [constant_matrix 3 4 (1 / 12)].
Proof.
  intros Ht. unfold sinkhorn_normalize, constant_matrix. run_num.
  repeat (apply f_equal2; [| try reflexivity]); apply f_equal; field; lra.
Qed.

Lemma iter_uniform :
  sinkhorn_iter [(marginal_r (constant_matrix 3 4 (1 / 12)),
                  marginal_c 1 (constant_matrix 3 4 (1 / 12)))]
                [constant_matrix 3 4 (1 / 12)]
  = [constant_matrix 3 4 (1 / 12)].
Proof.
  rewrite sinkhorn_iter_single. unfold sinkhorn_local, constant_matrix.
  run_num. entries_eq.
Qed.

Lemma return_uniform :
  sinkhorn_return (constant_matrix 3 4 (1 / 12)) = constant_matrix 4 3 (1 / 3).
Proof.
  unfold sinkhorn_return, constant_matrix. run_num. entries_eq.
Qed.

(** C2.  Four samples, three prototypes, one worker, [epsilon = 0.1],
    three passes, all scores zero: the assignment has 1/3 in each of its
    [4 x 3] entries, in either stability mode. *)
Theorem zero_scores_uniform_assignment (stability : bool) :
  get_assignments (scenario_args stability) 4 [lift zero_scores]
  = Some [constant_matrix 4 3 (1 / 3)].
Proof.
  destruct (scores_to_Q_lift (scenario_args stability) [zero_scores] (1 / 10)
                             eq_refl) as (m & EQ & _).
  - lra.
  - discriminate.
  - constructor; [| constructor]. split; [discriminate |].
    exists 3%nat. split; [lia | repeat constructor].
  - cbn [map] in EQ. unfold get_assignments. rewrite EQ. cbn [map].
    change (transpose (lift (map (map (fun x => exp (x / (1 / 10) + - m)))
                                 zero_scores)))
      with (constant_matrix 3 4 (exp (0 / (1 / 10) + - m))).
    unfold distributed_sinkhorn, sinkhorn_before_return.
    rewrite normalize_constant by apply exp_pos.
    change (world_size (scenario_args stability)) with 1%Z.
    change (Z.to_nat (sinkhorn_iterations (scenario_args stability)))
      with 3%nat.
    cbn [map sinkhorn_loop]. rewrite !iter_uniform.
    cbn [map]. rewrite return_uniform. reflexivity.
Qed.

(** ** The stability mode on any number of workers *)

Lemma nsum_scale (l : vec) (s : R) :
  Forall posfin l ->
  nsum (map (fun b : num => nmul b (Fin s)) l) = Fin (rsum l * s).
Proof.
  unfold nsum, rsum. induction 1 as [| a l Ha Hl IH].
  - simpl. f_equal. lra.
  - cbn [map fold_right]. rewrite IH.
    apply posfin_inv in Ha as (x & -> & Hx). simpl. f_equal. lra.
Qed.

Lemma scaled_posfin (s : R) (Qs : list mat) :
  0 < s -> Forall (Forall (Forall posfin)) Qs ->
  Forall (Forall (Forall posfin)) (scaled s Qs).
Proof.
  intros Hs H. unfold scaled.
  apply Forall_map. eapply Forall_impl; [| exact H].
  intros Q HQ. cbv beta. apply Forall_map. eapply Forall_impl; [| exact HQ].
  intros row Hr. cbv beta. apply Forall_map. eapply Forall_impl; [| exact Hr].
  intros a Ha. cbv beta. apply nmul_pos; [exact Ha | exact Hs].
Qed.

(** The global sum of positive matrices, and of the same matrices scaled. *)
Lemma global_sum_scaled (s : R) (Qs : list mat) :
  Forall (Forall (Forall posfin)) Qs ->
  exists S : R,
    0 <= S /\
    all_reduce_sum (map sum_all Qs) = Fin S /\
    all_reduce_sum (map sum_all (scaled s Qs)) = Fin (S * s) /\
    (forall Q row b, In Q Qs -> In row Q -> In b row -> val b <= S).
Proof.
  unfold all_reduce_sum, scaled. induction 1 as [| Q Qs HQ HQs IH].
  - exists 0. simpl. repeat split; try lra.
    + f_equal. lra.
    + intros Q row b [].
  - destruct IH as (S & HS & E1 & E2 & Hb).
    pose proof (Forall_concat _ _ HQ) as Hc.
    destruct (nsum_posfin _ Hc) as (Ec & Hn & _).
    assert (Hsa : sum_all Q = Fin (rsum (concat Q))) by exact Ec.
    assert (Hsb : sum_all (map (map (fun b : num => nmul b (Fin s))) Q)
                  = Fin (rsum (concat Q) * s)).
    { unfold sum_all. rewrite concat_map_map. now apply nsum_scale. }
    exists (rsum (concat Q) + S).
    cbn [map]. unfold nsum in E1, E2 |- *. cbn [fold_right].
    rewrite E1, E2, Hsa, Hsb.
    split; [lra |]. split; [reflexivity |]. split; [simpl; f_equal; lra |].
    intros Q' row b [<- | HQ'] Hrow Hin.
    + assert (In b (concat Q)) by (apply in_concat; eauto).
      pose proof (rsum_ge_entry _ b Hc H). lra.
    + specialize (Hb Q' row b HQ' Hrow Hin). lra.
Qed.

Lemma sinkhorn_normalize_scaled (s : R) (Qs : list mat) :
  0 < s -> Forall (Forall (Forall posfin)) Qs ->
  sinkhorn_normalize (scaled s Qs) = sinkhorn_normalize Qs.
Proof.
  intros Hs HQs. unfold sinkhorn_normalize.
  assert (Hid : forall Ps, Forall (Forall (Forall posfin)) Ps ->
                           map shoot_infs2 Ps = Ps).
  { intros Ps HPs. rewrite <- (map_id Ps) at 2. apply map_ext_in.
    intros P HP. apply shoot_infs2_posfin.
    eapply Forall_forall in HPs; eauto. }
  rewrite (Hid _ (scaled_posfin s Qs Hs HQs)), (Hid _ HQs).
  destruct (global_sum_scaled s Qs HQs) as (S & HS & E1 & E2 & Hb).
  rewrite E1, E2. unfold scaled, div_scalar. rewrite map_map.
  apply map_ext_in. intros Q HQ. rewrite map_map.
  apply map_ext_in. intros row Hrow. rewrite map_map.
  apply map_ext_in. intros b Hin.
  specialize (Hb Q row b HQ Hrow Hin).
  eapply Forall_forall in HQs; [| exact HQ].
  eapply Forall_forall in HQs; [| exact Hrow].
  eapply Forall_forall in HQs; [| exact Hin].
  apply posfin_inv in HQs as (x & -> & Hx). simpl in Hb.
  cbn [nmul]. rewrite !ndiv_fin by nra. f_equal. field. split; lra.
Qed.

Lemma transpose_lift_map (f : R -> R) (A : list (list R)) (K : nat) :
  A <> [] -> Forall (fun row => length row = K) A ->
  transpose (lift (map (map f) A))
  = map (fun j => map (fun row => Fin (f (nth j row 0))) A) (seq 0 K).
Proof.
  intros Hne Hrows. unfold transpose, lift.
  assert (Hs : shape1 (map (map Fin) (map (map f) A)) = K).
  { destruct A as [| row A]; [now contradiction Hne |].
    inversion Hrows as [| ? ? Hr _]; subst.
    unfold shape1. simpl. now rewrite !length_map. }
  rewrite Hs. apply map_ext_in. intros j Hj. apply in_seq in Hj.
  unfold column. rewrite !map_map. apply map_ext_in. intros row Hrow.
  eapply Forall_forall in Hrows; [| exact Hrow]. cbv beta in Hrows.
  apply nth_lift_row. lia.
Qed.

Lemma stability_scales (As : list (list (list R))) (e m : R) :
  Forall scores_shape As ->
  map (fun A => transpose (lift (map (map (fun x => exp (x / e + - m))) A))) As
  = scaled (exp (- m))
           (map (fun A =>
                   transpose (lift (map (map (fun x => exp (x / e + - 0))) A)))
                As).
Proof.
  intros H. unfold scaled. rewrite map_map. apply map_ext_in.
  intros A HA. eapply Forall_forall in H; [| exact HA].
  destruct H as [Hne (K & HK & Hrows)].
  rewrite !(transpose_lift_map _ A K Hne Hrows), map_map.
  apply map_ext. intros j. rewrite map_map. apply map_ext. intros row.
  cbn [nmul]. f_equal. rewrite <- exp_plus. f_equal. lra.
Qed.

Lemma plain_Q_posfin (As : list (list (list R))) (e : R) :
  Forall scores_shape As ->
  Forall (Forall (Forall posfin))
         (map (fun A =>
                 transpose (lift (map (map (fun x => exp (x / e + - 0))) A)))
              As).
Proof.
  intros H. apply Forall_map. eapply Forall_impl; [| exact H].
  intros A [Hne (K & HK & Hrows)]. cbv beta.
  apply (transpose_lift_posmat _ A (length A) K); auto.
  - intros x. apply exp_pos.
  - destruct A; [now contradiction Hne | simpl; lia].
Qed.

(** C7.  Real scores at every worker (at least one worker, each with at
    least one sample and one prototype) and a finite nonzero [epsilon]:
    the run with the stability mode on and the run with it off both
    return, and return the same assignments at every worker. *)
Theorem stability_mode_same_assignments
        (args : arguments) (As : list (list (list R))) (bs : nat) (e : R)
        (Heps : epsilon args = Fin e) (He : e <> 0)
        (Hworkers : As <> [])
        (Hshape : Forall scores_shape As) :
  exists qs : list mat,
    get_assignments (with_stability true args) bs (map lift As) = Some qs /\
    get_assignments (with_stability false args) bs (map lift As) = Some qs.
Proof.
  destruct (scores_to_Q_lift (with_stability true args) As e Heps He
                             Hworkers Hshape) as (m & E1 & _).
  destruct (scores_to_Q_lift (with_stability false args) As e Heps He
                             Hworkers Hshape) as (m0 & E0 & Hm0).
  rewrite (Hm0 eq_refl) in E0.
  unfold get_assignments. rewrite E1, E0.
  change (world_size (with_stability true args)) with (world_size args).
  change (world_size (with_stability false args)) with (world_size args).
  change (sinkhorn_iterations (with_stability true args))
    with (sinkhorn_iterations args).
  change (sinkhorn_iterations (with_stability false args))
    with (sinkhorn_iterations args).
  eexists. split; [| reflexivity].
  unfold distributed_sinkhorn, sinkhorn_before_return.
  rewrite (stability_scales As e m Hshape).
  rewrite sinkhorn_normalize_scaled;
    [reflexivity | apply exp_pos | now apply plain_Q_posfin].
Qed.

Lemma stability_mode_same_assignments_witness :
  exists qs : list mat,
    get_assignments (with_stability true demo_args) 2
                    (map lift [[[0; 1]; [1; 0]]; [[1 / 2; 1]; [0; 0]]])
    = Some qs /\
    get_assignments (with_stability false demo_args) 2
                    (map lift [[[0; 1]; [1; 0]]; [[1 / 2; 1]; [0; 0]]])
    = Some qs.
Proof.
  apply (stability_mode_same_assignments
           demo_args [[[0; 1]; [1; 0]]; [[1 / 2; 1]; [0; 0]]] 2 (1 / 20)
           eq_refl).
  - lra.
  - discriminate.
  - repeat (apply Forall_cons;
            [split; [discriminate
                    | exists 2%nat; split; [lia | repeat constructor]] |]).
    apply Forall_nil.
Defined.

(** * Further properties of the modelled code *)

(** With an infinite entry and no NaN, the replacement is the largest
    entry of the zeroed tensor. *)
Lemma shoot_infs_replaces_infinities_core (t : tensor) :
  rank12 t = true ->
  existsb isinf (entries t) = true -> existsb isnan (entries t) = false ->
  exists b : R,
    shoot_infs t = tmap (fun x => if isinf x then Fin b else x) t /\
    In (Fin b) (map zero_inf (entries t)) /\
    (forall y, In (Fin y) (map zero_inf (entries t)) -> y <= b).
Proof.
  intros Hrank Hinf Hnan. rewrite (shoot_infs_eq t Hrank), Hinf.
  destruct (torch_max_fin (map zero_inf (entries t))) as (b & Hb & Hin & Hub).
  - destruct (entries t); [discriminate Hinf | discriminate].
  - now apply zero_inf_finite.
  - exists b. rewrite Hb. auto.
Qed.


(** ** [shoot_infs]: what it leaves behind *)

Lemma shoot_infs2_not_inf (m : mat) :
  existsb isinf (concat (shoot_infs2 m)) = false.
Proof.
  rewrite shoot_infs2_eq. destruct (existsb isinf (concat m)) eqn:E; [| exact E].
  pose proof (zero_inf_not_inf (concat m)) as Hz.
  destruct (map zero_inf (concat m)) as [| x l] eqn:Ez.
  - destruct (concat m); [discriminate E | discriminate Ez].
  - simpl torch_max. simpl in Hz. apply orb_false_iff in Hz as [Hx Hl].
    pose proof (fold_nmax_not_inf l x Hx Hl) as Hm.
    rewrite concat_map_map. clear - Hm.
    induction (concat m) as [| y v IH]; simpl; [reflexivity |].
    rewrite IH. destruct y; simpl; trivial; now rewrite Hm.
Qed.

(** X1.  A second pass of [shoot_infs] changes nothing, whatever the rank
    and the content of the tensor: on a tensor of rank 1 or 2 the first
    pass leaves no infinite entry, with or without a NaN in it. *)
Theorem shoot_infs_idempotent (t : tensor) :
  shoot_infs (shoot_infs t) = shoot_infs t /\
  (rank12 t = true -> existsb isinf (entries (shoot_infs t)) = false).
Proof.
  destruct t as [v | m | f]; simpl.
  - split; [| intros _; apply shoot_infs1_not_inf].
    f_equal. rewrite (shoot_infs1_eq (shoot_infs1 v)).
    now rewrite shoot_infs1_not_inf.
  - split; [| intros _; apply shoot_infs2_not_inf].
    f_equal. rewrite (shoot_infs2_eq (shoot_infs2 m)).
    now rewrite shoot_infs2_not_inf.
  - split; [reflexivity | discriminate].
Qed.

Lemma fold_nmax_zeros (l : vec) :
  (forall x, In x l -> x = Fin 0) -> fold_left nmax l (Fin 0) = Fin 0.
Proof.
  induction l as [| x l IH]; intros H; simpl; [reflexivity |].
  rewrite (H x (or_introl eq_refl)). simpl.
  replace (Rmax 0 0) with 0 by (symmetry; apply Rmax_left; lra).
  apply IH. intros y Hy. apply H. now right.
Qed.

(** X2.  A tensor of rank 1 or 2 whose entries are all infinite comes
    back with every entry zero: the maximum is taken after the entries
    were zeroed. *)
Theorem shoot_infs_all_infinite (t : tensor)
        (Hrank : rank12 t = true)
        (Hall : forallb isinf (entries t) = true) :
  shoot_infs t = tmap (fun _ => Fin 0) t.
Proof.
  rewrite (shoot_infs_eq t Hrank).
  assert (Hin : forall x, In x (entries t) -> isinf x = true)
    by (now apply forallb_forall).
  assert (Hmap : forall m, tmap (fun x => if isinf x then m else x) t
                           = tmap (fun _ => m) t).
  { intros m. destruct t as [v | q | f]; simpl in *; try discriminate.
    - f_equal. apply map_ext_in. intros x Hx. now rewrite (Hin x Hx).
    - f_equal. apply map_ext_in. intros r Hr. apply map_ext_in.
      intros x Hx. rewrite (Hin x); [reflexivity |].
      apply in_concat. eauto. }
  destruct (entries t) as [| x l] eqn:E.
  - simpl. destruct t as [v | q | f]; simpl in *; try discriminate.
    + now subst v.
    + f_equal. rewrite <- (map_id q) at 1. apply map_ext_in.
      intros r Hr. destruct r as [| y r]; [reflexivity |].
      exfalso. assert (In y (concat q)) as Hy
          by (apply in_concat; exists (y :: r); split; [exact Hr | now left]).
      now rewrite E in Hy.
  - assert (Hx : isinf x = true) by (apply Hin; now left).
    cbn [existsb]. rewrite Hx. cbn [orb map torch_max].
    assert (Hzx : zero_inf x = Fin 0) by (unfold zero_inf; now rewrite Hx).
    rewrite Hzx, fold_nmax_zeros; [apply Hmap |].
    intros y Hy. apply in_map_iff in Hy as (z & <- & Hz).
    unfold zero_inf. rewrite (Hin z); [reflexivity | now right].
Qed.

Lemma shoot_infs_all_infinite_witness :
  shoot_infs (T2 [[PInf; NInf]; [NInf; PInf]])
  = T2 [[Fin 0; Fin 0]; [Fin 0; Fin 0]].
Proof.
  apply (shoot_infs_all_infinite (T2 [[PInf; NInf]; [NInf; PInf]])
                                 eq_refl eq_refl).
Defined.

(** X3.  With an infinite entry and no NaN in a tensor of rank 1 or 2,
    the value put in place of the infinite entries is never negative,
    and it is zero unless it is a finite entry of the tensor: a tensor
    whose finite entries are all below zero gets zeros, not its largest
    finite entry. *)
Theorem shoot_infs_replacement_not_negative (t : tensor)
        (Hrank : rank12 t = true)
        (Hinf : existsb isinf (entries t) = true)
        (Hnan : existsb isnan (entries t) = false) :
  exists b : R,
    shoot_infs t = tmap (fun x => if isinf x then Fin b else x) t /\
    0 <= b /\
    (b = 0 \/ In (Fin b) (entries t)) /\
    (forall y, In (Fin y) (entries t) -> y <= b) /\
    ((forall y, In (Fin y) (entries t) -> y < 0) -> b = 0).
Proof.
  destruct (shoot_infs_replaces_infinities_core t Hrank Hinf Hnan)
    as (b & Hs & Hin & Hub).
  exists b. split; [exact Hs |].
  assert (H0 : 0 <= b).
  { apply existsb_exists in Hinf as (x & Hx & Hxi). apply Hub.
    apply in_map_iff. exists x. split; [| exact Hx].
    unfold zero_inf. now rewrite Hxi. }
  assert (Hb : b = 0 \/ In (Fin b) (entries t)).
  { apply in_map_iff in Hin as (x & Hxb & Hx). unfold zero_inf in Hxb.
    destruct (isinf x) eqn:Ex.
    - left. injection Hxb as <-. reflexivity.
    - right. now rewrite <- Hxb. }
  repeat split; trivial.
  - intros y Hy. apply Hub. apply in_map_iff. exists (Fin y).
    split; [reflexivity | exact Hy].
  - intros Hneg. destruct Hb as [-> | Hb]; [reflexivity |].
    specialize (Hneg b Hb). lra.
Qed.

Lemma shoot_infs_replacement_not_negative_witness :
  exists b : R,
    shoot_infs (T1 [Fin (-1); PInf; Fin (-2)])
    = tmap (fun x => if isinf x then Fin b else x) (T1 [Fin (-1); PInf; Fin (-2)])
    /\ b = 0.
Proof.
  destruct (shoot_infs_replacement_not_negative
              (T1 [Fin (-1); PInf; Fin (-2)]) eq_refl eq_refl eq_refl)
    as (b & Hs & _ & _ & _ & Hz).
  exists b. split; [exact Hs |]. apply Hz.
  intros y [Hy | [Hy | [Hy | []]]]; try discriminate;
    injection Hy as <-; lra.
Defined.

(** ** The engine on several workers *)

Lemma transpose_posmat (K N : nat) (Q : mat) :
  (1 <= K)%nat -> posmat K N Q -> posmat N K (transpose Q).
Proof.
  intros HK [[HlenQ Hrows] Hpos]. unfold transpose.
  assert (Hs : shape1 Q = N).
  { destruct Q as [| row Q]; [simpl in HlenQ; lia |].
    inversion Hrows as [| ? ? Hr _]; subst. reflexivity. }
  rewrite Hs. repeat split.
  - now rewrite length_map, length_seq.
  - apply Forall_map. apply Forall_forall. intros j _. unfold column.
    now rewrite length_map.
  - apply Forall_map. apply Forall_forall. intros j Hj. apply in_seq in Hj.
    unfold column. apply Forall_map. apply Forall_forall. intros row Hrow.
    eapply Forall_forall in Hrows; [| exact Hrow]. cbv beta in Hrows.
    eapply Forall_forall in Hpos; [| exact Hrow].
    eapply Forall_forall; [exact Hpos |]. apply nth_In. lia.
Qed.

Lemma sum_dim1_posfin (K N : nat) (Q : mat) :
  (1 <= N)%nat -> posmat K N Q ->
  length (sum_dim1 Q) = K /\ Forall posfin (sum_dim1 Q).
Proof.
  intros HN [[HlenQ Hrows] Hpos]. unfold sum_dim1. split.
  - now rewrite length_map.
  - apply Forall_map. apply Forall_forall. intros row Hin. apply nsum_pos.
    + eapply Forall_forall in Hpos; eauto.
    + eapply Forall_forall in Hrows; eauto. cbv beta in Hrows.
      destruct row; [simpl in Hrows; lia | discriminate].
Qed.

Lemma all_reduce_sum_vec_posfin (K : nat) (us : list vec) :
  us <> [] -> Forall (fun u : vec => length u = K) us ->
  Forall (Forall posfin) us ->
  length (all_reduce_sum_vec us) = K /\ Forall posfin (all_reduce_sum_vec us).
Proof.
  intros Hne Hlen Hpos. unfold all_reduce_sum_vec.
  destruct us as [| u us]; [now contradiction Hne |].
  rewrite (sum_dim0_vsum K) by exact Hlen. split.
  - now apply length_vsum.
  - now apply vsum_posfin.
Qed.

Lemma all_reduce_sum_const (x : R) (Qs : list mat) :
  Forall (fun Q : mat => sum_all Q = Fin x) Qs ->
  all_reduce_sum (map sum_all Qs) = Fin (INR (length Qs) * x).
Proof.
  unfold all_reduce_sum, nsum. induction 1 as [| Q Qs HQ HQs IH].
  - simpl. f_equal. lra.
  - cbn [map fold_right length]. rewrite IH, HQ, S_INR. simpl. f_equal. lra.
Qed.

Lemma combine_repeat {A B : Type} (x : A) (l : list B) :
  combine (repeat x (length l)) l = map (fun y : B => (x, y)) l.
Proof.
  induction l as [| y l IH]; [reflexivity |]. simpl. now rewrite IH.
Qed.

Section ManyWorkers.

(** [W] workers, each with [K] prototypes and [N] samples, and
    [world_size = W]. *)
Variables K N W : nat.
Hypothesis HK : (1 <= K)%nat.
Hypothesis HN : (1 <= N)%nat.
Hypothesis HW : (1 <= W)%nat.

Let r : vec := uniform_r K.
Let c : vec := uniform_c W N.

Lemma marginals_many (Q : mat) :
  posmat K N Q ->
  marginal_r Q = r /\ marginal_c (Z.of_nat W) Q = c.
Proof.
  intros HQ. destruct (posmat_shape K N HK HN Q HQ) as [H0 H1].
  unfold marginal_r, marginal_c, r, c, uniform_r, uniform_c.
  now rewrite H0, H1.
Qed.

Lemma marginal_c_value : c = repeat (Fin (1 / (INR W * INR N))) N.
Proof.
  unfold c, uniform_c, ones_div, of_Z. rewrite mult_IZR, <- !INR_IZR_INZ.
  assert (0 < INR W) by (apply lt_0_INR; lia).
  assert (0 < INR N) by (apply lt_0_INR; lia).
  rewrite ndiv_fin by nra. reflexivity.
Qed.

Lemma marginals_many_pos :
  (length r = K /\ Forall posfin r) /\
  (length c = N /\ Forall posfin c /\ nsum c = Fin (1 / INR W)).
Proof.
  assert (HKr : 0 < INR K) by (apply lt_0_INR; lia).
  assert (HNr : 0 < INR N) by (apply lt_0_INR; lia).
  assert (HWr : 0 < INR W) by (apply lt_0_INR; lia).
  destruct (ones_div_pos K (INR K) HKr) as (A1 & A2 & _).
  split; [split; assumption |].
  rewrite marginal_c_value. split; [apply repeat_length |]. split.
  - apply Forall_forall. intros a ->%repeat_spec. simpl.
    apply Rdiv_lt_0_compat; nra.
  - rewrite nsum_repeat_fin. f_equal. field. split; lra.
Qed.

(** Lines 406-411 at one worker, [u] being any positive reduced row
    sums. *)
Lemma sinkhorn_local_posmat_many (u : vec) (Q : mat) :
  length u = K -> Forall posfin u -> posmat K N Q ->
  posmat K N (sinkhorn_local u ((r, c), Q)) /\
  sum_dim0 (sinkhorn_local u ((r, c), Q)) = c.
Proof.
  intros Hul Hu HQ. unfold sinkhorn_local.
  destruct marginals_many_pos as [[Hr Hrp] (Hc & Hcp & _)].
  destruct HQ as [[HlenQ Hrows] Hpos].
  assert (Hv : Forall posfin (vmap2 ndiv r u))
    by exact (Forall_vmap2 posfin posfin posfin ndiv ndiv_pos _ _ Hrp Hu).
  assert (Hf : Forall posfin (row_factors r u)).
  { unfold row_factors. now rewrite shoot_infs1_posfin. }
  assert (Hfl : length (row_factors r u) = K).
  { unfold row_factors. rewrite shoot_infs1_posfin by exact Hv.
    rewrite length_vmap2, Hr, Hul. apply Nat.min_id. }
  pose proof (posmat_scale_rows K N _ Q (conj (conj HlenQ Hrows) Hpos) Hfl Hf)
    as HQ1.
  set (Q1 := scale_rows (row_factors r u) Q) in *.
  destruct HQ1 as [[HlenQ1 Hrows1] Hpos1].
  destruct Q1 as [| row1 Q1'] eqn:EQ1; [simpl in HlenQ1; lia |].
  rewrite <- EQ1 in *.
  assert (Hs : sum_dim0 Q1 = vsum N Q1).
  { rewrite EQ1. apply sum_dim0_vsum. now rewrite <- EQ1. }
  assert (Hsp : Forall posfin (vsum N Q1)).
  { rewrite EQ1. apply vsum_posfin. now rewrite <- EQ1. }
  assert (Hsl : length (vsum N Q1) = N) by now apply length_vsum.
  assert (Hg : Forall posfin (col_factors c Q1)).
  { unfold col_factors. rewrite Hs.
    exact (Forall_vmap2 posfin posfin posfin ndiv ndiv_pos _ _ Hcp Hsp). }
  assert (Hgl : length (col_factors c Q1) = N).
  { unfold col_factors. rewrite Hs, length_vmap2, Hc, Hsl. apply Nat.min_id. }
  pose proof (posmat_scale_cols K N _ Q1 (conj (conj HlenQ1 Hrows1) Hpos1)
                                Hgl Hg) as HQ2.
  split; [exact HQ2 |].
  destruct HQ2 as [[HlenQ2 Hrows2] Hpos2].
  destruct (scale_cols (col_factors c Q1) Q1) as [| row2 Q2'] eqn:EQ2;
    [simpl in HlenQ2; lia |].
  rewrite (sum_dim0_vsum N) by exact Hrows2.
  rewrite <- EQ2, vsum_scale_cols by assumption.
  unfold col_factors. rewrite Hs. apply vmap2_mul_div; auto. lia.
Qed.

Lemma iter_many (Qs : list mat) :
  workers_ok K N W Qs ->
  workers_ok K N W (sinkhorn_iter (repeat (r, c) W) Qs) /\
  Forall (fun Q : mat => sum_dim0 Q = c)
         (sinkhorn_iter (repeat (r, c) W) Qs).
Proof.
  intros [HlenQs HQs]. unfold sinkhorn_iter.
  set (u := all_reduce_sum_vec (map sum_dim1 Qs)).
  assert (Hu : length u = K /\ Forall posfin u).
  { apply all_reduce_sum_vec_posfin.
    - destruct Qs; [simpl in HlenQs; lia | discriminate].
    - apply Forall_map. eapply Forall_impl; [| exact HQs].
      intros Q HQ. now apply (sum_dim1_posfin K N Q HN).
    - apply Forall_map. eapply Forall_impl; [| exact HQs].
      intros Q HQ. now apply (sum_dim1_posfin K N Q HN). }
  destruct Hu as [Hul Hup].
  pose proof (combine_repeat (r, c) Qs) as Hcomb. rewrite HlenQs in Hcomb.
  rewrite Hcomb, map_map. repeat split.
  - now rewrite length_map.
  - apply Forall_map. eapply Forall_impl; [| exact HQs].
    intros Q HQ. now apply sinkhorn_local_posmat_many.
  - apply Forall_map. eapply Forall_impl; [| exact HQs].
    intros Q HQ. now apply sinkhorn_local_posmat_many.
Qed.

Lemma column_sums_total (Qs : list mat) :
  workers_ok K N W Qs -> Forall (fun Q : mat => sum_dim0 Q = c) Qs ->
  all_reduce_sum (map sum_all Qs) = Fin 1.
Proof.
  intros [HlenQs HQs] Hcols.
  destruct marginals_many_pos as [_ (_ & _ & Hc1)].
  rewrite (all_reduce_sum_const (1 / INR W)).
  - rewrite HlenQs. f_equal. field.
    assert (0 < INR W) by (apply lt_0_INR; lia). lra.
  - apply Forall_forall. intros Q HQ.
    eapply Forall_forall in HQs; [| exact HQ].
    eapply Forall_forall in Hcols; [| exact HQ]. cbv beta in Hcols.
    destruct HQs as [[HlenQ Hrows] _].
    rewrite <- (nsum_vsum N) by exact Hrows.
    destruct Q as [| row Q']; [simpl in HlenQ; lia |].
    rewrite <- (sum_dim0_vsum N) by exact Hrows.
    now rewrite Hcols.
Qed.

Lemma loop_many (n : nat) :
  forall Qs : list mat,
    workers_ok K N W Qs -> all_reduce_sum (map sum_all Qs) = Fin 1 ->
    workers_ok K N W (sinkhorn_loop (repeat (r, c) W) Qs n) /\
    all_reduce_sum (map sum_all (sinkhorn_loop (repeat (r, c) W) Qs n))
    = Fin 1 /\
    ((1 <= n)%nat ->
     Forall (fun Q : mat => sum_dim0 Q = c)
            (sinkhorn_loop (repeat (r, c) W) Qs n)).
Proof.
  induction n as [| n IH]; intros Qs HQs Hsum.
  - simpl. repeat split; try apply HQs; [exact Hsum | lia].
  - cbn [sinkhorn_loop]. destruct (iter_many Qs HQs) as [Hok Hcols].
    destruct (IH _ Hok (column_sums_total _ Hok Hcols)) as (H1 & H2 & H3).
    split; [exact H1 |]. split; [exact H2 |]. intros _.
    destruct n as [| n']; [exact Hcols | apply H3; lia].
Qed.

Lemma normalize_many (Qs : list mat) :
  workers_ok K N W Qs ->
  workers_ok K N W (sinkhorn_normalize Qs) /\
  all_reduce_sum (map sum_all (sinkhorn_normalize Qs)) = Fin 1.
Proof.
  intros [HlenQs HQs].
  assert (Hpos : Forall (Forall (Forall posfin)) Qs).
  { eapply Forall_impl; [| exact HQs]. intros Q [_ HQ]. exact HQ. }
  destruct Qs as [| Q0 Qs']; [simpl in HlenQs; lia |].
  set (Qs := Q0 :: Qs') in *.
  destruct (global_sum_scaled 1 Qs Hpos) as (S & HS & E & _ & Hb).
  assert (HSpos : 0 < S).
  { inversion HQs as [| ? ? HQ0 _]; subst.
    pose proof (posmat_concat_nonempty K N HK HN Q0 HQ0) as Hne.
    destruct (concat Q0) as [| b l] eqn:Ec; [now contradiction Hne |].
    assert (Hin : In b (concat Q0)) by (rewrite Ec; now left).
    apply in_concat in Hin as (row & Hrow & Hbrow).
    specialize (Hb Q0 row b (or_introl eq_refl) Hrow Hbrow).
    destruct HQ0 as [_ Hp0].
    eapply Forall_forall in Hp0; [| exact Hrow].
    eapply Forall_forall in Hp0; [| exact Hbrow].
    apply posfin_inv in Hp0 as (x & -> & Hx). simpl in Hb. lra. }
  unfold sinkhorn_normalize.
  assert (Hid : map shoot_infs2 Qs = Qs).
  { rewrite <- (map_id Qs) at 2. apply map_ext_in.
    intros P HP. apply shoot_infs2_posfin.
    eapply Forall_forall in Hpos; eauto. }
  rewrite Hid, E. clearbody Qs.
  assert (Hdiv : map (fun Q : mat => div_scalar Q (Fin S)) Qs
                 = scaled (1 / S) Qs).
  { unfold scaled, div_scalar. apply map_ext_in. intros Q HQ.
    apply map_ext_in. intros row Hrow. apply map_ext_in. intros b Hin.
    eapply Forall_forall in Hpos; [| exact HQ].
    eapply Forall_forall in Hpos; [| exact Hrow].
    eapply Forall_forall in Hpos; [| exact Hin].
    apply posfin_inv in Hpos as (x & -> & Hx).
    rewrite ndiv_fin by lra. simpl. f_equal. field. lra. }
  split.
  - split; [now rewrite length_map |].
    apply Forall_map. eapply Forall_impl; [| exact HQs].
    intros Q HQ. now apply posmat_div_scalar.
  - rewrite Hdiv.
    destruct (global_sum_scaled (1 / S) Qs Hpos) as (S' & _ & E' & E2 & _).
    rewrite E2. rewrite E in E'. injection E' as <-. f_equal. field. lra.
Qed.

End ManyWorkers.

Lemma map_const_repeat {A B : Type} (f : A -> B) (y : B) (l : list A) :
  (forall x, In x l -> f x = y) -> map f l = repeat y (length l).
Proof.
  induction l as [| x l IH]; intros H; [reflexivity |].
  simpl. rewrite (H x (or_introl eq_refl)). f_equal.
  apply IH. intros z Hz. apply H. now right.
Qed.

Lemma global_mass_many_core (K N W : nat) (Qs : list mat) (nmb_iters : Z) :
  (1 <= K)%nat -> (1 <= N)%nat -> (1 <= W)%nat -> workers_ok K N W Qs ->
  workers_ok K N W (sinkhorn_before_return (Z.of_nat W) Qs nmb_iters).
Proof.
  intros HK HN HW HQs.
  destruct (normalize_many K N W HK HN HW Qs HQs) as [Hok Hsum].
  unfold sinkhorn_before_return.
  set (Qs0 := sinkhorn_normalize Qs) in *.
  assert (Hrc : map (fun Q : mat => (marginal_r Q, marginal_c (Z.of_nat W) Q))
                    Qs0
                = repeat (uniform_r K, uniform_c W N) W).
  { destruct Hok as [Hlen HP]. rewrite <- Hlen. apply map_const_repeat.
    intros Q HQ. eapply Forall_forall in HP; [| exact HQ].
    destruct (marginals_many K N (length Qs0) HK HN Q HP) as [-> ->].
    reflexivity. }
  rewrite Hrc.
  apply (loop_many K N W HK HN HW (Z.to_nat nmb_iters) Qs0 Hok Hsum).
Qed.



(** ** The returned assignments *)

Lemma vmap2_div_as_mul (s : vec) :
  forall row : vec,
    Forall posfin row -> Forall posfin s ->
    vmap2 ndiv row s
    = vmap2 nmul row (vmap2 ndiv (repeat (Fin 1) (length s)) s).
Proof.
  unfold vmap2. induction s as [| y s IH]; intros [| x row] Hrow Hs;
    try reflexivity.
  inversion Hrow as [| ? ? Hx Hrow']; subst.
  inversion Hs as [| ? ? Hy Hs']; subst.
  cbn [length repeat combine map fst snd]. rewrite (IH row Hrow' Hs'). f_equal.
  apply posfin_inv in Hx as (x' & -> & Hx).
  apply posfin_inv in Hy as (y' & -> & Hy).
  rewrite !ndiv_fin by lra. simpl. f_equal. field. lra.
Qed.

Lemma repeat_ones_posfin (n : nat) : Forall posfin (repeat (Fin 1) n).
Proof. apply Forall_forall. intros a ->%repeat_spec. simpl. lra. Qed.

Lemma sinkhorn_return_rows (K N : nat) (P : mat) :
  (1 <= K)%nat -> posmat K N P ->
  posmat N K (sinkhorn_return P) /\
  sum_dim1 (sinkhorn_return P) = repeat (Fin 1) N.
Proof.
  intros HK HP. pose proof HP as [[HlenP Hrows] Hpos].
  destruct P as [| row0 P'] eqn:EP; [simpl in HlenP; lia |].
  rewrite <- EP in *.
  assert (Hs : sum_dim0 P = vsum N P).
  { rewrite EP. apply sum_dim0_vsum. now rewrite <- EP. }
  assert (Hsp : Forall posfin (vsum N P)).
  { rewrite EP. apply vsum_posfin. now rewrite <- EP. }
  assert (Hsl : length (vsum N P) = N) by now apply length_vsum.
  set (f := vmap2 ndiv (repeat (Fin 1) N) (vsum N P)).
  assert (Hfp : Forall posfin f).
  { exact (Forall_vmap2 posfin posfin posfin ndiv ndiv_pos _ _
                        (repeat_ones_posfin N) Hsp). }
  assert (Hfl : length f = N).
  { unfold f. rewrite length_vmap2, repeat_length, Hsl. apply Nat.min_id. }
  assert (Hd : div_cols P (sum_dim0 P) = scale_cols f P).
  { unfold div_cols, scale_cols, f. rewrite Hs. apply map_ext_in.
    intros row Hrow. eapply Forall_forall in Hpos; [| exact Hrow].
    rewrite (vmap2_div_as_mul _ row Hpos Hsp). now rewrite Hsl. }
  pose proof (posmat_scale_cols K N f P HP Hfl Hfp) as HD.
  unfold sinkhorn_return. rewrite Hd.
  split; [now apply transpose_posmat |].
  change (sum_dim1 (transpose (scale_cols f P)))
    with (sum_dim0 (scale_cols f P)).
  destruct HD as [[HlenD HrowsD] _].
  destruct (scale_cols f P) as [| rowD D'] eqn:ED;
    [simpl in HlenD; lia |].
  rewrite (sum_dim0_vsum N) by exact HrowsD.
  rewrite <- ED, vsum_scale_cols by assumption.
  unfold f. apply vmap2_mul_div; auto.
  - now rewrite repeat_length.
  - apply repeat_ones_posfin.
Qed.

Lemma In_slice_last {A : Type} (n : nat) (l : list A) (x : A) :
  In x (slice_last n l) -> In x l.
Proof.
  destruct n as [| n]; simpl; [trivial |].
  intros H. rewrite <- (firstn_skipn (length l - S n) l).
  apply in_or_app. now right.
Qed.





(** ** The queue: warm-up, capacity and shape *)

Lemma forallb_eq_zero_zeros (D : nat) : forallb eq_zero (repeat (Fin 0) D) = true.
Proof.
  induction D as [| D IH]; [reflexivity |].
  cbn [repeat forallb]. now rewrite eq_zero_fin0, IH.
Qed.

Lemma last_app_nonempty {A : Type} (a b : list A) (d : A) :
  b <> [] -> last (a ++ b) d = last b d.
Proof.
  intros Hb. induction a as [| x a IH]; [reflexivity |].
  simpl app. cbn [last]. destruct (a ++ b) eqn:E; [| exact IH].
  apply app_eq_nil in E as [_ ->]. now contradiction Hb.
Qed.

Lemma last_row_nonzero_app (a b : mat) :
  b <> [] ->
  last_row_nonzero (a ++ b) = Some (negb (forallb eq_zero (last b []))).
Proof.
  intros Hb. unfold last_row_nonzero.
  destruct (a ++ b) as [| x l] eqn:E.
  - apply app_eq_nil in E as [_ ->]. now contradiction Hb.
  - rewrite <- E. now rewrite last_app_nonempty.
Qed.

(** X7.  A fresh all-zero buffer of [k] batches of [bs] rows of [D]
    entries, filled with batches of [bs] rows of [D] entries, stays cold
    while fewer than [k] batches have been pushed; once [k] batches are
    in, its last row is the last row of the first batch pushed, so the
    buffer is warm exactly when that row has a nonzero entry. *)
Theorem queue_warm_after_capacity_pushes
        (bs k D : nat) (batches : list mat)
        (Hbs : (0 < bs)%nat) (Hk : (0 < k)%nat)
        (Hall : Forall (rect bs D) batches)
        (Hn : (length batches <= k)%nat) :
  exists buf,
    fill_many bs (repeat (repeat (Fin 0) D) (k * bs)) batches = Some buf /\
    rect (k * bs) D buf /\
    ((length batches < k)%nat -> last_row_nonzero buf = Some false) /\
    (forall b1 rest,
        batches = b1 :: rest -> length batches = k ->
        last_row_nonzero buf = Some (negb (forallb eq_zero (last b1 [])))).
Proof.
  assert (Hzw : Forall (fun row : vec => length row = D)
                       (repeat (repeat (Fin 0) D) (k * bs))).
  { apply Forall_forall. intros row ->%repeat_spec. apply repeat_length. }
  assert (Hcw : Forall (fun row : vec => length row = D)
                       (concat (rev batches))).
  { apply Forall_concat, Forall_rev. eapply Forall_impl; [| exact Hall].
    intros b [_ Hb]. exact Hb. }
  assert (Hcl : length (concat (rev batches)) = (length batches * bs)%nat).
  { clear Hn Hcw. induction Hall as [| b rest [Hb _] _ IH]; [reflexivity |].
    cbn [rev]. rewrite concat_app, length_app, IH. cbn [concat length].
    rewrite app_nil_r, Hb. lia. }
  exists (concat (rev batches)
          ++ firstn (k * bs - length batches * bs)
                    (repeat (repeat (Fin 0) D) (k * bs))).
  split; [| split].
  - rewrite (fill_many_shift bs D batches Hbs Hall _ Hzw)
      by (rewrite repeat_length; nia).
    now rewrite repeat_length.
  - split.
    + rewrite length_app, Hcl, length_firstn, repeat_length. nia.
    + apply Forall_app. split; [exact Hcw | now apply Forall_firstn].
  - split.
    + intros Hlt. rewrite firstn_repeat.
      destruct (Nat.min (k * bs - length batches * bs) (k * bs)) as [| n] eqn:E;
        [nia |].
      rewrite last_row_nonzero_app by discriminate.
      replace (S n) with (n + 1)%nat by lia.
      rewrite repeat_app. cbn [repeat]. rewrite last_last.
      now rewrite forallb_eq_zero_zeros.
    + intros b1 rest -> Hlen. rewrite Hlen, Nat.sub_diag, firstn_O, app_nil_r.
      cbn [rev]. rewrite concat_app. cbn [concat]. rewrite app_nil_r.
      apply last_row_nonzero_app.
      inversion Hall as [| ? ? [Hb1 _] _]; subst.
      destruct b1; [simpl in Hbs; lia | discriminate].
Qed.

Lemma queue_warm_after_capacity_pushes_witness :
  exists buf,
    fill_many 1 (repeat (repeat (Fin 0) 2) (2 * 1)) [[[Fin 1; Fin 2]]]
    = Some buf /\
    last_row_nonzero buf = Some false.
Proof.
  destruct (queue_warm_after_capacity_pushes
              1 2 2 [[[Fin 1; Fin 2]]] ltac:(lia) ltac:(lia)
              ltac:(repeat constructor) ltac:(simpl; lia))
    as (buf & E & _ & Hcold & _).
  exists buf. split; [exact E | apply Hcold; simpl; lia].
Defined.

(** X8.  With a positive batch size and world size, line 230 leaves a
    length that the world size divides, and the capacity of a worker's
    buffer, [queue_length // world_size], is a whole number of batches
    (line 229: "the queue needs to be divisible by the batch size"). *)
Theorem worker_capacity_whole_batches (ql bsz ws : Z)
        (Hb : (0 < bsz)%Z) (Hw : (0 < ws)%Z) :
  exists ql',
    truncate_queue_length ql bsz ws = Some ql' /\
    (ql' = ws * (ql' / ws))%Z /\
    (ql' / ws = bsz * (ql / (bsz * ws)))%Z /\
    ((0 < ql')%Z -> (bsz <= ql' / ws)%Z).
Proof.
  unfold truncate_queue_length.
  destruct (Z.eqb_spec (bsz * ws) 0) as [E | _]; [nia |].
  exists (ql - ql mod (bsz * ws))%Z. split; [reflexivity |].
  assert (Hm : (0 < bsz * ws)%Z) by nia.
  pose proof (Z.div_mod ql (bsz * ws) ltac:(lia)) as Hd.
  set (q := (ql / (bsz * ws))%Z) in *.
  assert (Hq : (ql - ql mod (bsz * ws) = bsz * q * ws)%Z)
    by (transitivity (bsz * ws * q)%Z; [lia | ring]).
  rewrite Hq, Z.div_mul by lia.
  split; [ring |]. split; [reflexivity |]. intros Hpos.
  clearbody q. clear Hd Hq.
  assert (Hq1 : (0 < q)%Z).
  { destruct (Z.lt_ge_cases 0 q) as [H | H]; [exact H |].
    assert (bsz * q <= 0)%Z by nia. nia. }
  nia.
Qed.

Lemma worker_capacity_whole_batches_witness :
  exists ql',
    truncate_queue_length 3840 64 8 = Some ql' /\
    (ql' / 8 = 64 * (3840 / (64 * 8)))%Z.
Proof.
  destruct (worker_capacity_whole_batches 3840 64 8 ltac:(lia) ltac:(lia))
    as (ql' & E & _ & H & _).
  exists ql'. split; [exact E | exact H].
Defined.

Lemma broadcast_rows_length (n w : nat) (src rows : mat) :
  broadcast_rows n w src = Some rows -> length rows = n.
Proof.
  unfold broadcast_rows. destruct (broadcast_cols w src) as [src' |];
    [| discriminate].
  destruct (Nat.eqb_spec (length src') n) as [E | _].
  - intros H. now injection H as <-.
  - destruct src' as [| row [| ? ?]]; try discriminate.
    intros H. injection H as <-. apply repeat_length.
Qed.

Lemma fill_queue_length (bs : nat) (buf new_rows buf' : mat) :
  fill_queue bs buf new_rows = Some buf' -> length buf' = length buf.
Proof.
  unfold fill_queue, assign_from, assign_upto.
  destruct buf as [| row0 rest] eqn:Ebuf; [discriminate |].
  rewrite <- Ebuf. cbv zeta. generalize (length row0). intros w.
  destruct (broadcast_rows (length (skipn bs buf)) w _) as [rows |] eqn:E1;
    [| discriminate].
  apply broadcast_rows_length in E1.
  destruct (broadcast_rows _ w new_rows) as [rows2 |] eqn:E2; [| discriminate].
  apply broadcast_rows_length in E2.
  intros H. injection H as <-.
  rewrite length_app, E2, length_skipn, length_firstn, length_app, E1.
  rewrite length_firstn, length_skipn. lia.
Qed.

Lemma set_nth_shape (i : nat) (buf' : mat) :
  forall (qu : queue_t) (buf : mat),
    nth_error qu i = Some buf -> length buf' = length buf ->
    map (@length vec) (set_nth i buf' qu) = map (@length vec) qu.
Proof.
  induction i as [| i IH]; intros [| b qu] buf H Hl; try discriminate;
    simpl in *.
  - injection H as ->. now rewrite Hl.
  - f_equal. eapply IH; eauto.
Qed.

Lemma queue_step_shape (d : step_data) (st st' : queue_state)
      (ic : nat * nat) (tr : crop_trace) :
  queue_step d st ic = Some (st', tr) ->
  option_map (map (@length vec)) (queue st')
  = option_map (map (@length vec)) (queue st).
Proof.
  unfold queue_step. destruct ic as [i c].
  destruct st as [use [qu |]]; cbn [queue use_the_queue].
  - destruct (nth_error qu i) as [buf |] eqn:En; [| discriminate].
    destruct (if use then Some true else last_row_nonzero buf); [| discriminate].
    destruct (fill_queue _ buf _) as [buf' |] eqn:Ef; [| discriminate].
    intros H. injection H as <- <-. cbn [queue option_map]. f_equal.
    eapply set_nth_shape; [exact En |]. eapply fill_queue_length; eauto.
  - intros H. now injection H as <- <-.
Qed.

Lemma queue_crops_shape (d : step_data) (ics : list (nat * nat)) :
  forall (st st' : queue_state) (trs : list crop_trace),
    queue_crops d st ics = Some (st', trs) ->
    option_map (map (@length vec)) (queue st')
    = option_map (map (@length vec)) (queue st).
Proof.
  induction ics as [| ic rest IH]; intros st st' trs H; simpl in H.
  - now injection H as <- <-.
  - destruct (queue_step d st ic) as [[st1 tr] |] eqn:E; [| discriminate].
    destruct (queue_crops d st1 rest) as [[st2 trs2] |] eqn:E2; [| discriminate].
    injection H as <- <-.
    rewrite (IH _ _ _ E2). eapply queue_step_shape; eauto.
Qed.

Lemma queue_iters_shape (args : arguments) (batches : list step_data) :
  forall (st st' : queue_state) (trss : list (list crop_trace)),
    queue_iters args st batches = Some (st', trss) ->
    option_map (map (@length vec)) (queue st')
    = option_map (map (@length vec)) (queue st).
Proof.
  induction batches as [| d rest IH]; intros st st' trss H; simpl in H.
  - now injection H as <- <-.
  - destruct (queue_crops d st _) as [[st1 trs] |] eqn:E; [| discriminate].
    destruct (queue_iters args st1 rest) as [[st2 trss2] |] eqn:E2;
      [| discriminate].
    injection H as <- <-.
    rewrite (IH _ _ _ E2). eapply queue_crops_shape; eauto.
Qed.

(** X9.  A call of [train] that returns hands back a queue of the shape
    it was given: no queue if there was none, and otherwise the same
    number of groups with the same number of rows in each buffer. *)
Theorem train_keeps_queue_shape
        (args : arguments) (batches : list step_data)
        (qu qu' : option queue_t) (trss : list (list crop_trace))
        (Hrun : train args batches qu = Some (trss, qu')) :
  option_map (map (@length vec)) qu' = option_map (map (@length vec)) qu /\
  length trss = length batches.
Proof.
  unfold train in Hrun.
  destruct (queue_iters args _ batches) as [[st trss'] |] eqn:E;
    [| discriminate].
  injection Hrun as <- <-. split.
  - exact (queue_iters_shape _ _ _ _ _ E).
  - clear - E. revert E. generalize {| use_the_queue := false; queue := qu |}.
    revert st trss'. induction batches as [| d rest IH];
      intros st trss' st0 E; simpl in E.
    + now injection E as <- <-.
    + destruct (queue_crops d st0 _) as [[st1 trs] |]; [| discriminate].
      destruct (queue_iters args st1 rest) as [[st2 trss2] |] eqn:E2;
        [| discriminate].
      injection E as <- <-. simpl. f_equal. eapply IH; eauto.
Qed.

Lemma train_keeps_queue_shape_witness :
  exists trss qu',
    train demo_args (demo_data 0) (Some [[[Fin 0]]]) = Some (trss, qu') /\
    option_map (map (@length vec)) qu' = Some [1%nat].
Proof.
  assert (Hrun : train demo_args (demo_data 0) (Some [[[Fin 0]]])
                 = Some ([[{| used_queue := false; out_scores := [[Fin 1]] |}];
                          [{| used_queue := true;
                              out_scores := [[Fin (1 * 1 + 0)]; [Fin 0]] |}]],
                         Some [[[Fin 0]]])).
  { unfold train, demo_data, demo_args, demo_batch. cbn.
    r_decide. cbn. r_decide. reflexivity. }
  eexists. eexists. split; [exact Hrun |].
  exact (proj1 (train_keeps_queue_shape _ _ _ _ _ Hrun)).
Defined.

(** ** [train] and [main] without a queue *)

Lemma queue_crops_no_queue (d : step_data) (use : bool)
      (ics : list (nat * nat)) :
  queue_crops d {| use_the_queue := use; queue := None |} ics
  = Some ({| use_the_queue := use; queue := None |},
          map (fun ic : nat * nat =>
                 {| used_queue := false;
                    out_scores := chunk (bs d) (snd ic) (output d) |}) ics).
Proof.
  induction ics as [| [i c] rest IH]; [reflexivity |].
  cbn [queue_crops queue_step queue map snd]. now rewrite IH.
Qed.

Lemma map_snd_enumerate {A B : Type} (f : A -> B) (l : list A) :
  map (fun ic : nat * A => f (snd ic)) (enumerate l) = map f l.
Proof.
  unfold enumerate. generalize 0%nat.
  induction l as [| a l IH]; intros s; [reflexivity |].
  cbn [length seq combine map snd]. now rewrite IH.
Qed.

Lemma queue_iters_no_queue (args : arguments) (use : bool)
      (batches : list step_data) :
  queue_iters args {| use_the_queue := use; queue := None |} batches
  = Some ({| use_the_queue := use; queue := None |},
          map (fun d : step_data =>
                 map (fun c : nat =>
                        {| used_queue := false;
                           out_scores := chunk (bs d) c (output d) |})
                     (crops_for_assign args)) batches).
Proof.
  induction batches as [| d rest IH]; [reflexivity |].
  cbn [queue_iters map]. rewrite queue_crops_no_queue, IH.
  now rewrite (map_snd_enumerate
                 (fun c : nat =>
                    {| used_queue := false;
                       out_scores := chunk (bs d) c (output d) |})).
Qed.

(** X10.  Without a queue a call of [train] always returns, hands back no
    queue, and every pass goes to the assignment with the scores of its
    own crop only, whatever the batches hold. *)
Theorem train_without_queue (args : arguments) (batches : list step_data) :
  train args batches None
  = Some (map (fun d : step_data =>
                 map (fun c : nat =>
                        {| used_queue := false;
                           out_scores := chunk (bs d) c (output d) |})
                     (crops_for_assign args)) batches,
          None).
Proof.
  unfold train. now rewrite queue_iters_no_queue.
Qed.

Lemma train_none_iff (args : arguments) (batches : list step_data)
      (qu qu' : option queue_t) (trss : list (list crop_trace)) :
  train args batches qu = Some (trss, qu') -> (qu' = None <-> qu = None).
Proof.
  unfold train.
  destruct (queue_iters args _ batches) as [[st trss'] |] eqn:E;
    [| discriminate].
  intros H. injection H as <- <-.
  pose proof (queue_iters_shape _ _ _ _ _ E) as Hs. cbn [queue] in Hs.
  destruct (queue st), qu; simpl in Hs; split; intros H;
    try discriminate; reflexivity.
Qed.

Lemma start_queue_none_iff (args : arguments) (ql epoch : Z)
      (qu qu1 : option queue_t) :
  start_queue args ql epoch qu = Some qu1 ->
  (qu1 = None <->
   qu = None /\ ((ql <= 0)%Z \/ (epoch < epoch_queue_starts args)%Z)).
Proof.
  unfold start_queue.
  destruct (Z.ltb_spec 0 ql) as [Hql | Hql];
    destruct (Z.leb_spec (epoch_queue_starts args) epoch) as [He | He];
    destruct qu as [q |]; cbn [andb is_none];
    try solve [intros E; injection E as <-; split;
               [intros E'; first [discriminate E' | split; [reflexivity | lia]]
               | intros [E' _]; first [discriminate E' | reflexivity]]].
  destruct (Z.eqb (world_size args) 0); [discriminate |].
  destruct (zeros _ _ _); [| discriminate].
  intros E. injection E as <-.
  split; [discriminate | intros [_ [Hc | Hc]]; lia].
Qed.

Lemma main_epochs_activation (args : arguments) (ql : Z)
      (data : Z -> list step_data) (n : nat) :
  forall (epoch : Z) (qu : option queue_t) (trs : list epoch_trace),
    qu = None \/ ((0 < ql)%Z /\ (epoch_queue_starts args < epoch)%Z) ->
    main_epochs args ql data n epoch qu = Some trs ->
    Forall (fun t : epoch_trace =>
              queue_in t = None <->
              ((ql <= 0)%Z \/ (epoch_no t < epoch_queue_starts args)%Z)) trs /\
    map epoch_no trs = map (fun i : nat => (epoch + Z.of_nat i)%Z) (seq 0 n).
Proof.
  induction n as [| k IH]; intros epoch qu trs Hinv H; cbn [main_epochs] in H.
  - injection H as <-. split; [constructor | reflexivity].
  - destruct (start_queue args ql epoch qu) as [qu1 |] eqn:Es; [| discriminate].
    destruct (train args (data epoch) qu1) as [[trss qu2] |] eqn:Et;
      [| discriminate].
    destruct (main_epochs args ql data k (epoch + 1)%Z qu2) as [rest |] eqn:Em;
      [| discriminate].
    injection H as <-.
    pose proof (start_queue_none_iff _ _ _ _ _ Es) as Hs.
    pose proof (train_none_iff _ _ _ _ _ Et) as Ht.
    assert (Hinv' : qu2 = None \/
                    ((0 < ql)%Z /\ (epoch_queue_starts args < epoch + 1)%Z)).
    { destruct qu2 as [q2 |]; [right | now left].
      destruct qu1 as [q1 |]; [| now (destruct Ht as [_ Ht]; specialize (Ht eq_refl))].
      destruct qu as [q |].
      - destruct Hinv as [Hn | [H1 H2]]; [discriminate | lia].
      - destruct (Z.ltb_spec 0 ql); destruct (Z.leb_spec (epoch_queue_starts args) epoch);
          try lia;
          (destruct Hs as [_ Hs]; discriminate Hs; split; [reflexivity | lia]). }
    destruct (IH _ _ _ Hinv' Em) as [Hall Hno]. split.
    + constructor; [| exact Hall]. cbn [queue_in epoch_no]. split.
      * intros ->. now apply Hs.
      * intros Hc. apply Hs. split; [| exact Hc].
        destruct Hinv as [Hn | [H1 H2]]; [exact Hn | lia].
    + cbn [map seq epoch_no]. f_equal; [lia |].
      rewrite Hno, <- seq_shift, map_map. apply map_ext. intros i. lia.
Qed.

Lemma warm_latch_demo_run :
  exists tr0 tr1, main demo_args None 0 demo_data = Some [tr0; tr1].
Proof.
  eexists. eexists.
  run_concrete. r_decide. run_concrete. r_decide. run_concrete. r_decide.
  reflexivity.
Defined.

(** X11.  Without a queue file, the epochs of a run are numbered from
    [start_epoch] on, and [train] gets no queue in an epoch exactly when
    the truncated [queue_length] is not positive or the epoch is before
    [epoch_queue_starts]; in particular a [queue_length] below
    [batch_size * world_size] never gives a queue. *)
Theorem queue_starts_at_activation_epoch
        (args : arguments) (start_epoch : Z) (data : Z -> list step_data)
        (trs : list epoch_trace)
        (Hrun : main args None start_epoch data = Some trs) :
  exists ql,
    truncate_queue_length (queue_length args) (batch_size args)
                          (world_size args) = Some ql /\
    Forall (fun t : epoch_trace =>
              queue_in t = None <->
              ((ql <= 0)%Z \/ (epoch_no t < epoch_queue_starts args)%Z)) trs /\
    map epoch_no trs
    = map (fun i : nat => (start_epoch + Z.of_nat i)%Z)
          (seq 0 (Z.to_nat (epochs args - start_epoch))) /\
    ((0 <= queue_length args < batch_size args * world_size args)%Z ->
     ql = 0%Z).
Proof.
  unfold main in Hrun.
  destruct (truncate_queue_length _ _ _) as [ql |] eqn:E; [| discriminate].
  exists ql. split; [reflexivity |].
  destruct (main_epochs_activation _ _ _ _ _ _ _ (or_introl eq_refl) Hrun)
    as [H1 H2].
  split; [exact H1 |]. split; [exact H2 |].
  intros Hsmall. unfold truncate_queue_length in E.
  destruct (Z.eqb (batch_size args * world_size args) 0); [discriminate |].
  injection E as <-. rewrite Z.mod_small by exact Hsmall. lia.
Qed.

Lemma queue_starts_at_activation_epoch_witness :
  exists trs ql,
    main demo_args None 0 demo_data = Some trs /\
    truncate_queue_length (queue_length demo_args) (batch_size demo_args)
                          (world_size demo_args) = Some ql /\
    map epoch_no trs = [0%Z; 1%Z].
Proof.
  destruct warm_latch_demo_run as (tr0 & tr1 & Hrun).
  destruct (queue_starts_at_activation_epoch demo_args 0 demo_data _ Hrun)
    as (ql & E & _ & Hno & _).
  exists [tr0; tr1], ql. split; [exact Hrun |]. split; [exact E | exact Hno].
Defined.

(** ** The learning-rate schedule *)

Lemma nth_error_map_seq {A : Type} (f : nat -> A) (n i : nat) :
  (i < n)%nat -> nth_error (map f (seq 0 n)) i = Some (f i).
Proof.
  intros H. rewrite nth_error_map, nth_error_seq.
  destruct (Nat.ltb_spec i n); [reflexivity | lia].
Qed.

Lemma linspace_length (a b : R) (num : Z) (l : list R) :
  linspace a b num = Some l -> length l = Z.to_nat num.
Proof.
  unfold linspace. destruct (num <? 0)%Z; [discriminate |].
  intros H. injection H as <-.
  destruct (Z.to_nat num) as [| [| m]]; try reflexivity.
  cbn [length]. now rewrite length_map, length_seq.
Qed.

Lemma linspace_some (a b : R) (num : Z) :
  (0 <= num)%Z -> exists l, linspace a b num = Some l.
Proof.
  intros H. unfold linspace.
  destruct (Z.ltb_spec num 0); [lia | eauto].
Qed.

Lemma cosine_length (base final : R) (steps : Z) :
  length (cosine_lr_schedule base final steps) = Z.to_nat steps.
Proof. unfold cosine_lr_schedule. now rewrite length_map, length_seq. Qed.

Lemma lr_lookup_nat (sched : list R) (i : nat) :
  lr_lookup sched (Z.of_nat i) = nth_error sched i.
Proof.
  unfold lr_lookup. destruct (Z.ltb_spec (Z.of_nat i) 0); [lia |].
  now rewrite Nat2Z.id.
Qed.

Lemma lr_schedule_some (o : optim_arguments) (args : arguments)
      (loader_len : Z) (base : R) :
  (0 <= loader_len)%Z -> (0 <= warmup_epochs o)%Z ->
  exists warm,
    warmup_lr_schedule o loader_len = Some warm /\
    length warm = Z.to_nat (loader_len * warmup_epochs o) /\
    lr_schedule o args loader_len base
    = Some (warm ++ cosine_lr_schedule
                      base (final_lr o)
                      (loader_len * (epochs args - warmup_epochs o))).
Proof.
  intros HL Hw. unfold lr_schedule, warmup_lr_schedule.
  destruct (linspace_some (start_warmup o) (base_lr o)
                          (loader_len * warmup_epochs o) ltac:(nia))
    as (warm & E).
  exists warm. rewrite E. repeat split. now apply linspace_length in E.
Qed.

(** X12.  With a loader of [loader_len >= 0] batches and
    [warmup_epochs >= 0] the schedule is built and has an entry for every
    iteration of every epoch below [epochs], so line 303 never indexes
    outside it; its length is that of the warm-up part plus that of the
    cosine part. *)
Theorem lr_schedule_covers_every_iteration
        (o : optim_arguments) (args : arguments) (loader_len : Z) (base : R)
        (HL : (0 <= loader_len)%Z) (Hw : (0 <= warmup_epochs o)%Z) :
  exists sched,
    lr_schedule o args loader_len base = Some sched /\
    length sched
    = (Z.to_nat (loader_len * warmup_epochs o)
       + Z.to_nat (loader_len * (epochs args - warmup_epochs o)))%nat /\
    forall (epoch : Z) (it : nat),
      (0 <= epoch < epochs args)%Z -> (Z.of_nat it < loader_len)%Z ->
      exists lr, lr_of_iteration sched loader_len epoch it = Some lr.
Proof.
  destruct (lr_schedule_some o args loader_len base HL Hw)
    as (warm & _ & Hlen & E).
  eexists. split; [exact E |].
  assert (Hl : length (warm ++ cosine_lr_schedule
                                 base (final_lr o)
                                 (loader_len * (epochs args - warmup_epochs o)))
               = (Z.to_nat (loader_len * warmup_epochs o)
                  + Z.to_nat (loader_len * (epochs args - warmup_epochs o)))%nat)
    by (now rewrite length_app, cosine_length, Hlen).
  split; [exact Hl |].
  intros epoch it He Hit. unfold lr_of_iteration.
  assert (Hidx : (0 <= epoch * loader_len + Z.of_nat it)%Z) by nia.
  rewrite <- (Z2Nat.id _ Hidx), lr_lookup_nat.
  destruct (nth_error _ _) as [lr |] eqn:En; [eauto |].
  apply nth_error_None in En. rewrite Hl in En.
  assert (epoch * loader_len + Z.of_nat it < loader_len * epochs args)%Z by nia.
  destruct (Z.le_gt_cases (warmup_epochs o) (epochs args)).
  - assert (0 <= loader_len * (epochs args - warmup_epochs o))%Z by nia.
    assert (0 <= loader_len * warmup_epochs o)%Z by nia. nia.
  - assert (0 <= loader_len * warmup_epochs o)%Z by nia. nia.
Qed.

Lemma lr_schedule_covers_every_iteration_witness :
  exists sched,
    lr_schedule {| base_lr := 4.8; final_lr := 0; start_warmup := 0;
                   warmup_epochs := 1 |} demo_args 3 4.8 = Some sched /\
    length sched = (3 + 3)%nat.
Proof.
  destruct (lr_schedule_covers_every_iteration
              {| base_lr := 4.8; final_lr := 0; start_warmup := 0;
                 warmup_epochs := 1 |} demo_args 3 4.8
              ltac:(lia) ltac:(simpl; lia)) as (sched & E & Hl & _).
  exists sched. split; [exact E | exact Hl].
Defined.

(** X13.  The warm-up part is a straight ramp: with
    [n = loader_len * warmup_epochs >= 2] warm-up iterations, iteration
    [i < n] runs at [start_warmup + i * (base_lr - start_warmup) / (n - 1)],
    the first at [start_warmup] and the last at [base_lr], whatever base
    rate the cosine part was built for. *)
Theorem warmup_is_linear_ramp
        (o : optim_arguments) (args : arguments) (loader_len : Z)
        (base : R) (n : nat)
        (HL : (0 <= loader_len)%Z) (Hw : (0 <= warmup_epochs o)%Z)
        (Hn : Z.to_nat (loader_len * warmup_epochs o) = n)
        (Hn2 : (2 <= n)%nat) :
  exists sched,
    lr_schedule o args loader_len base = Some sched /\
    (forall i : nat,
        (i < n)%nat ->
        lr_lookup sched (Z.of_nat i)
        = Some (start_warmup o
                + INR i * ((base_lr o - start_warmup o) / INR (n - 1)))) /\
    lr_lookup sched 0 = Some (start_warmup o) /\
    lr_lookup sched (Z.of_nat (n - 1)) = Some (base_lr o).
Proof.
  destruct (lr_schedule_some o args loader_len base HL Hw)
    as (warm & Ew & Hlen & E).
  eexists. split; [exact E |].
  assert (Hwarm : warm = map (fun i : nat =>
                                start_warmup o
                                + INR i * ((base_lr o - start_warmup o)
                                           / INR (n - 1)))
                             (seq 0 n)).
  { unfold warmup_lr_schedule, linspace in Ew.
    destruct (loader_len * warmup_epochs o <? 0)%Z; [discriminate |].
    injection Ew as <-. rewrite Hn.
    destruct n as [| [| m]]; try lia.
    replace (S (S m) - 1)%nat with (S m) by lia. reflexivity. }
  assert (Hi : forall i : nat,
             (i < n)%nat ->
             lr_lookup (warm ++ cosine_lr_schedule
                                  base (final_lr o)
                                  (loader_len * (epochs args - warmup_epochs o)))
                       (Z.of_nat i)
             = Some (start_warmup o
                     + INR i * ((base_lr o - start_warmup o) / INR (n - 1)))).
  { intros i Hi. rewrite lr_lookup_nat, nth_error_app1 by lia.
    rewrite Hwarm, nth_error_map, nth_error_seq.
    destruct (Nat.ltb_spec i n); [reflexivity | lia]. }
  split; [exact Hi |]. split.
  - change 0%Z with (Z.of_nat 0). rewrite Hi by lia. f_equal. simpl. lra.
  - rewrite Hi by lia. f_equal.
    assert (0 < INR (n - 1)) by (apply lt_0_INR; lia). field. lra.
Qed.

Lemma warmup_is_linear_ramp_witness :
  exists sched,
    lr_schedule {| base_lr := 4.8; final_lr := 0; start_warmup := 0;
                   warmup_epochs := 1 |} demo_args 3 4.8 = Some sched /\
    lr_lookup sched 0 = Some 0 /\
    lr_lookup sched (Z.of_nat (3 - 1)) = Some 4.8.
Proof.
  destruct (warmup_is_linear_ramp
              {| base_lr := 4.8; final_lr := 0; start_warmup := 0;
                 warmup_epochs := 1 |} demo_args 3 4.8 3
              ltac:(lia) ltac:(simpl; lia) eq_refl ltac:(lia))
    as (sched & E & _ & H0 & H1).
  exists sched. repeat split; assumption.
Defined.

(** X14.  Within one schedule array, the one of lines 191-195 built for
    [base_lr] or the one of lines 253-257 built for twice it, the entries
    behind the warm-up part follow the cosine formula from [base]
    downwards: with [final_lr <= base] every such entry lies between
    [final_lr] and [base], the first one is [base], and a later entry of
    the array is never above an earlier one.  Of two such arrays the one
    built for the larger base has the larger entry at every position
    behind the warm-up part; which array is in force in an epoch is the
    matter of X15. *)
Theorem cosine_part_decays
        (o : optim_arguments) (args : arguments) (loader_len : Z) (base : R)
        (HL : (0 <= loader_len)%Z) (Hw : (0 <= warmup_epochs o)%Z)
        (Hsteps : (0 < loader_len * (epochs args - warmup_epochs o))%Z)
        (Hbase : final_lr o <= base) :
  exists sched,
    lr_schedule o args loader_len base = Some sched /\
    (forall t : nat,
        (Z.of_nat t < loader_len * (epochs args - warmup_epochs o))%Z ->
        exists lr,
          lr_lookup sched
                    (Z.of_nat (Z.to_nat (loader_len * warmup_epochs o) + t))
          = Some lr /\
          lr = final_lr o
               + 0.5 * (base - final_lr o)
                 * (1 + cos (PI * INR t
                             / IZR (loader_len
                                    * (epochs args - warmup_epochs o)))) /\
          final_lr o <= lr <= base /\
          (t = 0%nat -> lr = base) /\
          forall (t' : nat) (lr' : R),
            (t <= t')%nat ->
            lr_lookup sched
                      (Z.of_nat (Z.to_nat (loader_len * warmup_epochs o) + t'))
            = Some lr' ->
            lr' <= lr) /\
    (forall (base' : R) (sched' : list R) (t : nat) (lr lr' : R),
        base <= base' ->
        lr_schedule o args loader_len base' = Some sched' ->
        lr_lookup sched
                  (Z.of_nat (Z.to_nat (loader_len * warmup_epochs o) + t))
        = Some lr ->
        lr_lookup sched'
                  (Z.of_nat (Z.to_nat (loader_len * warmup_epochs o) + t))
        = Some lr' ->
        lr <= lr').
Proof.
  destruct (lr_schedule_some o args loader_len base HL Hw)
    as (warm & Ew & Hlen & E).
  set (steps := (loader_len * (epochs args - warmup_epochs o))%Z) in *.
  set (f := fun (b : R) (t : nat) =>
              final_lr o
              + 0.5 * (b - final_lr o)
                * (1 + cos (PI * INR t / IZR steps))).
  assert (Hlook : forall (b : R) (t : nat),
             lr_lookup (warm ++ cosine_lr_schedule b (final_lr o) steps)
                       (Z.of_nat (Z.to_nat (loader_len * warmup_epochs o) + t))
             = if (Z.of_nat t <? steps)%Z then Some (f b t) else None).
  { intros b t. rewrite lr_lookup_nat, nth_error_app2 by lia.
    rewrite Hlen. replace (_ + t - _)%nat with t by lia.
    unfold cosine_lr_schedule. rewrite nth_error_map, nth_error_seq.
    destruct (Nat.ltb_spec t (Z.to_nat steps));
      destruct (Z.ltb_spec (Z.of_nat t) steps); try reflexivity; lia. }
  assert (Hs : 0 < IZR steps) by (now apply IZR_lt).
  assert (Harg : forall t : nat,
             (Z.of_nat t < steps)%Z ->
             0 <= PI * INR t / IZR steps <= PI).
  { intros t Ht. pose proof PI_RGT_0 as Hpi. pose proof (pos_INR t) as Hp.
    assert (Hle : INR t <= IZR steps).
    { rewrite INR_IZR_INZ. apply IZR_le. lia. }
    split.
    - apply Rmult_le_pos; [nra |]. apply Rlt_le. now apply Rinv_0_lt_compat.
    - apply (Rmult_le_reg_r (IZR steps)); [exact Hs |].
      unfold Rdiv. rewrite Rmult_assoc, Rinv_l by lra. nra. }
  eexists. split; [exact E |]. split.
  - intros t Ht. exists (f base t). split.
    { rewrite Hlook. now destruct (Z.ltb_spec (Z.of_nat t) steps); [| lia]. }
    split; [reflexivity |].
    pose proof (COS_bound (PI * INR t / IZR steps)) as [Hc1 Hc2].
    split; [unfold f; split; nra |]. split.
    + intros ->. unfold f. simpl INR.
      replace (PI * 0 / IZR steps) with 0 by (unfold Rdiv; ring).
      rewrite cos_0. lra.
    + intros t' lr' Htt' Hl'. rewrite Hlook in Hl'.
      destruct (Z.ltb_spec (Z.of_nat t') steps) as [Ht' | _];
        [| discriminate].
      injection Hl' as <-.
      assert (Hcos : cos (PI * INR t' / IZR steps)
                     <= cos (PI * INR t / IZR steps)).
      { apply cos_decr_1; try apply Harg; trivial.
        pose proof PI_RGT_0 as Hpi.
        assert (INR t <= INR t') by (apply le_INR; lia).
        apply (Rmult_le_reg_r (IZR steps)); [exact Hs |].
        unfold Rdiv. rewrite !Rmult_assoc, Rinv_l by lra. nra. }
      unfold f. nra.
  - intros base' sched' t lr lr' Hbb' E' Hl Hl'.
    destruct (lr_schedule_some o args loader_len base' HL Hw)
      as (warm' & Ew' & _ & E2).
    rewrite Ew in Ew'. injection Ew' as <-.
    rewrite E2 in E'. injection E' as <-.
    rewrite Hlook in Hl, Hl'.
    destruct (Z.ltb (Z.of_nat t) steps); [| discriminate].
    injection Hl as <-. injection Hl' as <-.
    pose proof (COS_bound (PI * INR t / IZR steps)) as [Hc1 Hc2].
    unfold f. nra.
Qed.

Lemma cosine_part_decays_witness :
  exists sched,
    lr_schedule {| base_lr := 4.8; final_lr := 0; start_warmup := 0;
                   warmup_epochs := 1 |} demo_args 3 4.8 = Some sched /\
    lr_lookup sched 3 = Some 4.8.
Proof.
  destruct (cosine_part_decays
              {| base_lr := 4.8; final_lr := 0; start_warmup := 0;
                 warmup_epochs := 1 |} demo_args 3 4.8
              ltac:(lia) ltac:(simpl; lia) ltac:(simpl; lia)
              ltac:(simpl; lra)) as (sched & E & H & _).
  exists sched. split; [exact E |].
  destruct (H 0%nat ltac:(simpl; lia)) as (lr & Hl & _ & _ & H0 & _).
  rewrite (H0 eq_refl) in Hl. exact Hl.
Defined.

Lemma lr_epochs_selects (args : arguments) (sched0 doubled : list R)
      (start_epoch : Z) (n : nat) :
  forall (epoch : Z) (sched : list R),
    (start_epoch <= epoch)%Z ->
    sched = (if (start_epoch <=? epoch_uota_starts args)%Z
                && (epoch_uota_starts args <? epoch)%Z
             then doubled else sched0) ->
    Forall (fun es : Z * list R =>
              snd es = if (start_epoch <=? epoch_uota_starts args)%Z
                          && (epoch_uota_starts args <=? fst es)%Z
                       then doubled else sched0)
           (lr_epochs args doubled n epoch sched) /\
    map fst (lr_epochs args doubled n epoch sched)
    = map (fun i : nat => (epoch + Z.of_nat i)%Z) (seq 0 n).
Proof.
  induction n as [| k IH]; intros epoch sched He Hs; cbn [lr_epochs].
  - split; [constructor | reflexivity].
  - assert (Hnow : (if Z.eqb epoch (epoch_uota_starts args) then doubled
                    else sched)
                   = if (start_epoch <=? epoch_uota_starts args)%Z
                        && (epoch_uota_starts args <=? epoch)%Z
                     then doubled else sched0).
    { rewrite Hs.
      destruct (Z.eqb_spec epoch (epoch_uota_starts args)) as [Eq | Ne];
        destruct (Z.leb_spec start_epoch (epoch_uota_starts args));
        destruct (Z.ltb_spec (epoch_uota_starts args) epoch);
        destruct (Z.leb_spec (epoch_uota_starts args) epoch);
        cbn [andb]; try reflexivity; lia. }
    rewrite Hnow.
    destruct (IH (epoch + 1)%Z
                 (if (start_epoch <=? epoch_uota_starts args)%Z
                     && (epoch_uota_starts args <=? epoch)%Z
                  then doubled else sched0)) as [H1 H2].
    + lia.
    + destruct (Z.leb_spec (epoch_uota_starts args) epoch);
        destruct (Z.ltb_spec (epoch_uota_starts args) (epoch + 1));
        try reflexivity; lia.
    + split.
      * constructor; [reflexivity | exact H1].
      * cbn [map seq fst]. f_equal; [lia |].
        rewrite H2, <- seq_shift, map_map. apply map_ext. intros i. lia.
Qed.

(** X15.  The doubled schedule of lines 252-257 is in force in an epoch
    exactly when the run started at or before [epoch_uota_starts] and the
    epoch is not before it; a run resumed after [epoch_uota_starts] keeps
    the schedule built for [base_lr], although its loss is the weighted
    one in every epoch from [epoch_uota_starts] on.  Both schedules have the
    same length. *)
Theorem lr_doubled_only_through_uota_epoch
        (o : optim_arguments) (args : arguments)
        (loader_len start_epoch : Z)
        (HL : (0 <= loader_len)%Z) (Hw : (0 <= warmup_epochs o)%Z) :
  exists sched doubled epochs_run,
    lr_schedule o args loader_len (base_lr o) = Some sched /\
    lr_schedule o args loader_len (base_lr o * 2) = Some doubled /\
    length doubled = length sched /\
    main_lr o args loader_len start_epoch = Some epochs_run /\
    map fst epochs_run
    = map (fun i : nat => (start_epoch + Z.of_nat i)%Z)
          (seq 0 (Z.to_nat (epochs args - start_epoch))) /\
    Forall (fun es : Z * list R =>
              snd es = if (start_epoch <=? epoch_uota_starts args)%Z
                          && (epoch_uota_starts args <=? fst es)%Z
                       then doubled else sched) epochs_run /\
    forall (e : Z) (d : step_data) (q : mat) (s : num) (v : nat),
      subloss_step args e d q s v
      = if (epoch_uota_starts args <=? e)%Z
        then nsub s (weighted_term q (predicted args d v)
                                   (chunk (bs d) v (sample_weight d)))
        else nsub s (unweighted_term q (predicted args d v)).
Proof.
  destruct (lr_schedule_some o args loader_len (base_lr o) HL Hw)
    as (warm & Ew & Hlen & E1).
  destruct (lr_schedule_some o args loader_len (base_lr o * 2) HL Hw)
    as (warm2 & Ew2 & _ & E2).
  rewrite Ew in Ew2. injection Ew2 as <-.
  eexists. eexists. eexists.
  split; [exact E1 |]. split; [exact E2 |].
  split; [now rewrite !length_app, !cosine_length |].
  unfold main_lr. rewrite E1, E2. split; [reflexivity |].
  destruct (lr_epochs_selects
              args
              (warm ++ cosine_lr_schedule
                         (base_lr o) (final_lr o)
                         (loader_len * (epochs args - warmup_epochs o)))
              (warm ++ cosine_lr_schedule
                         (base_lr o * 2) (final_lr o)
                         (loader_len * (epochs args - warmup_epochs o)))
              start_epoch (Z.to_nat (epochs args - start_epoch))
              start_epoch
              (warm ++ cosine_lr_schedule
                         (base_lr o) (final_lr o)
                         (loader_len * (epochs args - warmup_epochs o)))
              (Z.le_refl _)) as [H1 H2].
  - destruct (Z.ltb_spec (epoch_uota_starts args) start_epoch);
      destruct (Z.leb_spec start_epoch (epoch_uota_starts args));
      try reflexivity; lia.
  - split; [exact H2 |]. split; [exact H1 |].
    intros e d q s v.
    destruct (Z.leb_spec (epoch_uota_starts args) e).
    + apply subloss_step_after. lia.
    + apply subloss_step_before. lia.
Qed.

Lemma lr_doubled_only_through_uota_epoch_witness :
  exists sched doubled epochs_run,
    main_lr {| base_lr := 4.8; final_lr := 0; start_warmup := 0;
               warmup_epochs := 1 |} loss_demo_args 3 7 = Some epochs_run /\
    lr_schedule {| base_lr := 4.8; final_lr := 0; start_warmup := 0;
                   warmup_epochs := 1 |} loss_demo_args 3 4.8 = Some sched /\
    lr_schedule {| base_lr := 4.8; final_lr := 0; start_warmup := 0;
                   warmup_epochs := 1 |} loss_demo_args 3 (4.8 * 2)
    = Some doubled /\
    Forall (fun es : Z * list R => snd es = sched) epochs_run.
Proof.
  destruct (lr_doubled_only_through_uota_epoch
              {| base_lr := 4.8; final_lr := 0; start_warmup := 0;
                 warmup_epochs := 1 |} loss_demo_args 3 7
              ltac:(lia) ltac:(simpl; lia))
    as (sched & doubled & run & E1 & E2 & _ & Em & _ & Hsel & _).
  exists sched, doubled, run.
  split; [exact Em |]. split; [exact E1 |]. split; [exact E2 |].
  exact Hsel.
Defined.

(** ** The sign of a term of the loss *)

Lemma nlog_unit (p : num) : unitfin p -> npfin (nlog p).
Proof.
  destruct p as [x | | |]; simpl; try contradiction. intros [H0 H1].
  destruct (Req_dec_T x 0); [lra |]. destruct (Rlt_dec 0 x); [| lra].
  simpl. destruct (Req_dec_T x 1) as [-> | Hx]; [rewrite ln_1; lra |].
  rewrite <- ln_1. apply Rlt_le, ln_increasing; lra.
Qed.

Lemma nmul_nn_np (a b : num) : nnfin a -> npfin b -> npfin (nmul a b).
Proof.
  destruct a, b; simpl; try contradiction. intros Ha Hb. nra.
Qed.

Lemma nmul_np_nn (a b : num) : npfin a -> nnfin b -> npfin (nmul a b).
Proof.
  destruct a, b; simpl; try contradiction. intros Ha Hb. nra.
Qed.

Lemma nsum_np (v : vec) :
  Forall npfin v -> nsum v = Fin (rsum v) /\ rsum v <= 0.
Proof.
  unfold nsum, rsum. induction 1 as [| a v Ha _ [IH1 IH2]]; simpl.
  - split; [reflexivity | lra].
  - rewrite IH1. destruct a; simpl in *; try contradiction.
    split; [reflexivity | lra].
Qed.

Lemma mean_np (v : vec) :
  v <> [] -> Forall npfin v ->
  mean v = Fin (rsum v / INR (length v)) /\ rsum v / INR (length v) <= 0.
Proof.
  intros Hne Hv. unfold mean, of_nat.
  destruct (nsum_np v Hv) as [E Hle]. rewrite E.
  assert (Hlen : 0 < INR (length v)).
  { apply lt_0_INR. destruct v; [easy | simpl; lia]. }
  rewrite ndiv_fin by lra. split; [reflexivity |].
  apply Rmult_le_reg_r with (r := INR (length v)); [exact Hlen |].
  unfold Rdiv. rewrite Rmult_assoc, Rinv_l by lra. lra.
Qed.

Lemma ce_rows_np (q p : mat) :
  Forall (Forall nnfin) q -> Forall (Forall unitfin) p ->
  Forall npfin (ce_rows q p).
Proof.
  intros Hq. revert p. unfold ce_rows.
  induction Hq as [| qr q Hqr Hq IH]; intros p Hp; [constructor |].
  destruct Hp as [| pr p Hpr Hp]; [constructor |].
  cbn [combine map fst snd]. constructor; [| now apply IH].
  assert (Hterms : Forall npfin (vmap2 nmul qr (map nlog pr))).
  { apply (Forall_vmap2 nnfin npfin npfin nmul nmul_nn_np); [exact Hqr |].
    apply Forall_forall. intros l Hl. apply in_map_iff in Hl as (x & <- & Hx).
    rewrite Forall_forall in Hpr. now apply nlog_unit, Hpr. }
  destruct (nsum_np _ Hterms) as [E Hle]. rewrite E. exact Hle.
Qed.

Lemma rsum_weighted (a w : vec) :
  Forall npfin a -> Forall nnfin w -> Forall (fun c : num => val c <= 1) w ->
  rsum a <= rsum (vmap2 nmul a w) + rsum (skipn (length w) a).
Proof.
  intros Ha. revert w. unfold vmap2, rsum.
  induction Ha as [| x a Hx Ha IH]; intros w Hw Hw1.
  - destruct w; simpl; lra.
  - destruct Hw as [| c w Hc Hw]; [simpl; lra |].
    inversion Hw1 as [| ? ? Hc1 Hw1']; subst.
    specialize (IH w Hw Hw1').
    destruct x as [x | | |], c as [c | | |]; simpl in *; try contradiction.
    nra.
Qed.

(** X16.  For assignments [q] whose entries are not negative, predicted
    distributions [p] whose entries lie in (0, 1] and weights [w] that are
    not negative, all of the shape of one batch: the term that line 351
    takes off [subloss], and the weighted one of line 349, are finite and
    never above zero, so [subloss] stays finite and never below zero; and
    with weights that are at most 1 the weighted term is never further
    from zero than the plain one. *)
Theorem loss_terms_not_positive
        (n K : nat) (q p : mat) (w : vec)
        (Hn : (0 < n)%nat)
        (Hq : rect n K q) (Hp : rect n K p) (Hw : length w = n)
        (Hqn : Forall (Forall nnfin) q)
        (Hpu : Forall (Forall unitfin) p)
        (Hwn : Forall nnfin w) :
  exists x y : R,
    unweighted_term q p = Fin x /\ x <= 0 /\
    weighted_term q p w = Fin y /\ y <= 0 /\
    (forall s : num,
        nnfin s ->
        nnfin (nsub s (unweighted_term q p)) /\
        nnfin (nsub s (weighted_term q p w))) /\
    (Forall (fun c : num => val c <= 1) w -> x <= y).
Proof.
  pose proof (ce_rows_np q p Hqn Hpu) as Hce.
  assert (Hcl : length (ce_rows q p) = n).
  { unfold ce_rows. rewrite length_map, length_combine.
    destruct Hq as [-> _], Hp as [-> _]. lia. }
  assert (Hwce : Forall npfin (vmap2 nmul (ce_rows q p) w))
    by (apply (Forall_vmap2 npfin nnfin npfin nmul nmul_np_nn); assumption).
  assert (Hwl : length (vmap2 nmul (ce_rows q p) w) = n)
    by (rewrite length_vmap2, Hcl, Hw; lia).
  assert (Hne1 : ce_rows q p <> [])
    by (intros E; rewrite E in Hcl; simpl in Hcl; lia).
  assert (Hne2 : vmap2 nmul (ce_rows q p) w <> [])
    by (intros E; rewrite E in Hwl; simpl in Hwl; lia).
  destruct (mean_np _ Hne1 Hce) as [Ex Hx].
  destruct (mean_np _ Hne2 Hwce) as [Ey Hy].
  unfold unweighted_term, weighted_term. rewrite Ex, Ey.
  eexists. eexists. split; [reflexivity |]. split; [exact Hx |].
  split; [reflexivity |]. split; [exact Hy |]. split.
  - intros s Hs. destruct s as [z | | |]; simpl in Hs; try contradiction.
    unfold nsub. simpl. split; lra.
  - intros Hw1. rewrite Hcl, Hwl.
    pose proof (rsum_weighted _ w Hce Hwn Hw1) as Hle.
    rewrite skipn_all2 in Hle by lia. simpl in Hle.
    assert (Hpos : 0 < INR n) by (apply lt_0_INR; lia).
    apply Rmult_le_compat_r; [| lra].
    apply Rlt_le. now apply Rinv_0_lt_compat.
Qed.

Lemma loss_terms_not_positive_witness :
  exists x y : R,
    unweighted_term loss_demo_q loss_demo_q = Fin x /\ x <= 0 /\
    weighted_term loss_demo_q loss_demo_q [Fin (1 / 2); Fin 1] = Fin y /\
    y <= 0 /\ x <= y.
Proof.
  destruct (loss_terms_not_positive
              2 2 loss_demo_q loss_demo_q [Fin (1 / 2); Fin 1])
    as (x & y & Ex & Hx & Ey & Hy & _ & Hxy).
  - lia.
  - split; [reflexivity | repeat constructor].
  - split; [reflexivity | repeat constructor].
  - reflexivity.
  - repeat (apply Forall_cons || apply Forall_nil); simpl; lra.
  - repeat (apply Forall_cons || apply Forall_nil); simpl; lra.
  - repeat (apply Forall_cons || apply Forall_nil); simpl; lra.
  - exists x, y. repeat split; try assumption.
    apply Hxy. repeat (apply Forall_cons || apply Forall_nil); simpl; lra.
Defined.
